(** * cygraph: the adjacency-list and adjacency-matrix graph backends

    A shallow embedding of [include/graph/adjacency_list.hpp] and
    [include/graph/adjacency_matrix.hpp].

    - [std::unordered_set<Vertex>] is a [gset Vertex], [std::unordered_map]
      a [gmap]; [std::vector] is a [list].
    - Every member function is a computation in the monad [M] below: it
      receives the object, and either returns normally with a value and the
      object after the call, or leaves by a [std::invalid_argument] with the
      object as it is at the [throw], or has undefined behaviour (an
      out-of-range [vector] access, an [erase] at or past [end()], a read
      through a dangling pointer).
    - [int] counters and indices are [nat]: they only ever hold positions in
      vectors that exist in memory, or the size of one plus a few
      increments.
    - A graph starts from the two-argument constructor; the default
      constructors, which leave [directed] to the base class, are only used
      as targets of an assignment from it. *)

From stdpp Require Import gmap list fin_maps fin_sets.

(** ** Exceptions and outcomes *)

(** The [std::invalid_argument] exceptions of the library, told apart by their
    message. *)
Inductive invalid_argument : Type :=
  | Vertex_is_already_in_graph   (* "Vertex is already in graph." *)
  | Vertex_not_in_graph          (* "Vertex not in graph." *)
  | Edge_does_not_exist          (* "Edge does not exist." *)
  | Remove_edge_that_doesnt_exist (* "Attempting to remove edge that doesn't exist." *)
  | Edge_already_exists.         (* "Edge already exists." *)

Inductive outcome (S A : Type) : Type :=
  | Ret (a : A) (s : S)
  | Throw (e : invalid_argument) (s : S)
  | Undef.
Arguments Ret {S A} a s.
Arguments Throw {S A} e s.
Arguments Undef {S A}.

Definition M (S A : Type) : Type := S → outcome S A.

Definition ret {S A} (a : A) : M S A := λ s, Ret a s.
Definition throw {S A} (e : invalid_argument) : M S A := λ s, Throw e s.
Definition undef {S A} : M S A := λ _, Undef.
Definition bind {S A B} (m : M S A) (k : A → M S B) : M S B :=
  λ s, match m s with
       | Ret a s' => k a s'
       | Throw e s' => Throw e s'
       | Undef => Undef
       end.
Definition gets {S A} (f : S → A) : M S A := λ s, Ret (f s) s.
Definition modify {S} (f : S → S) : M S unit := λ s, Ret tt (f s).
(** [try { m } catch ( std::invalid_argument e ) { h e }] *)
Definition try_catch {S A} (m : M S A) (h : invalid_argument → M S A) : M S A :=
  λ s, match m s with
       | Throw e s' => h e s'
       | o => o
       end.

Notation "'let*' x := m 'in' k" := (bind m (λ x, k))
  (at level 10, x name, m at level 100, k at level 200, only parsing).

(** The object after a call, when there is one. *)
Definition state_of {S A} (o : outcome S A) : option S :=
  match o with
  | Ret _ s => Some s
  | Throw _ s => Some s
  | Undef => None
  end.

(** What the caller sees of a call: the value or the exception. *)
Inductive result (A : Type) : Type :=
  | Returned (a : A)
  | Thrown (e : invalid_argument)
  | Undefined.
Arguments Returned {A} a.
Arguments Thrown {A} e.
Arguments Undefined {A}.

Definition result_of {S A} (o : outcome S A) : result A :=
  match o with
  | Ret a _ => Returned a
  | Throw e _ => Thrown e
  | Undef => Undefined
  end.

(** ** Vectors *)

(** [v.erase(v.begin() + n)], defined for [n < v.size()] only. *)
Definition erase_at {A} (n : nat) (l : list A) : list A := take n l ++ drop (S n) l.

(** The loop
    [to_remove = 0; for ( child : l ) { if ( child.first == v ) break; to_remove++; }]. *)
Fixpoint to_remove `{EqDecision K} {A} (v : K) (l : list (K * A)) : nat :=
  match l with
  | [] => 0
  | child :: l' => if decide (child.1 = v) then 0 else S (to_remove v l')
  end.

(** The block
    [if ( to_remove < l.size() ) l.erase(l.begin() + to_remove);] after that
    loop. *)
Definition erase_entry `{EqDecision K} {A} (v : K) (l : list (K * A)) : list (K * A) :=
  let n := to_remove v l in
  if decide (n < length l) then erase_at n l else l.

(** [for ( child : l ) if ( child.first == v ) return ...;]: the first entry
    of [l] for [v]. *)
Fixpoint first_child `{EqDecision K} {A} (v : K) (l : list (K * A)) : option (K * A) :=
  match l with
  | [] => None
  | child :: l' => if decide (child.1 = v) then Some child else first_child v l'
  end.

(** [for ( it : m ) if ( P it.first it.second ) out.insert(it.first);] *)
Definition keys_where `{Countable K} {A} (P : K → A → bool) (m : gmap K A) : gset K :=
  map_fold (λ k x out, if P k x then {[k]} ∪ out else out) ∅ m.

(** ** AdjacencyListGraphCommon: the vertex set *)

Module AdjacencyListGraphCommon.
Section defs.
Context `{Countable Vertex}.

Definition has_vertex (v : Vertex) : M (gset Vertex) bool :=
  gets (λ vertices, bool_decide (v ∈ vertices)).

Definition add_vertex (v : Vertex) : M (gset Vertex) unit :=
  let* b := has_vertex v in
  if b then throw Vertex_is_already_in_graph
  else modify (λ vertices, {[v]} ∪ vertices).

(** [for ( Vertex v : vertices ) if ( has_vertex(v) ) throw ...] *)
Fixpoint check_absent (vs : list Vertex) : M (gset Vertex) unit :=
  match vs with
  | [] => ret tt
  | v :: vs' =>
      let* b := has_vertex v in
      if b then throw Vertex_is_already_in_graph else check_absent vs'
  end.

Definition add_vertices (new_vertices : gset Vertex) : M (gset Vertex) unit :=
  let* _ := check_absent (elements new_vertices) in
  modify (λ vertices, new_vertices ∪ vertices).

Definition remove_vertex (v : Vertex) : M (gset Vertex) unit :=
  let* b := has_vertex v in
  if b then modify (λ vertices, vertices ∖ {[v]})
  else throw Vertex_not_in_graph.
End defs.
End AdjacencyListGraphCommon.

(** ** AdjacencyListGraph<Vertex, EdgeWeight>: weighted adjacency list *)

Module AdjacencyListGraph.
Section defs.
Context `{Countable Vertex} {EdgeWeight : Type}.

Record t : Type := mk {
  directed : bool;
  vertices : gset Vertex;
  adjacency_list : gmap Vertex (list (Vertex * EdgeWeight));
}.

Definition set_vertices (vs : gset Vertex) (g : t) : t :=
  mk (directed g) vs (adjacency_list g).
Definition set_adjacency_list (al : gmap Vertex (list (Vertex * EdgeWeight))) (g : t) : t :=
  mk (directed g) (vertices g) al.

(** A member function of the base class, run on the [vertices] member. *)
Definition common {A} (m : M (gset Vertex) A) : M t A :=
  λ g, match m (vertices g) with
       | Ret a vs => Ret a (set_vertices vs g)
       | Throw e vs => Throw e (set_vertices vs g)
       | Undef => Undef
       end.

(** [adjacency_list[u]] read: [operator[]] inserts an empty vector when the
    key is missing. *)
Definition subscript (u : Vertex) : M t (list (Vertex * EdgeWeight)) :=
  λ g, match adjacency_list g !! u with
       | Some l => Ret l g
       | None => Ret [] (set_adjacency_list (<[u := []]> (adjacency_list g)) g)
       end.

(** [adjacency_list[u] = l], and the in-place updates of [adjacency_list[u]]. *)
Definition assign (u : Vertex) (l : list (Vertex * EdgeWeight)) : M t unit :=
  modify (λ g, set_adjacency_list (<[u := l]> (adjacency_list g)) g).

Definition constructor (directed : bool) (vertices : gset Vertex) : t :=
  mk directed vertices (set_fold (λ v al, <[v := []]> al) ∅ vertices).

Definition has_vertex (v : Vertex) : M t bool :=
  common (AdjacencyListGraphCommon.has_vertex v).

Definition get_edge_weight (u v : Vertex) : M t EdgeWeight :=
  let* l := subscript u in
  match first_child v l with
  | Some child => ret child.2
  | None => throw Edge_does_not_exist
  end.

Definition add_vertex (v : Vertex) : M t unit :=
  let* _ := common (AdjacencyListGraphCommon.add_vertex v) in
  assign v [].

Definition add_vertices (new_vertices : gset Vertex) : M t unit :=
  let* _ := common (AdjacencyListGraphCommon.add_vertices new_vertices) in
  modify (λ g, set_adjacency_list
                 (set_fold (λ v al, <[v := []]> al) (adjacency_list g) new_vertices) g).

(** The body of the loop of [remove_vertex]: [children = it.second] copies
    the vector, the [erase] acts on the copy, and [it.second] is not
    assigned. The pair is (the local [children], [it.second] after the
    body). *)
Definition remove_vertex_body (v : Vertex) (it_second : list (Vertex * EdgeWeight))
    : list (Vertex * EdgeWeight) * list (Vertex * EdgeWeight) :=
  let children := it_second in
  let children := erase_entry v children in
  (children, it_second).

Definition remove_vertex (v : Vertex) : M t unit :=
  let* _ := common (AdjacencyListGraphCommon.remove_vertex v) in
  let* _ := modify (λ g, set_adjacency_list (delete v (adjacency_list g)) g) in
  modify (λ g, set_adjacency_list
                 ((λ it_second, (remove_vertex_body v it_second).2) <$> adjacency_list g) g).

(** The block of [set_edge_weight] that replaces the entry for [v] in
    [adjacency_list[u]]. *)
Definition replace_entry (u v : Vertex) (weight : EdgeWeight) : M t unit :=
  let* l := subscript u in
  assign u (erase_entry v l ++ [(v, weight)]).

Definition set_edge_weight (u v : Vertex) (weight : EdgeWeight) : M t unit :=
  let* hu := has_vertex u in
  let* hv := has_vertex v in
  if negb hu || negb hv then throw Vertex_not_in_graph
  else
    let* _ := replace_entry u v weight in
    let* d := gets directed in
    if negb d then replace_entry v u weight else ret tt.

Definition remove_edge (u v : Vertex) : M t unit :=
  let* hu := has_vertex u in
  let* hv := has_vertex v in
  if negb hu || negb hv then throw Vertex_not_in_graph
  else
    let* l := subscript u in
    let n := to_remove v l in
    let* _ := (if decide (n < length l) then assign u (erase_at n l)
               else throw Remove_edge_that_doesnt_exist) in
    let* d := gets directed in
    if negb d then
      let* l := subscript v in
      let n := to_remove u l in
      (* no test of [n] against the size here *)
      if decide (n < length l) then assign v (erase_at n l) else undef
    else ret tt.

Definition has_edge (u v : Vertex) : M t bool :=
  let* hu := has_vertex u in
  let* hv := has_vertex v in
  if negb hu || negb hv then ret false
  else
    let* l := subscript u in
    ret (bool_decide (is_Some (first_child v l))).

Definition get_children (v : Vertex) : M t (gset Vertex) :=
  let* hv := has_vertex v in
  if negb hv then throw Vertex_not_in_graph
  else
    let* l := subscript v in
    ret (list_to_set l.*1).

Definition get_parents (v : Vertex) : M t (gset Vertex) :=
  let* hv := has_vertex v in
  if negb hv then throw Vertex_not_in_graph
  else
    gets (λ g, keys_where
                 (λ it_first it_second,
                    if decide (it_first = v) then false
                    else bool_decide (is_Some (first_child v it_second)))
                 (adjacency_list g)).

(** The calls a client can make, and the object after each. *)
Inductive call : Type :=
  | Get_edge_weight (u v : Vertex)
  | Add_vertex (v : Vertex)
  | Add_vertices (vs : gset Vertex)
  | Remove_vertex (v : Vertex)
  | Set_edge_weight (u v : Vertex) (w : EdgeWeight)
  | Remove_edge (u v : Vertex)
  | Has_edge (u v : Vertex)
  | Has_vertex (v : Vertex)
  | Get_children (v : Vertex)
  | Get_parents (v : Vertex).

Definition exec (c : call) (g : t) : option t :=
  match c with
  | Get_edge_weight u v => state_of (get_edge_weight u v g)
  | Add_vertex v => state_of (add_vertex v g)
  | Add_vertices vs => state_of (add_vertices vs g)
  | Remove_vertex v => state_of (remove_vertex v g)
  | Set_edge_weight u v w => state_of (set_edge_weight u v w g)
  | Remove_edge u v => state_of (remove_edge u v g)
  | Has_edge u v => state_of (has_edge u v g)
  | Has_vertex v => state_of (has_vertex v g)
  | Get_children v => state_of (get_children v g)
  | Get_parents v => state_of (get_parents v g)
  end.

(** The graphs a program can hold: built by the constructor, then any
    calls, none of which had undefined behaviour. *)
Inductive reachable : t → Prop :=
  | reachable_constructor d vs : reachable (constructor d vs)
  | reachable_call c g g' : reachable g → exec c g = Some g' → reachable g'.

(** Every vertex has a neighbour vector, and no vector has two entries for
    one neighbour. *)
Definition invariant (g : t) : Prop :=
  (∀ v, v ∈ vertices g → is_Some (adjacency_list g !! v)) ∧
  (∀ k l, adjacency_list g !! k = Some l → NoDup l.*1).
End defs.
Arguments t Vertex {_ _} EdgeWeight.
Arguments call Vertex {_ _} EdgeWeight.
End AdjacencyListGraph.

(** ** AdjacencyListGraph<Vertex, bool>: unweighted adjacency list *)

Module AdjacencyListGraphBool.
Section defs.
Context `{Countable Vertex}.

Record t : Type := mk {
  directed : bool;
  vertices : gset Vertex;
  adjacency_list : gmap Vertex (gset Vertex);
}.

Definition set_vertices (vs : gset Vertex) (g : t) : t :=
  mk (directed g) vs (adjacency_list g).
Definition set_adjacency_list (al : gmap Vertex (gset Vertex)) (g : t) : t :=
  mk (directed g) (vertices g) al.

Definition common {A} (m : M (gset Vertex) A) : M t A :=
  λ g, match m (vertices g) with
       | Ret a vs => Ret a (set_vertices vs g)
       | Throw e vs => Throw e (set_vertices vs g)
       | Undef => Undef
       end.

(** [adjacency_list[u]] read: [operator[]] inserts an empty set when the key
    is missing. *)
Definition subscript (u : Vertex) : M t (gset Vertex) :=
  λ g, match adjacency_list g !! u with
       | Some s => Ret s g
       | None => Ret ∅ (set_adjacency_list (<[u := ∅]> (adjacency_list g)) g)
       end.

Definition assign (u : Vertex) (s : gset Vertex) : M t unit :=
  modify (λ g, set_adjacency_list (<[u := s]> (adjacency_list g)) g).

(** [adjacency_list[u].insert(v)] and [adjacency_list[u].erase(v)] *)
Definition insert_child (u v : Vertex) : M t unit :=
  let* s := subscript u in assign u ({[v]} ∪ s).
Definition erase_child (u v : Vertex) : M t unit :=
  let* s := subscript u in assign u (s ∖ {[v]}).

Definition constructor (directed : bool) (vertices : gset Vertex) : t :=
  mk directed vertices (set_fold (λ v al, <[v := ∅]> al) ∅ vertices).

Definition has_vertex (v : Vertex) : M t bool :=
  common (AdjacencyListGraphCommon.has_vertex v).

Definition has_edge (u v : Vertex) : M t bool :=
  let* s := subscript u in
  ret (bool_decide (v ∈ s)).

Definition get_edge_weight (u v : Vertex) : M t bool :=
  let* hu := has_vertex u in
  let* hv := has_vertex v in
  if negb hu || negb hv then throw Vertex_not_in_graph
  else has_edge u v.

Definition add_vertex (v : Vertex) : M t unit :=
  let* _ := common (AdjacencyListGraphCommon.add_vertex v) in
  assign v ∅.

Definition add_vertices (new_vertices : gset Vertex) : M t unit :=
  let* _ := common (AdjacencyListGraphCommon.add_vertices new_vertices) in
  modify (λ g, set_adjacency_list
                 (set_fold (λ v al, <[v := ∅]> al) (adjacency_list g) new_vertices) g).

Definition remove_vertex (v : Vertex) : M t unit :=
  let* _ := common (AdjacencyListGraphCommon.remove_vertex v) in
  let* _ := modify (λ g, set_adjacency_list (delete v (adjacency_list g)) g) in
  modify (λ g, set_adjacency_list ((λ it_second, it_second ∖ {[v]}) <$> adjacency_list g) g).

Definition remove_edge (u v : Vertex) : M t unit :=
  let* b := has_edge u v in
  if negb b then throw Remove_edge_that_doesnt_exist
  else
    let* _ := erase_child u v in
    let* d := gets directed in
    if negb d then erase_child v u else ret tt.

Definition set_edge_weight (u v : Vertex) (weight : bool) : M t unit :=
  let* hu := has_vertex u in
  let* hv := has_vertex v in
  if negb hu || negb hv then throw Vertex_not_in_graph
  else if weight then
    let* _ := insert_child u v in
    let* d := gets directed in
    if negb d then insert_child v u else ret tt
  else
    try_catch (remove_edge u v) (λ _, ret tt).

Definition add_edge (u v : Vertex) : M t unit :=
  let* b := has_edge u v in
  if b then throw Edge_already_exists
  else
    let* hu := has_vertex u in
    let* hv := has_vertex v in
    if negb hu || negb hv then throw Vertex_not_in_graph
    else
      let* _ := insert_child u v in
      let* d := gets directed in
      if negb d then insert_child v u else ret tt.

(** The [catch] block of [add_edges], before its [throw e]. *)
Fixpoint roll_back (added_edges : list (Vertex * Vertex)) : M t unit :=
  match added_edges with
  | [] => ret tt
  | edge :: rest => let* _ := remove_edge edge.1 edge.2 in roll_back rest
  end.

(** The [try] loop of [add_edges] from the edge it has come to, with the
    local [added_edges] so far; an exception of [add_edge] enters the
    [catch] block. *)
Fixpoint add_edges_from (edges added_edges : list (Vertex * Vertex)) : M t unit :=
  match edges with
  | [] => ret tt
  | edge :: edges' =>
      λ g, match add_edge edge.1 edge.2 g with
           | Ret _ g' => add_edges_from edges' (added_edges ++ [edge]) g'
           | Throw e g' => (let* _ := roll_back added_edges in throw e) g'
           | Undef => Undef
           end
  end.

Definition add_edges (edges : list (Vertex * Vertex)) : M t unit :=
  add_edges_from edges [].

Definition get_children (v : Vertex) : M t (gset Vertex) :=
  let* hv := has_vertex v in
  if negb hv then throw Vertex_not_in_graph
  else subscript v.

Definition get_parents (v : Vertex) : M t (gset Vertex) :=
  let* hv := has_vertex v in
  if negb hv then throw Vertex_not_in_graph
  else
    gets (λ g, keys_where (λ _ it_second, bool_decide (v ∈ it_second)) (adjacency_list g)).

Inductive call : Type :=
  | Get_edge_weight (u v : Vertex)
  | Add_vertex (v : Vertex)
  | Add_vertices (vs : gset Vertex)
  | Remove_vertex (v : Vertex)
  | Set_edge_weight (u v : Vertex) (w : bool)
  | Add_edge (u v : Vertex)
  | Add_edges (edges : list (Vertex * Vertex))
  | Remove_edge (u v : Vertex)
  | Has_edge (u v : Vertex)
  | Has_vertex (v : Vertex)
  | Get_children (v : Vertex)
  | Get_parents (v : Vertex).

Definition exec (c : call) (g : t) : option t :=
  match c with
  | Get_edge_weight u v => state_of (get_edge_weight u v g)
  | Add_vertex v => state_of (add_vertex v g)
  | Add_vertices vs => state_of (add_vertices vs g)
  | Remove_vertex v => state_of (remove_vertex v g)
  | Set_edge_weight u v w => state_of (set_edge_weight u v w g)
  | Add_edge u v => state_of (add_edge u v g)
  | Add_edges edges => state_of (add_edges edges g)
  | Remove_edge u v => state_of (remove_edge u v g)
  | Has_edge u v => state_of (has_edge u v g)
  | Has_vertex v => state_of (has_vertex v g)
  | Get_children v => state_of (get_children v g)
  | Get_parents v => state_of (get_parents v g)
  end.

Inductive reachable : t → Prop :=
  | reachable_constructor d vs : reachable (constructor d vs)
  | reachable_call c g g' : reachable g → exec c g = Some g' → reachable g'.

(** The neighbour set stored for [k] (empty when there is none), and the
    edge relation the representation holds. *)
Definition stored (g : t) (k : Vertex) : gset Vertex :=
  default ∅ (adjacency_list g !! k).
Definition edge (g : t) (k x : Vertex) : Prop := x ∈ stored g k.

(** Every vertex has a neighbour set, both ends of an edge are vertices,
    and an undirected graph holds every edge in both directions. *)
Definition invariant (g : t) : Prop :=
  (∀ v, v ∈ vertices g → is_Some (adjacency_list g !! v)) ∧
  (∀ k x, edge g k x → k ∈ vertices g ∧ x ∈ vertices g) ∧
  (directed g = false → ∀ k x, edge g k x → edge g x k).

(** Two objects a client cannot tell apart: the same flag, vertices and
    edges. They may differ in keys of [adjacency_list] that hold an empty
    set. *)
Definition equivalent (g g' : t) : Prop :=
  directed g' = directed g ∧ vertices g' = vertices g ∧
  (∀ k x, edge g' k x ↔ edge g k x).
End defs.
Arguments t Vertex {_ _}.
Arguments call Vertex {_ _}.
End AdjacencyListGraphBool.

(** ** AdjacencyMatrixGraph<Vertex, EdgeWeight> *)

Module AdjacencyMatrixGraph.
Section defs.
Context `{Countable Vertex} {EdgeWeight : Type}.

(** An [EdgeWeight*] of the matrix: [nullptr], or the address of the node of
    [edge_weights] with the given key ([&edge_weights[edge]]). Erasing the
    key leaves the pointer dangling. *)
Definition cell : Type := option (nat * nat).

Record t : Type := mk {
  directed : bool;
  adjacency_matrix : list (list cell);
  edge_weights : gmap (nat * nat) EdgeWeight;
  vertex_indices : gmap Vertex nat;
  vertices : list Vertex;
}.

Definition set_adjacency_matrix (am : list (list cell)) (g : t) : t :=
  mk (directed g) am (edge_weights g) (vertex_indices g) (vertices g).
Definition set_edge_weights (ew : gmap (nat * nat) EdgeWeight) (g : t) : t :=
  mk (directed g) (adjacency_matrix g) ew (vertex_indices g) (vertices g).
Definition set_vertex_indices (vi : gmap Vertex nat) (g : t) : t :=
  mk (directed g) (adjacency_matrix g) (edge_weights g) vi (vertices g).
Definition set_vertices (vs : list Vertex) (g : t) : t :=
  mk (directed g) (adjacency_matrix g) (edge_weights g) (vertex_indices g) vs.

(** [for ( body : l ) ...] *)
Fixpoint for_each {A} (l : list A) (body : A → M t unit) : M t unit :=
  match l with
  | [] => ret tt
  | a :: l' => let* _ := body a in for_each l' body
  end.

(** [for ( Vertex v : vs ) { vertex_indices[v] = i; i++; }] *)
Fixpoint assign_indices (i : nat) (vs : list Vertex) (vi : gmap Vertex nat) : gmap Vertex nat :=
  match vs with
  | [] => vi
  | v :: vs' => assign_indices (S i) vs' (<[v := i]> vi)
  end.

(** [vertex_indices[v]]: [operator[]] inserts index 0 when the key is
    missing. *)
Definition get_vertex_int (v : Vertex) : M t nat :=
  λ g, if bool_decide (v ∈ vertices g) then
         match vertex_indices g !! v with
         | Some i => Ret i g
         | None => Ret 0 (set_vertex_indices (<[v := 0]> (vertex_indices g)) g)
         end
       else Throw Vertex_not_in_graph g.

(** The cell in row [i], column [j], when the matrix has one. *)
Definition cell_at (g : t) (i j : nat) : option cell :=
  match adjacency_matrix g !! i with
  | Some row => row !! j
  | None => None
  end.

(** [adjacency_matrix[i][j]] read *)
Definition read_cell (i j : nat) : M t cell :=
  λ g, match cell_at g i j with
       | Some c => Ret c g
       | None => Undef
       end.

(** [adjacency_matrix[i][j] = c] *)
Definition write_cell (i j : nat) (c : cell) : M t unit :=
  λ g, match adjacency_matrix g !! i with
       | Some row =>
           if decide (j < length row) then
             Ret tt (set_adjacency_matrix (<[i := <[j := c]> row]> (adjacency_matrix g)) g)
           else Undef
       | None => Undef
       end.

(** The constructor, given the iteration order of its [unordered_set]. *)
Definition constructor (directed : bool) (vertices : list Vertex) : t :=
  let n_vertices := length vertices in
  mk directed
     (replicate n_vertices (replicate n_vertices None))
     ∅
     (assign_indices 0 vertices ∅)
     vertices.

Definition get_edge_weight (u v : Vertex) : M t EdgeWeight :=
  let* u_index := get_vertex_int u in
  let* v_index := get_vertex_int v in
  let* weight_ptr := read_cell u_index v_index in
  match weight_ptr with
  | Some edge =>
      λ g, match edge_weights g !! edge with
           | Some w => Ret w g
           | None => Undef
           end
  | None => throw Edge_does_not_exist
  end.

Definition add_vertex (v : Vertex) : M t unit :=
  λ g, if bool_decide (v ∈ vertices g) then Throw Vertex_is_already_in_graph g
       else
         let n_vertices := length (vertices g) in
         Ret tt (mk (directed g)
                    (((λ row, row ++ [None]) <$> adjacency_matrix g)
                       ++ [replicate n_vertices None])
                    (edge_weights g)
                    (<[v := n_vertices]> (vertex_indices g))
                    (vertices g ++ [v])).

(** [T a[n] = { x }]: the first element is [x], the others are
    value-initialised. With [n = 0] the array has no element for the
    initialiser, which is written past it: no array ([None]). *)
Definition array_init {A} (n : nat) (x dflt : A) : option (list A) :=
  match n with
  | 0 => None
  | S k => Some (x :: replicate k dflt)
  end.

(** [add_vertices], given the iteration order of its [unordered_set]. *)
Definition add_vertices (new_vertices : list Vertex) : M t unit :=
  λ g, if existsb (λ v, bool_decide (v ∈ vertices g)) new_vertices
       then Throw Vertex_is_already_in_graph g
       else
         let vertices' := vertices g ++ new_vertices in
         let n_vertices := length vertices' in
         let vertex_indices' := assign_indices n_vertices new_vertices (vertex_indices g) in
         let n_vertices := n_vertices + length new_vertices in
         match array_init (A:=cell) n_vertices None None with
         | None => Undef
         | Some new_edge_weights =>
             let adjacency_matrix' :=
               (λ row, row ++ new_edge_weights) <$> adjacency_matrix g in
             match array_init (A:=list cell) n_vertices (replicate n_vertices None) [] with
             | None => Undef
             | Some new_rows =>
                 Ret tt (mk (directed g)
                            (adjacency_matrix' ++ new_rows)
                            (edge_weights g)
                            vertex_indices'
                            vertices')
             end
         end.

Definition has_vertex (v : Vertex) : M t bool :=
  gets (λ g, bool_decide (v ∈ vertices g)).

(** The loop of [get_children] and [get_parents] from position [u_index],
    over the vertices from there on: [vertices[u_index]] joins the set when
    the cell is not [nullptr]. *)
Fixpoint scan_cells (cell_at : nat → M t cell) (u_index : nat) (vs : list Vertex)
    : M t (gset Vertex) :=
  match vs with
  | [] => ret ∅
  | x :: vs' =>
      let* c := cell_at u_index in
      let* rest := scan_cells cell_at (S u_index) vs' in
      ret (match c with Some _ => {[x]} ∪ rest | None => rest end)
  end.

Definition get_children (v : Vertex) : M t (gset Vertex) :=
  let* v_index := get_vertex_int v in
  let* vs := gets vertices in
  scan_cells (λ u_index, read_cell v_index u_index) 0 vs.

Definition get_parents (v : Vertex) : M t (gset Vertex) :=
  let* v_index := get_vertex_int v in
  let* vs := gets vertices in
  scan_cells (λ u_index, read_cell u_index v_index) 0 vs.

Definition erase_weight (edge : nat * nat) : M t unit :=
  modify (λ g, set_edge_weights (delete edge (edge_weights g)) g).

(** [adjacency_matrix[i].erase(begin() + v_index, begin() + v_index + 1)] *)
Definition erase_column (v_index i : nat) : M t unit :=
  λ g, match adjacency_matrix g !! i with
       | Some row =>
           if decide (v_index < length row) then
             Ret tt (set_adjacency_matrix
                       (<[i := erase_at v_index row]> (adjacency_matrix g)) g)
           else Undef
       | None => Undef
       end.

(** [vertices.erase(std::find(vertices.begin(), vertices.end(), v))] *)
Fixpoint erase_first (v : Vertex) (vs : list Vertex) : list Vertex :=
  match vs with
  | [] => []
  | x :: vs' => if decide (x = v) then vs' else x :: erase_first v vs'
  end.

Definition remove_vertex (v : Vertex) : M t unit :=
  let* v_index := get_vertex_int v in
  let* d := gets directed in
  let* _ :=
    (if d then
       let* children := get_children v in
       let* _ := for_each (elements children) (λ child,
                   let* neighbor_index := get_vertex_int child in
                   erase_weight (v_index, neighbor_index)) in
       let* parents := get_parents v in
       for_each (elements parents) (λ parent,
         let* neighbor_index := get_vertex_int parent in
         erase_weight (neighbor_index, v_index))
     else
       let* children := get_children v in
       for_each (elements children) (λ child,
         let* neighbor_index := get_vertex_int child in
         let* _ := erase_weight (v_index, neighbor_index) in
         erase_weight (neighbor_index, v_index))) in
  (* the row *)
  let* _ := (λ g, if decide (v_index < length (adjacency_matrix g)) then
                    Ret tt (set_adjacency_matrix (erase_at v_index (adjacency_matrix g)) g)
                  else Undef) in
  (* the column: [for ( int i = 0; i < vertices.size(); i++ )] *)
  let* vs := gets vertices in
  let* _ := for_each (seq 0 (length vs)) (erase_column v_index) in
  let* _ := modify (λ g, set_vertices (erase_first v (vertices g)) g) in
  modify (λ g, set_vertex_indices (delete v (vertex_indices g)) g).

Definition store_weight (edge : nat * nat) (weight : EdgeWeight) : M t unit :=
  modify (λ g, set_edge_weights (<[edge := weight]> (edge_weights g)) g).

Definition set_edge_weight (u v : Vertex) (weight : EdgeWeight) : M t unit :=
  let* u_index := get_vertex_int u in
  let* v_index := get_vertex_int v in
  let* _ := store_weight (u_index, v_index) weight in
  let* _ := write_cell u_index v_index (Some (u_index, v_index)) in
  let* d := gets directed in
  if negb d then
    let* _ := store_weight (v_index, u_index) weight in
    write_cell v_index u_index (Some (v_index, u_index))
  else ret tt.

(** In the first branch the function writes a line to [std::cerr] and
    returns. *)
Definition remove_edge (u v : Vertex) : M t unit :=
  let* u_index := get_vertex_int u in
  let* v_index := get_vertex_int v in
  let* c := read_cell u_index v_index in
  match c with
  | None => ret tt
  | Some _ =>
      let* _ := erase_weight (u_index, v_index) in
      let* _ := write_cell u_index v_index None in
      let* d := gets directed in
      if negb d then
        let* _ := erase_weight (v_index, u_index) in
        write_cell v_index u_index None
      else ret tt
  end.

Definition has_edge (u v : Vertex) : M t bool :=
  let* u_index := get_vertex_int u in
  let* v_index := get_vertex_int v in
  let* weight_ptr := read_cell u_index v_index in
  ret (bool_decide (is_Some weight_ptr)).

(** The shape the constructor builds: a square matrix of dimension |V|,
    and an index below |V| for every vertex. *)
Definition well_shaped (g : t) : Prop :=
  length (adjacency_matrix g) = length (vertices g) ∧
  (∀ row, row ∈ adjacency_matrix g → length row = length (vertices g)) ∧
  (∀ v, v ∈ vertices g → ∃ i, vertex_indices g !! v = Some i ∧ i < length (vertices g)).

(** A non-null cell (i, j) has an entry of [edge_weights] under (i, j), and
    the other way round. *)
Definition cells_match_store (g : t) : Prop :=
  ∀ i j c, cell_at g i j = Some c →
    (is_Some c ↔ is_Some (edge_weights g !! (i, j))).
End defs.
Arguments t Vertex {_ _} EdgeWeight.
End AdjacencyMatrixGraph.

(** ** Views of the representations *)

Section views.
Context `{Countable Vertex} {EdgeWeight : Type}.

(** Weighted list: the entry for [x] that a scan of the neighbour vector of
    [k] finds first. *)
Definition w_entry (g : AdjacencyListGraph.t Vertex EdgeWeight) (k x : Vertex)
    : option (Vertex * EdgeWeight) :=
  first_child x (default [] (AdjacencyListGraph.adjacency_list g !! k)).

(** Weighted list: a key of [adjacency_list] that is not a vertex holds no
    entry. *)
Definition w_keys_are_vertices (g : AdjacencyListGraph.t Vertex EdgeWeight) : Prop :=
  ∀ k x, k ∉ AdjacencyListGraph.vertices g → w_entry g k x = None.

(** Unweighted list, inside [add_edges]: [g] is the graph [g0] of before the
    call plus the edges of the local [added_edges] (and their mirrors when
    undirected); none of these was an edge of [g0], they are vertices'
    pairs, no pair is listed twice and, when undirected, no pair is listed
    together with its mirror. *)
Definition u_batch_state (g0 : AdjacencyListGraphBool.t Vertex)
    (added_edges : list (Vertex * Vertex)) (g : AdjacencyListGraphBool.t Vertex) : Prop :=
  AdjacencyListGraphBool.directed g = AdjacencyListGraphBool.directed g0 ∧
  AdjacencyListGraphBool.vertices g = AdjacencyListGraphBool.vertices g0 ∧
  AdjacencyListGraphBool.invariant g ∧
  (∀ k x, AdjacencyListGraphBool.edge g k x ↔
          AdjacencyListGraphBool.edge g0 k x ∨ (k, x) ∈ added_edges ∨
          (AdjacencyListGraphBool.directed g0 = false ∧ (x, k) ∈ added_edges)) ∧
  NoDup added_edges ∧
  (∀ a b, (a, b) ∈ added_edges →
          ¬ AdjacencyListGraphBool.edge g0 a b ∧
          (AdjacencyListGraphBool.directed g0 = false → (b, a) ∈ added_edges → a = b)).

(** Matrix: the shape of the constructor, every vertex indexed by its
    position in [vertices], every cell either null without an entry of
    [edge_weights] under its position or pointing at the entry under its
    position, and, in an undirected graph, equal weights under (i, j) and
    (j, i). *)
Definition tidy (g : AdjacencyMatrixGraph.t Vertex EdgeWeight) : Prop :=
  AdjacencyMatrixGraph.well_shaped g ∧
  NoDup (AdjacencyMatrixGraph.vertices g) ∧
  (∀ x i, AdjacencyMatrixGraph.vertices g !! i = Some x →
          AdjacencyMatrixGraph.vertex_indices g !! x = Some i) ∧
  (∀ i j c, AdjacencyMatrixGraph.cell_at g i j = Some c →
            c = match AdjacencyMatrixGraph.edge_weights g !! (i, j) with
                | Some _ => Some (i, j)
                | None => None
                end) ∧
  (AdjacencyMatrixGraph.directed g = false →
   ∀ i j, AdjacencyMatrixGraph.edge_weights g !! (i, j)
          = AdjacencyMatrixGraph.edge_weights g !! (j, i)).

(** Matrix: two states that differ in [edge_weights] only. *)
Definition m_same_shape (g g' : AdjacencyMatrixGraph.t Vertex EdgeWeight) : Prop :=
  AdjacencyMatrixGraph.directed g' = AdjacencyMatrixGraph.directed g
  ∧ AdjacencyMatrixGraph.adjacency_matrix g' = AdjacencyMatrixGraph.adjacency_matrix g
  ∧ AdjacencyMatrixGraph.vertex_indices g' = AdjacencyMatrixGraph.vertex_indices g
  ∧ AdjacencyMatrixGraph.vertices g' = AdjacencyMatrixGraph.vertices g.
End views.

(** ** Sample graphs

    The graphs on the vertices 1, 2, 3 at which the lemmas of the last part
    are run. *)

(** The state a call leaves behind ([s] itself where it is undefined). *)
Definition after {S A} (m : M S A) (s : S) : S := default s (state_of (m s)).

Definition weighted_graph (directed : bool) : AdjacencyListGraph.t Z Z :=
  AdjacencyListGraph.constructor directed {[1; 2; 3]}%Z.

Definition weighted_graph_with_edge (directed : bool) : AdjacencyListGraph.t Z Z :=
  after (AdjacencyListGraph.set_edge_weight 1 2 5)%Z (weighted_graph directed).

Definition weighted_graph_with_loop : AdjacencyListGraph.t Z Z :=
  after (AdjacencyListGraph.set_edge_weight 1 1 5)%Z (weighted_graph false).

Definition unweighted_graph (directed : bool) : AdjacencyListGraphBool.t Z :=
  AdjacencyListGraphBool.constructor directed {[1; 2; 3]}%Z.

Definition unweighted_graph_with_edges (directed : bool) : AdjacencyListGraphBool.t Z :=
  after (AdjacencyListGraphBool.add_edges [(1, 2); (3, 1)])%Z (unweighted_graph directed).

Definition matrix_graph (directed : bool) : AdjacencyMatrixGraph.t Z Z :=
  AdjacencyMatrixGraph.constructor directed [1; 2; 3]%Z.

Definition matrix_graph_with_edge (directed : bool) : AdjacencyMatrixGraph.t Z Z :=
  after (AdjacencyMatrixGraph.set_edge_weight 1 2 5)%Z (matrix_graph directed).

(** * Facts about the loops and folds *)

Section helpers.
Context `{Countable K} {A : Type}.
Implicit Types (l : list (K * A)) (m : gmap K A).

Lemma elem_of_keys_where (P : K → A → bool) m k :
  k ∈ keys_where P m ↔ ∃ x, m !! k = Some x ∧ P k x = true.
Proof.
  unfold keys_where.
  apply (map_fold_weak_ind (λ r m, k ∈ r ↔ ∃ x, m !! k = Some x ∧ P k x = true)).
  - setoid_rewrite lookup_empty. split; [set_solver | naive_solver].
  - intros i x m' r Hi IH. destruct (decide (i = k)) as [->|Hne].
    + rewrite lookup_insert_eq. destruct (P k x) eqn:HP.
      * split; [intros _; by exists x | intros _; apply elem_of_union_l; by apply elem_of_singleton].
      * rewrite IH, Hi. split; [by intros (? & ? & ?) | intros (? & ? & ?); congruence].
    + rewrite lookup_insert_ne by done. destruct (P i x); [|done].
      rewrite elem_of_union, elem_of_singleton, IH. naive_solver.
Qed.

Lemma lookup_set_fold_insert (d : A) m (X : gset K) k :
  set_fold (λ v al, <[v := d]> al) m X !! k
  = if decide (k ∈ X) then Some d else m !! k.
Proof.
  revert X. apply (set_fold_ind_L (λ r (Y : gset K), r !! k = if decide (k ∈ Y) then Some d else m !! k)).
  - by rewrite decide_False by set_solver.
  - intros x Y r Hx IH. destruct (decide (x = k)) as [->|Hne].
    + rewrite lookup_insert_eq. by rewrite decide_True by set_solver.
    + rewrite lookup_insert_ne, IH by done.
      destruct (decide (k ∈ Y)); [rewrite decide_True | rewrite decide_False]; set_solver.
Qed.

Lemma first_child_Some v l c : first_child v l = Some c → c.1 = v ∧ c ∈ l.
Proof.
  induction l as [|c' l IH]; simpl; [done|].
  destruct (decide (c'.1 = v)); intros ?; simplify_eq.
  - split; [done | left].
  - destruct IH; [done|]. split; [done | by right].
Qed.

Lemma first_child_is_Some v l : is_Some (first_child v l) ↔ v ∈ l.*1.
Proof.
  induction l as [|c l IH]; simpl.
  - split; [by intros [? ?] | by intros ?%elem_of_nil].
  - destruct (decide (c.1 = v)) as [<-|Hne].
    + split; [intros _; left | eauto].
    + rewrite IH, elem_of_cons. naive_solver.
Qed.

Lemma first_child_None v l : first_child v l = None ↔ v ∉ l.*1.
Proof. rewrite <-first_child_is_Some, eq_None_not_Some. done. Qed.

Lemma to_remove_lt v l : to_remove v l < length l ↔ v ∈ l.*1.
Proof.
  induction l as [|c l IH]; simpl.
  - split; [lia | by intros ?%elem_of_nil].
  - destruct (decide (c.1 = v)) as [<-|Hne].
    + split; [intros _; left | lia].
    + rewrite elem_of_cons, <-IH. split; [intros; right; lia | intros [?|?]; [congruence | lia]].
Qed.

Lemma first_child_app_r v l c :
  v ∉ l.*1 → c.1 = v → first_child v (l ++ [c]) = Some c.
Proof.
  induction l as [|c' l IH]; simpl; intros Hv Hc.
  - by rewrite decide_True.
  - rewrite decide_False by set_solver. apply IH; set_solver.
Qed.

Lemma erase_entry_spec v l :
  NoDup l.*1 →
  (v ∉ (erase_entry v l).*1) ∧ NoDup (erase_entry v l).*1 ∧ ((erase_entry v l).*1 ⊆ l.*1).
Proof.
  unfold erase_entry. induction l as [|c l IH]; intros Hnd.
  - simpl. split_and!; [apply not_elem_of_nil | apply NoDup_nil_2 | done].
  - rewrite fmap_cons in Hnd. apply NoDup_cons in Hnd as [Hc Hnd].
    destruct (IH Hnd) as (IH1 & IH2 & IH3). clear IH.
    cbn [to_remove length]. destruct (decide (c.1 = v)) as [<-|Hne].
    + rewrite decide_True by lia. unfold erase_at. simpl. rewrite drop_0.
      split_and!; [done | done | set_solver].
    + destruct (decide (to_remove v l < length l)).
      * rewrite decide_True by lia. unfold erase_at in *. simpl.
        split_and!; [set_solver | apply NoDup_cons; set_solver | set_solver].
      * rewrite decide_False by lia. simpl.
        split_and!; [set_solver | apply NoDup_cons; set_solver | set_solver].
Qed.

Lemma replaced_spec v (w : A) l :
  NoDup l.*1 →
  NoDup (erase_entry v l ++ [(v, w)]).*1 ∧
  first_child v (erase_entry v l ++ [(v, w)]) = Some (v, w).
Proof.
  intros (H1 & H2 & H3)%(erase_entry_spec v). split.
  - rewrite fmap_app. apply NoDup_app. split_and!; [done | | apply NoDup_singleton].
    simpl. intros x Hx ->%list_elem_of_singleton. done.
  - by apply first_child_app_r.
Qed.
End helpers.

(** * The weighted adjacency list *)

Ltac unfold_M :=
  unfold bind, ret, throw, undef, gets, modify, try_catch in *.

Section common.
Context `{Countable Vertex}.
Import AdjacencyListGraphCommon.
Implicit Types (vertices : gset Vertex).

Lemma check_absent_spec (l : list Vertex) vertices :
  (check_absent l vertices = Ret tt vertices ∧ ∀ v, v ∈ l → v ∉ vertices) ∨
  (check_absent l vertices = Throw Vertex_is_already_in_graph vertices
   ∧ ∃ v, v ∈ l ∧ v ∈ vertices).
Proof.
  induction l as [|x l IH]; simpl.
  - left. split; [done|]. by intros v ?%elem_of_nil.
  - unfold bind, has_vertex, gets, throw. case_bool_decide as Hx; simpl.
    + right. split; [done|]. exists x. split; [left | done].
    + destruct IH as [[-> IH]|[-> (v & Hv & Hin)]].
      * left. split; [done|]. intros v [->|?]%elem_of_cons; auto.
      * right. split; [done|]. exists v. split; [by right | done].
Qed.

Lemma common_add_vertices_spec (new_vertices : gset Vertex) vertices :
  (add_vertices new_vertices vertices = Ret tt (new_vertices ∪ vertices)
   ∧ new_vertices ## vertices) ∨
  (add_vertices new_vertices vertices = Throw Vertex_is_already_in_graph vertices
   ∧ ∃ v, v ∈ new_vertices ∧ v ∈ vertices).
Proof.
  unfold add_vertices, bind.
  destruct (check_absent_spec (elements new_vertices) vertices)
    as [[-> Hall]|[-> (v & Hv & Hin)]].
  - left. split; [done|]. intros v Hv. apply Hall. by apply elem_of_elements.
  - right. split; [done|]. exists v. split; [by apply elem_of_elements | done].
Qed.
End common.

Section weighted_list.
Context `{Countable Vertex} {EdgeWeight : Type}.
Import AdjacencyListGraph.
Implicit Types (g : t Vertex EdgeWeight) (u v : Vertex) (w : EdgeWeight).

Lemma w_has_vertex_eq v g :
  has_vertex v g = Ret (bool_decide (v ∈ vertices g)) g.
Proof. by destruct g. Qed.

Lemma w_subscript_known u g l :
  adjacency_list g !! u = Some l → subscript u g = Ret l g.
Proof. unfold subscript. by intros ->. Qed.

Lemma w_subscript_invariant u g l g' :
  invariant g → subscript u g = Ret l g' →
  invariant g' ∧ adjacency_list g' !! u = Some l ∧ vertices g' = vertices g
  ∧ directed g' = directed g.
Proof.
  intros [Hdom Hnd]. unfold subscript.
  destruct (adjacency_list g !! u) as [l'|] eqn:Hu; intros ?; simplify_eq.
  - done.
  - simpl. rewrite lookup_insert_eq. split_and!; try done. split; simpl.
    + intros v Hv. destruct (decide (u = v)) as [->|].
      * by rewrite lookup_insert_eq.
      * rewrite lookup_insert_ne by done. auto.
    + intros k l. destruct (decide (u = k)) as [->|].
      * rewrite lookup_insert_eq. intros ?; simplify_eq. apply NoDup_nil_2.
      * rewrite lookup_insert_ne by done. eauto.
Qed.

Lemma w_assign_invariant u l g :
  invariant g → NoDup l.*1 →
  invariant (set_adjacency_list (<[u := l]> (adjacency_list g)) g).
Proof.
  intros [Hdom Hnd] Hl. split; simpl.
  - intros v Hv. destruct (decide (u = v)) as [->|].
    + by rewrite lookup_insert_eq.
    + rewrite lookup_insert_ne by done. auto.
  - intros k l'. destruct (decide (u = k)) as [->|].
    + rewrite lookup_insert_eq. by intros ?; simplify_eq.
    + rewrite lookup_insert_ne by done. eauto.
Qed.

Lemma w_replace_entry_spec u v w g :
  invariant g →
  ∃ g', replace_entry u v w g = Ret tt g' ∧ invariant g'
    ∧ vertices g' = vertices g ∧ directed g' = directed g
    ∧ (∃ l, adjacency_list g' !! u = Some l ∧ first_child v l = Some (v, w))
    ∧ (∀ x, x ≠ u → adjacency_list g' !! x = adjacency_list g !! x).
Proof.
  intros Hinv. unfold replace_entry, bind.
  destruct (subscript u g) as [l g1| |] eqn:Hsub;
    [|unfold subscript in Hsub; by case_match..].
  destruct (w_subscript_invariant _ _ _ _ Hinv Hsub) as (Hinv1 & Hl & Hvs & Hd).
  destruct (replaced_spec v w l) as [Hnd Hfirst]; [by eapply Hinv1|].
  eexists. split; [reflexivity|]. split_and!.
  - by apply w_assign_invariant.
  - done.
  - done.
  - eexists. simpl. by rewrite lookup_insert_eq.
  - intros x Hx. simpl. rewrite lookup_insert_ne by done.
    unfold subscript in Hsub. case_match; simplify_eq; [done|].
    simpl. by rewrite lookup_insert_ne.
Qed.

Lemma w_constructor_invariant d (vs : gset Vertex) :
  invariant (constructor (EdgeWeight:=EdgeWeight) d vs).
Proof.
  split; simpl.
  - intros v Hv. rewrite lookup_set_fold_insert, decide_True by done. eauto.
  - intros k l. rewrite lookup_set_fold_insert.
    case_decide; [|by rewrite lookup_empty].
    intros ?; simplify_eq. apply NoDup_nil_2.
Qed.

Lemma w_set_edge_weight_spec u v w g :
  invariant g → u ∈ vertices g → v ∈ vertices g →
  ∃ g', set_edge_weight u v w g = Ret tt g' ∧ invariant g'
    ∧ vertices g' = vertices g ∧ directed g' = directed g
    ∧ (∃ l, adjacency_list g' !! u = Some l ∧ first_child v l = Some (v, w)).
Proof.
  intros Hinv Hu Hv. unfold set_edge_weight, bind. rewrite !w_has_vertex_eq.
  rewrite !bool_decide_eq_true_2 by done. simpl.
  destruct (w_replace_entry_spec u v w g Hinv) as (g1 & -> & Hinv1 & Hvs1 & Hd1 & Hl1 & _).
  unfold gets. destruct (directed g1) eqn:Hdir; simpl.
  - exists g1. by rewrite Hdir.
  - destruct (w_replace_entry_spec v u w g1 Hinv1)
      as (g2 & -> & Hinv2 & Hvs2 & Hd2 & Hl2 & Hother).
    exists g2. split_and!; try congruence.
    destruct (decide (u = v)) as [->|Hne]; [done|].
    rewrite Hother by done. done.
Qed.

Lemma w_set_edge_weight_unknown u v w g :
  u ∉ vertices g ∨ v ∉ vertices g →
  set_edge_weight u v w g = Throw Vertex_not_in_graph g.
Proof.
  intros Huv. unfold set_edge_weight, bind. rewrite !w_has_vertex_eq.
  destruct Huv; [rewrite (bool_decide_eq_false_2 (u ∈ _)) by done
                |rewrite (bool_decide_eq_false_2 (v ∈ _)) by done];
    simpl; [done | by rewrite orb_true_r].
Qed.

Lemma w_has_edge_after u v g l :
  u ∈ vertices g → v ∈ vertices g →
  adjacency_list g !! u = Some l →
  has_edge u v g = Ret (bool_decide (is_Some (first_child v l))) g.
Proof.
  intros Hu Hv Hl. unfold has_edge, bind. rewrite !w_has_vertex_eq.
  rewrite !bool_decide_eq_true_2 by done. simpl.
  by rewrite (w_subscript_known _ _ _ Hl).
Qed.

Lemma w_get_edge_weight_after u v g l c :
  adjacency_list g !! u = Some l → first_child v l = Some c →
  get_edge_weight u v g = Ret c.2 g.
Proof.
  intros Hl Hc. unfold get_edge_weight, bind.
  by rewrite (w_subscript_known _ _ _ Hl), Hc.
Qed.

Lemma w_subscript_total u g :
  ∃ l g', subscript u g = Ret l g'.
Proof. unfold subscript. case_match; eauto. Qed.

Lemma w_invariant_vertices g (vs : gset Vertex) :
  invariant g → vs ⊆ vertices g → invariant (set_vertices vs g).
Proof. intros [Hdom Hnd] Hvs. split; simpl; [|done]. intros v Hv. apply Hdom. set_solver. Qed.

Lemma w_erase_at_NoDup v (l : list (Vertex * EdgeWeight)) :
  NoDup l.*1 → to_remove v l < length l → NoDup (erase_at (to_remove v l) l).*1.
Proof.
  intros Hnd Hlt. destruct (erase_entry_spec v l Hnd) as (_ & Hnd' & _).
  unfold erase_entry in Hnd'. by rewrite decide_True in Hnd'.
Qed.

Lemma w_exec_invariant c g g' :
  invariant g → exec c g = Some g' → invariant g'.
Proof.
  intros Hinv. destruct c as [u v|v|vs|v|u v w|u v|u v|v|v|v]; cbn [exec].
  - (* get_edge_weight *)
    unfold get_edge_weight, bind.
    destruct (w_subscript_total u g) as (l & g1 & Hs). rewrite Hs.
    destruct (w_subscript_invariant _ _ _ _ Hinv Hs) as (Hinv1 & _).
    unfold_M. case_match; simpl; intros ?; by simplify_eq.
  - (* add_vertex *)
    unfold add_vertex, bind, common, AdjacencyListGraphCommon.add_vertex, bind,
      AdjacencyListGraphCommon.has_vertex. unfold_M.
    case_bool_decide; simpl; intros ?; simplify_eq.
    + by apply w_invariant_vertices.
    + destruct Hinv as [Hdom Hnd]. split; simpl.
      * intros x Hx. destruct (decide (v = x)) as [->|].
        -- by rewrite lookup_insert_eq.
        -- rewrite lookup_insert_ne by done. apply Hdom. set_solver.
      * intros k l. destruct (decide (v = k)) as [->|].
        -- rewrite lookup_insert_eq. intros ?; simplify_eq. apply NoDup_nil_2.
        -- rewrite lookup_insert_ne by done. eauto.
  - (* add_vertices *)
    unfold add_vertices, bind, common.
    destruct (common_add_vertices_spec vs (vertices g)) as [[-> _]|[-> _]]; simpl.
    + unfold_M. intros ?; simplify_eq. destruct Hinv as [Hdom Hnd]. split; simpl.
      * intros x Hx. rewrite lookup_set_fold_insert. case_decide; [eauto|].
        apply Hdom. set_solver.
      * intros k l. rewrite lookup_set_fold_insert. case_decide; [|eauto].
        intros ?; simplify_eq. apply NoDup_nil_2.
    + intros ?; simplify_eq. by apply w_invariant_vertices.
  - (* remove_vertex *)
    unfold remove_vertex, bind, common, AdjacencyListGraphCommon.remove_vertex, bind,
      AdjacencyListGraphCommon.has_vertex. unfold_M.
    case_bool_decide; simpl; intros ?; simplify_eq.
    + destruct Hinv as [Hdom Hnd]. split; simpl.
      * intros x [Hx Hxv%not_elem_of_singleton]%elem_of_difference.
        rewrite lookup_fmap, lookup_delete_ne by done.
        destruct (Hdom x Hx) as [l ->]. by eexists.
      * intros k l. rewrite lookup_fmap. intros Hl.
        apply fmap_Some in Hl as (l0 & Hl0 & ->). simpl.
        apply lookup_delete_Some in Hl0 as [_ Hl0]. eauto.
    + by apply w_invariant_vertices.
  - (* set_edge_weight *)
    destruct (decide (u ∈ vertices g ∧ v ∈ vertices g)) as [[Hu Hv]|Hn].
    + destruct (w_set_edge_weight_spec u v w g Hinv Hu Hv) as (g1 & -> & Hinv1 & _).
      simpl. by intros ?; simplify_eq.
    + rewrite w_set_edge_weight_unknown.
      * simpl. by intros ?; simplify_eq.
      * apply not_and_l in Hn. done.
  - (* remove_edge *)
    unfold remove_edge, bind. rewrite !w_has_vertex_eq.
    destruct (negb _ || negb _); [unfold_M; simpl; by intros ?; simplify_eq|].
    destruct (w_subscript_total u g) as (l & g1 & Hs). rewrite Hs.
    destruct (w_subscript_invariant _ _ _ _ Hinv Hs) as (Hinv1 & Hl1 & _).
    case_decide; [|unfold_M; simpl; by intros ?; simplify_eq].
    unfold assign at 1. unfold_M.
    assert (Hinv2 : invariant (set_adjacency_list
               (<[u:=erase_at (to_remove v l) l]> (adjacency_list g1)) g1)).
    { apply w_assign_invariant; [done|]. apply w_erase_at_NoDup; [|done].
      by eapply Hinv1. }
    simpl. destruct (directed g1); simpl; [by intros ?; simplify_eq|].
    match goal with |- context [subscript v ?g2] =>
      destruct (w_subscript_total v g2) as (l' & g3 & Hs');
      destruct (w_subscript_invariant _ _ _ _ Hinv2 Hs') as (Hinv3 & Hl3 & _)
    end.
    rewrite Hs'. case_decide; [|done]. unfold assign. unfold_M. simpl.
    intros ?; simplify_eq. apply w_assign_invariant; [done|].
    apply w_erase_at_NoDup; [|done]. by eapply Hinv3.
  - (* has_edge *)
    unfold has_edge, bind. rewrite !w_has_vertex_eq.
    destruct (negb _ || negb _); [unfold_M; simpl; by intros ?; simplify_eq|].
    destruct (w_subscript_total u g) as (l & g1 & Hs). rewrite Hs.
    destruct (w_subscript_invariant _ _ _ _ Hinv Hs) as (Hinv1 & _).
    unfold_M. simpl. by intros ?; simplify_eq.
  - (* has_vertex *)
    rewrite w_has_vertex_eq. simpl. by intros ?; simplify_eq.
  - (* get_children *)
    unfold get_children, bind. rewrite !w_has_vertex_eq.
    destruct (negb _); [unfold_M; simpl; by intros ?; simplify_eq|].
    destruct (w_subscript_total v g) as (l & g1 & Hs). rewrite Hs.
    destruct (w_subscript_invariant _ _ _ _ Hinv Hs) as (Hinv1 & _).
    unfold_M. simpl. by intros ?; simplify_eq.
  - (* get_parents *)
    unfold get_parents, bind. rewrite !w_has_vertex_eq.
    destruct (negb _); unfold_M; simpl; by intros ?; simplify_eq.
Qed.

Lemma w_reachable_invariant g : reachable g → invariant g.
Proof.
  induction 1 as [d vs|c g g' _ IH Hexec].
  - apply w_constructor_invariant.
  - by eapply w_exec_invariant.
Qed.

(** *** The queries of the weighted backend *)

Lemma w_has_edge_unknown u v g :
  u ∉ vertices g ∨ v ∉ vertices g → has_edge u v g = Ret false g.
Proof.
  intros Huv. unfold has_edge, bind. rewrite !w_has_vertex_eq.
  destruct Huv; [rewrite (bool_decide_eq_false_2 (u ∈ _)) by done
                |rewrite (bool_decide_eq_false_2 (v ∈ _)) by done];
    simpl; [done | by rewrite orb_true_r].
Qed.

Lemma w_has_edge_pure u v g :
  invariant g → ∃ b, has_edge u v g = Ret b g.
Proof.
  intros [Hdom _]. destruct (decide (u ∈ vertices g ∧ v ∈ vertices g)) as [[Hu Hv]|Hn].
  - destruct (Hdom u Hu) as [l Hl]. rewrite (w_has_edge_after u v g l); eauto.
  - rewrite w_has_edge_unknown; [eauto|]. by apply not_and_l in Hn.
Qed.

Lemma w_get_children_spec v g :
  invariant g →
  (v ∈ vertices g ∧ ∃ l, adjacency_list g !! v = Some l
                       ∧ get_children v g = Ret (list_to_set l.*1) g) ∨
  ((v ∉ vertices g) ∧ get_children v g = Throw Vertex_not_in_graph g).
Proof.
  intros [Hdom _]. unfold get_children, bind. rewrite w_has_vertex_eq.
  case_bool_decide as Hv; simpl.
  - left. split; [done|]. destruct (Hdom v Hv) as [l Hl]. exists l.
    by rewrite (w_subscript_known _ _ _ Hl).
  - by right.
Qed.

Lemma w_get_parents_spec v g :
  (v ∈ vertices g ∧ ∃ ps : gset Vertex, get_parents v g = Ret ps g ∧
     ∀ x, x ∈ ps ↔ x ≠ v ∧ ∃ l, adjacency_list g !! x = Some l ∧ v ∈ l.*1) ∨
  ((v ∉ vertices g) ∧ get_parents v g = Throw Vertex_not_in_graph g).
Proof.
  unfold get_parents, bind. rewrite w_has_vertex_eq.
  case_bool_decide as Hv; simpl; [left | by right].
  split; [done|]. eexists. split; [reflexivity|].
  intros x. rewrite elem_of_keys_where. split.
  - intros (l & Hl & HP). case_decide; [done|].
    apply bool_decide_eq_true_1, first_child_is_Some in HP. eauto.
  - intros (Hx & l & Hl & Hin). exists l. split; [done|].
    rewrite decide_False by done. by apply bool_decide_eq_true_2, first_child_is_Some.
Qed.

Lemma w_remove_edge_absent u v g :
  invariant g → u ∈ vertices g → v ∈ vertices g →
  has_edge u v g = Ret false g →
  remove_edge u v g = Throw Remove_edge_that_doesnt_exist g.
Proof.
  intros [Hdom _] Hu Hv. destruct (Hdom u Hu) as [l Hl].
  rewrite (w_has_edge_after u v g l) by done. intros Hedge.
  assert (Hnone : ¬ is_Some (first_child v l)).
  { intros Hs. apply (bool_decide_eq_true_2 _) in Hs. congruence. }
  unfold remove_edge, bind. rewrite !w_has_vertex_eq.
  rewrite !bool_decide_eq_true_2 by done. simpl.
  rewrite (w_subscript_known _ _ _ Hl).
  rewrite decide_False; [done|].
  rewrite to_remove_lt, <-first_child_is_Some. done.
Qed.
End weighted_list.

(** * The unweighted adjacency list *)

Ltac edge_cases :=
  unfold AdjacencyListGraphBool.edge, AdjacencyListGraphBool.stored; simpl;
  rewrite ?lookup_insert;
  repeat (case_decide; simplify_eq; simpl);
  set_solver.

Section unweighted_list.
Context `{Countable Vertex}.
Import AdjacencyListGraphBool.
Implicit Types (g : t Vertex) (u v k x : Vertex) (s : gset Vertex).

Lemma u_has_vertex_eq v g :
  has_vertex v g = Ret (bool_decide (v ∈ vertices g)) g.
Proof. by destruct g. Qed.

Lemma u_stored_insert u s g k :
  stored (set_adjacency_list (<[u := s]> (adjacency_list g)) g) k
  = if decide (k = u) then s else stored g k.
Proof.
  unfold stored. simpl. case_decide as Hk.
  - subst. by rewrite lookup_insert_eq.
  - by rewrite lookup_insert_ne.
Qed.

Lemma u_subscript_eq u g :
  subscript u g = Ret (stored g u)
                      (set_adjacency_list (<[u := stored g u]> (adjacency_list g)) g).
Proof.
  unfold subscript, stored. destruct (adjacency_list g !! u) as [s|] eqn:Hu; simpl.
  - rewrite insert_id by done. by destruct g.
  - done.
Qed.

Lemma u_subscript_known u g s :
  adjacency_list g !! u = Some s → subscript u g = Ret s g.
Proof. unfold subscript. by intros ->. Qed.

Lemma u_insert_child_eq u v g :
  insert_child u v g
  = Ret tt (set_adjacency_list (<[u := {[v]} ∪ stored g u]> (adjacency_list g)) g).
Proof.
  unfold insert_child, bind. rewrite u_subscript_eq. unfold assign, modify.
  unfold set_adjacency_list. simpl. by rewrite insert_insert_eq.
Qed.

Lemma u_erase_child_eq u v g :
  erase_child u v g
  = Ret tt (set_adjacency_list (<[u := stored g u ∖ {[v]}]> (adjacency_list g)) g).
Proof.
  unfold erase_child, bind. rewrite u_subscript_eq. unfold assign, modify.
  unfold set_adjacency_list. simpl. by rewrite insert_insert_eq.
Qed.

Lemma u_has_edge_eq u v g :
  has_edge u v g
  = Ret (bool_decide (v ∈ stored g u))
        (set_adjacency_list (<[u := stored g u]> (adjacency_list g)) g).
Proof. unfold has_edge, bind. by rewrite u_subscript_eq. Qed.

(** Touching a key changes nothing a client can see. *)
Lemma u_touch_equivalent u g :
  equivalent g (set_adjacency_list (<[u := stored g u]> (adjacency_list g)) g).
Proof.
  split_and!; [done..|]. intros k x. unfold edge. rewrite u_stored_insert.
  case_decide; by subst.
Qed.

Lemma u_touch_invariant u g :
  invariant g →
  invariant (set_adjacency_list (<[u := stored g u]> (adjacency_list g)) g).
Proof.
  intros (Hdom & Hends & Hsym).
  assert (Hedge : ∀ k x,
    edge (set_adjacency_list (<[u := stored g u]> (adjacency_list g)) g) k x ↔ edge g k x)
    by apply u_touch_equivalent.
  split_and!.
  - intros v Hv. simpl. destruct (decide (u = v)) as [->|].
    + by rewrite lookup_insert_eq.
    + rewrite lookup_insert_ne by done. auto.
  - intros k x ?%Hedge. simpl. auto.
  - simpl. intros Hd k x ?%Hedge. apply Hedge. auto.
Qed.

(** The two insertions that [set_edge_weight] (with [true]) and [add_edge]
    end with. *)
Lemma u_link_spec u v g :
  ∃ g', (let* _ := insert_child u v in
         let* d := gets directed in
         if negb d then insert_child v u else ret tt) g = Ret tt g'
    ∧ directed g' = directed g ∧ vertices g' = vertices g
    ∧ (∀ k, is_Some (adjacency_list g !! k) → is_Some (adjacency_list g' !! k))
    ∧ (∀ k x, edge g' k x ↔
         edge g k x ∨ (k = u ∧ x = v) ∨ (directed g = false ∧ k = v ∧ x = u)).
Proof.
  unfold bind. rewrite u_insert_child_eq. unfold gets. simpl.
  destruct (directed g) eqn:Hd; simpl.
  - eexists. split; [reflexivity|]. split_and!; [done..| |].
    + intros k Hk. simpl. destruct (decide (u = k)) as [->|].
      * by rewrite lookup_insert_eq.
      * by rewrite lookup_insert_ne.
    + intros k x. edge_cases.
  - rewrite u_insert_child_eq. eexists. split; [reflexivity|].
    split_and!; [done..| |].
    + intros k Hk. simpl. destruct (decide (v = k)) as [->|].
      * by rewrite lookup_insert_eq.
      * rewrite lookup_insert_ne by done. destruct (decide (u = k)) as [->|].
        -- by rewrite lookup_insert_eq.
        -- by rewrite lookup_insert_ne.
    + intros k x. edge_cases.
Qed.

Lemma u_link_invariant u v g g' :
  invariant g → u ∈ vertices g → v ∈ vertices g →
  directed g' = directed g → vertices g' = vertices g →
  (∀ k, is_Some (adjacency_list g !! k) → is_Some (adjacency_list g' !! k)) →
  (∀ k x, edge g' k x ↔
     edge g k x ∨ (k = u ∧ x = v) ∨ (directed g = false ∧ k = v ∧ x = u)) →
  invariant g'.
Proof.
  intros (Hdom & Hends & Hsym) Hu Hv Hd Hvs Hmono Hedge. split_and!.
  - intros x Hx. apply Hmono, Hdom. congruence.
  - intros k x [Hkx|[[-> ->]|(_ & -> & ->)]]%Hedge; rewrite Hvs; auto.
  - rewrite Hd. intros Hund k x [Hkx|[[-> ->]|(_ & -> & ->)]]%Hedge; apply Hedge; auto.
Qed.

Lemma u_unlink_invariant u v g g' :
  invariant g →
  directed g' = directed g → vertices g' = vertices g →
  (∀ k, is_Some (adjacency_list g !! k) → is_Some (adjacency_list g' !! k)) →
  (∀ k x, edge g' k x ↔
     edge g k x ∧ ¬ (k = u ∧ x = v) ∧ ¬ (directed g = false ∧ k = v ∧ x = u)) →
  invariant g'.
Proof.
  intros (Hdom & Hends & Hsym) Hd Hvs Hmono Hedge. split_and!.
  - intros x Hx. apply Hmono, Hdom. congruence.
  - intros k x (Hkx & _)%Hedge. rewrite Hvs. auto.
  - rewrite Hd. intros Hund k x (Hkx & H1 & H2)%Hedge. apply Hedge.
    split_and!; [auto | |]; intros ?; [apply H2 | apply H1]; naive_solver.
Qed.

Lemma u_remove_edge_spec u v g :
  (edge g u v ∧ ∃ g', remove_edge u v g = Ret tt g'
     ∧ directed g' = directed g ∧ vertices g' = vertices g
     ∧ (∀ k, is_Some (adjacency_list g !! k) → is_Some (adjacency_list g' !! k))
     ∧ (∀ k x, edge g' k x ↔
          edge g k x ∧ ¬ (k = u ∧ x = v) ∧ ¬ (directed g = false ∧ k = v ∧ x = u)))
  ∨ (¬ edge g u v ∧
     remove_edge u v g
     = Throw Remove_edge_that_doesnt_exist
             (set_adjacency_list (<[u := stored g u]> (adjacency_list g)) g)).
Proof.
  unfold remove_edge, bind. rewrite u_has_edge_eq.
  case_bool_decide as Huv; simpl; [left | by right].
  split; [done|]. rewrite u_erase_child_eq. unfold gets. simpl.
  destruct (directed g) eqn:Hd; simpl.
  - eexists. split; [reflexivity|]. split_and!; [done..| |].
    + intros k Hk. simpl. destruct (decide (u = k)) as [->|].
      * by rewrite lookup_insert_eq.
      * by rewrite !lookup_insert_ne.
    + intros k x. edge_cases.
  - rewrite u_erase_child_eq. eexists. split; [reflexivity|].
    split_and!; [done..| |].
    + intros k Hk. simpl. destruct (decide (v = k)) as [->|].
      * by rewrite lookup_insert_eq.
      * rewrite lookup_insert_ne by done. destruct (decide (u = k)) as [->|].
        -- by rewrite lookup_insert_eq.
        -- by rewrite !lookup_insert_ne.
    + intros k x. edge_cases.
Qed.

Lemma u_remove_edge_invariant u v g g' :
  invariant g → state_of (remove_edge u v g) = Some g' → invariant g'.
Proof.
  intros Hinv.
  destruct (u_remove_edge_spec u v g)
    as [(_ & g1 & -> & Hd & Hvs & Hmono & Hedge)|[_ ->]]; simpl; intros ?; simplify_eq.
  - by apply (u_unlink_invariant u v g g').
  - by apply u_touch_invariant.
Qed.

Lemma u_set_edge_weight_unknown u v (w : bool) g :
  u ∉ vertices g ∨ v ∉ vertices g →
  set_edge_weight u v w g = Throw Vertex_not_in_graph g.
Proof.
  intros Huv. unfold set_edge_weight, bind. rewrite !u_has_vertex_eq.
  destruct Huv; [rewrite (bool_decide_eq_false_2 (u ∈ _)) by done
                |rewrite (bool_decide_eq_false_2 (v ∈ _)) by done];
    simpl; [done | by rewrite orb_true_r].
Qed.

Lemma u_set_edge_weight_spec u v (w : bool) g :
  u ∈ vertices g → v ∈ vertices g →
  ∃ g', set_edge_weight u v w g = Ret tt g'
    ∧ directed g' = directed g ∧ vertices g' = vertices g
    ∧ (edge g' u v ↔ w = true)
    ∧ (invariant g → invariant g').
Proof.
  intros Hu Hv. unfold set_edge_weight. unfold bind at 1 2.
  rewrite !u_has_vertex_eq. rewrite !bool_decide_eq_true_2 by done. simpl.
  destruct w.
  - destruct (u_link_spec u v g) as (g' & -> & Hd & Hvs & Hmono & Hedge).
    exists g'. split_and!; [done..| |].
    + rewrite Hedge. naive_solver.
    + intros Hinv. by apply (u_link_invariant u v g g').
  - unfold try_catch.
    destruct (u_remove_edge_spec u v g)
      as [(_ & g1 & -> & Hd & Hvs & Hmono & Hedge)|[Hn ->]].
    + exists g1. split_and!; [done..| |].
      * rewrite Hedge. naive_solver.
      * intros Hinv. by apply (u_unlink_invariant u v g g1).
    + eexists. split; [reflexivity|]. split_and!; [done..| |].
      * split; [|done]. intros Huv. by apply u_touch_equivalent in Huv.
      * apply u_touch_invariant.
Qed.

Lemma u_add_edge_invariant u v g g' :
  invariant g → state_of (add_edge u v g) = Some g' → invariant g'.
Proof.
  intros Hinv. unfold add_edge. unfold bind at 1. rewrite u_has_edge_eq.
  pose proof (u_touch_invariant u g Hinv) as Hinv1.
  case_bool_decide; [simpl; by intros ?; simplify_eq|].
  unfold bind at 1 2. rewrite !u_has_vertex_eq.
  destruct (negb _ || negb _) eqn:Hguard; [simpl; by intros ?; simplify_eq|].
  apply orb_false_elim in Hguard as [Hu%negb_false_iff%bool_decide_eq_true_1
                                     Hv%negb_false_iff%bool_decide_eq_true_1].
  match goal with |- context [bind _ _ ?g1] =>
    destruct (u_link_spec u v g1) as (g2 & Heq & Hd & Hvs & Hmono & Hedge) end.
  rewrite Heq. simpl. intros ?; simplify_eq.
  by eapply (u_link_invariant u v _ g').
Qed.

Lemma u_roll_back_invariant (added : list (Vertex * Vertex)) g g' :
  invariant g → state_of (roll_back added g) = Some g' → invariant g'.
Proof.
  revert g. induction added as [|edge added IH]; intros g Hinv; simpl.
  - by intros ?; simplify_eq.
  - unfold bind. destruct (remove_edge edge.1 edge.2 g) as [[] g1|e g1|] eqn:Hrm; simpl.
    + apply IH. eapply u_remove_edge_invariant; [done|]. by rewrite Hrm.
    + intros ?; simplify_eq. eapply u_remove_edge_invariant; [done|]. by rewrite Hrm.
    + done.
Qed.

Lemma u_add_edges_from_invariant (edges added : list (Vertex * Vertex)) g g' :
  invariant g → state_of (add_edges_from edges added g) = Some g' → invariant g'.
Proof.
  revert added g. induction edges as [|edge edges IH]; intros added g Hinv; simpl.
  - by intros ?; simplify_eq.
  - destruct (add_edge edge.1 edge.2 g) as [[] g1|e g1|] eqn:Hadd; [| |done].
    + apply IH. eapply u_add_edge_invariant; [done|]. by rewrite Hadd.
    + assert (invariant g1) as Hinv1.
      { eapply u_add_edge_invariant; [done|]. by rewrite Hadd. }
      unfold bind, throw.
      destruct (roll_back added g1) as [[] g2|e2 g2|] eqn:Hrb; simpl; [| |done];
        intros ?; simplify_eq; eapply u_roll_back_invariant; try done; by rewrite Hrb.
Qed.

Lemma u_set_vertices_id g : set_vertices (vertices g) g = g.
Proof. by destruct g. Qed.

Lemma u_constructor_invariant d (vs : gset Vertex) : invariant (constructor d vs).
Proof.
  assert (Hno : ∀ k x, ¬ edge (constructor d vs) k x).
  { intros k x. unfold edge, stored. simpl. rewrite lookup_set_fold_insert.
    case_decide; [|rewrite lookup_empty]; simpl; set_solver. }
  split_and!.
  - intros v Hv. simpl. rewrite lookup_set_fold_insert, decide_True by done. eauto.
  - intros k x ?%Hno. done.
  - intros _ k x ?%Hno. done.
Qed.

Lemma u_remove_vertex_spec v g :
  (v ∈ vertices g ∧ ∃ g', remove_vertex v g = Ret tt g'
     ∧ directed g' = directed g ∧ vertices g' = vertices g ∖ {[v]}
     ∧ adjacency_list g' !! v = None
     ∧ (∀ k, k ≠ v → is_Some (adjacency_list g !! k) → is_Some (adjacency_list g' !! k))
     ∧ (∀ k x, edge g' k x ↔ edge g k x ∧ k ≠ v ∧ x ≠ v))
  ∨ ((v ∉ vertices g) ∧ remove_vertex v g = Throw Vertex_not_in_graph g).
Proof.
  unfold remove_vertex, bind, common, AdjacencyListGraphCommon.remove_vertex, bind,
    AdjacencyListGraphCommon.has_vertex, gets, modify, throw.
  case_bool_decide as Hv; simpl.
  - left. split; [done|]. eexists. split; [reflexivity|]. simpl.
    split_and!; [done..| | |].
    + by rewrite lookup_fmap, lookup_delete_eq.
    + intros k Hk [s Hs]. rewrite lookup_fmap, lookup_delete_ne, Hs by done. by eexists.
    + intros k x. unfold edge, stored. simpl. rewrite lookup_fmap.
      destruct (decide (k = v)) as [->|Hk].
      * rewrite lookup_delete_eq. simpl. set_solver.
      * rewrite lookup_delete_ne by done.
        destruct (adjacency_list g !! k); simpl; set_solver.
  - right. split; [done|]. by rewrite u_set_vertices_id.
Qed.

Lemma u_exec_invariant c g g' :
  invariant g → exec c g = Some g' → invariant g'.
Proof.
  intros Hinv.
  destruct c as [u v|v|vs|v|u v w|u v|edges|u v|u v|v|v|v]; cbn [exec].
  - (* get_edge_weight *)
    unfold get_edge_weight, bind. rewrite !u_has_vertex_eq.
    destruct (negb _ || negb _); [simpl; by intros ?; simplify_eq|].
    rewrite u_has_edge_eq. simpl. intros ?; simplify_eq. by apply u_touch_invariant.
  - (* add_vertex *)
    unfold add_vertex, bind, common, AdjacencyListGraphCommon.add_vertex, bind,
      AdjacencyListGraphCommon.has_vertex, gets, modify, throw, assign, modify.
    destruct Hinv as (Hdom & Hends & Hsym).
    case_bool_decide as Hv; simpl; intros ?; simplify_eq.
    { rewrite u_set_vertices_id. done. }
    assert (Hedge : ∀ k x,
      edge (mk (directed g) ({[v]} ∪ vertices g) (<[v:=∅]> (adjacency_list g))) k x
      → edge g k x).
    { intros k x. unfold edge, stored. simpl. rewrite lookup_insert.
      case_decide; simpl; set_solver. }
    split_and!; simpl.
    + intros x Hx. rewrite lookup_insert. case_decide; [eauto|]. apply Hdom. set_solver.
    + intros k x Hkx%Hedge. apply Hends in Hkx. set_solver.
    + intros Hd k x Hkx%Hedge. pose proof (Hsym Hd _ _ Hkx) as Hxk.
      revert Hxk. unfold edge, stored. simpl. rewrite lookup_insert.
      case_decide; [|done]. subst. apply Hends in Hkx. set_solver.
  - (* add_vertices *)
    unfold add_vertices, bind, common.
    destruct (common_add_vertices_spec vs (vertices g)) as [[-> Hdisj]|[-> _]]; simpl.
    2: { intros ?; simplify_eq. by rewrite u_set_vertices_id. }
    unfold modify. intros ?; simplify_eq. destruct Hinv as (Hdom & Hends & Hsym).
    assert (Hedge : ∀ k x,
      edge (set_adjacency_list
              (set_fold (λ v al, <[v:=∅]> al) (adjacency_list (set_vertices (vs ∪ vertices g) g)) vs)
              (set_vertices (vs ∪ vertices g) g)) k x
      ↔ edge g k x ∧ k ∉ vs).
    { intros k x. unfold edge, stored. simpl. rewrite lookup_set_fold_insert.
      case_decide; simpl; set_solver. }
    split_and!.
    + intros x Hx. simpl. rewrite lookup_set_fold_insert. case_decide; [eauto|].
      apply Hdom. simpl in Hx. set_solver.
    + intros k x [Hkx _]%Hedge. apply Hends in Hkx. simpl. set_solver.
    + simpl. intros Hd k x [Hkx Hk]%Hedge. apply Hedge. split; [by apply Hsym|].
      apply Hends in Hkx. set_solver.
  - (* remove_vertex *)
    destruct (u_remove_vertex_spec v g)
      as [(Hv & g1 & -> & Hd & Hvs & _ & Hmono & Hedge)|[_ ->]];
      simpl; intros ?; simplify_eq; [|done].
    destruct Hinv as (Hdom & Hends & Hsym). split_and!.
    + intros x. rewrite Hvs. intros [Hx Hne%not_elem_of_singleton]%elem_of_difference.
      apply Hmono; auto.
    + intros k x (Hkx & Hk & Hx)%Hedge. apply Hends in Hkx. rewrite Hvs. set_solver.
    + rewrite Hd. intros Hund k x (Hkx & Hk & Hx)%Hedge. apply Hedge. auto.
  - (* set_edge_weight *)
    destruct (decide (u ∈ vertices g ∧ v ∈ vertices g)) as [[Hu Hv]|Hn].
    + destruct (u_set_edge_weight_spec u v w g Hu Hv) as (g1 & -> & _ & _ & _ & Hpres).
      simpl. intros ?; simplify_eq. auto.
    + rewrite u_set_edge_weight_unknown by (by apply not_and_l in Hn).
      simpl. by intros ?; simplify_eq.
  - (* add_edge *) by apply u_add_edge_invariant.
  - (* add_edges *) by apply u_add_edges_from_invariant.
  - (* remove_edge *) by apply u_remove_edge_invariant.
  - (* has_edge *)
    rewrite u_has_edge_eq. simpl. intros ?; simplify_eq. by apply u_touch_invariant.
  - (* has_vertex *)
    rewrite u_has_vertex_eq. simpl. by intros ?; simplify_eq.
  - (* get_children *)
    unfold get_children, bind. rewrite u_has_vertex_eq.
    destruct (negb _); [simpl; by intros ?; simplify_eq|].
    rewrite u_subscript_eq. simpl. intros ?; simplify_eq. by apply u_touch_invariant.
  - (* get_parents *)
    unfold get_parents, bind. rewrite u_has_vertex_eq.
    destruct (negb _); simpl; by intros ?; simplify_eq.
Qed.

Lemma u_reachable_invariant g : reachable g → invariant g.
Proof.
  induction 1 as [d vs|c g g' _ IH Hexec].
  - apply u_constructor_invariant.
  - by eapply u_exec_invariant.
Qed.

(** *** The queries of the unweighted backend *)

Lemma u_touch_known u g s :
  adjacency_list g !! u = Some s →
  set_adjacency_list (<[u := stored g u]> (adjacency_list g)) g = g.
Proof.
  intros Hs. unfold stored. rewrite Hs. simpl. rewrite insert_id by done. by destruct g.
Qed.

Lemma u_has_edge_known u v g :
  invariant g → u ∈ vertices g →
  has_edge u v g = Ret (bool_decide (v ∈ stored g u)) g.
Proof.
  intros (Hdom & _) Hu. destruct (Hdom u Hu) as [s Hs].
  rewrite u_has_edge_eq. by rewrite (u_touch_known u g s).
Qed.

Lemma u_has_edge_unknown u v g :
  invariant g → u ∉ vertices g ∨ v ∉ vertices g →
  ∃ g', has_edge u v g = Ret false g'.
Proof.
  intros (_ & Hends & _) Huv. rewrite u_has_edge_eq. eexists.
  rewrite bool_decide_eq_false_2; [done|].
  intros Hedge. apply (Hends u v) in Hedge. naive_solver.
Qed.

Lemma u_get_edge_weight_unknown u v g :
  u ∉ vertices g ∨ v ∉ vertices g →
  get_edge_weight u v g = Throw Vertex_not_in_graph g.
Proof.
  intros Huv. unfold get_edge_weight, bind. rewrite !u_has_vertex_eq.
  destruct Huv; [rewrite (bool_decide_eq_false_2 (u ∈ _)) by done
                |rewrite (bool_decide_eq_false_2 (v ∈ _)) by done];
    simpl; [done | by rewrite orb_true_r].
Qed.

Lemma u_get_edge_weight_known u v g :
  invariant g → u ∈ vertices g → v ∈ vertices g →
  get_edge_weight u v g = Ret (bool_decide (v ∈ stored g u)) g.
Proof.
  intros Hinv Hu Hv. unfold get_edge_weight, bind. rewrite !u_has_vertex_eq.
  rewrite !bool_decide_eq_true_2 by done. simpl. by apply u_has_edge_known.
Qed.


Lemma u_get_children_eq v g :
  v ∈ vertices g →
  get_children v g
  = Ret (stored g v) (set_adjacency_list (<[v := stored g v]> (adjacency_list g)) g).
Proof.
  intros Hv. unfold get_children, bind. rewrite u_has_vertex_eq.
  rewrite bool_decide_eq_true_2 by done. simpl. apply u_subscript_eq.
Qed.

Lemma u_get_children_known v g :
  invariant g → v ∈ vertices g → get_children v g = Ret (stored g v) g.
Proof.
  intros (Hdom & _) Hv. destruct (Hdom v Hv) as [s Hs].
  rewrite u_get_children_eq by done. by rewrite (u_touch_known v g s).
Qed.


Lemma u_get_parents_known v g :
  v ∈ vertices g →
  ∃ ps : gset Vertex, get_parents v g = Ret ps g ∧ ∀ x, x ∈ ps ↔ edge g x v.
Proof.
  intros Hv. unfold get_parents, bind. rewrite u_has_vertex_eq.
  rewrite bool_decide_eq_true_2 by done. simpl. eexists. split; [reflexivity|].
  intros x. rewrite elem_of_keys_where. unfold edge, stored. split.
  - intros (s & -> & Hin). simpl. by apply bool_decide_eq_true_1 in Hin.
  - destruct (adjacency_list g !! x) as [s|]; simpl; [|set_solver].
    intros Hin. exists s. split; [done|]. by apply bool_decide_eq_true_2.
Qed.

Lemma u_children_are_parents v g :
  invariant g → directed g = false → v ∈ vertices g →
  ∃ s, get_children v g = Ret s g ∧ get_parents v g = Ret s g.
Proof.
  intros Hinv Hd Hv. destruct (u_get_parents_known v g Hv) as (ps & Hps & Hin).
  exists (stored g v). split; [by apply u_get_children_known|].
  rewrite Hps. f_equal. apply set_eq. intros x. rewrite Hin.
  destruct Hinv as (_ & _ & Hsym). split; apply (Hsym Hd).
Qed.


End unweighted_list.

(** * The adjacency matrix *)

Section matrix.
Context `{Countable Vertex} {EdgeWeight : Type}.
Import AdjacencyMatrixGraph.
Implicit Types (g : t Vertex EdgeWeight) (u v : Vertex) (c : cell) (w : EdgeWeight).

Lemma m_assign_indices_other i (l : list Vertex) (vi : gmap Vertex nat) v :
  v ∉ l → assign_indices i l vi !! v = vi !! v.
Proof.
  revert i vi. induction l as [|x l IH]; intros i vi Hv; simpl; [done|].
  apply not_elem_of_cons in Hv as [Hx Hl]. rewrite IH by done.
  by rewrite lookup_insert_ne.
Qed.

Lemma m_assign_indices_range i (l : list Vertex) (vi : gmap Vertex nat) v :
  v ∈ l → ∃ k, assign_indices i l vi !! v = Some k ∧ i ≤ k < i + length l.
Proof.
  revert i vi. induction l as [|x l IH]; intros i vi Hv; simpl.
  - by apply elem_of_nil in Hv.
  - destruct (decide (v ∈ l)) as [Hl|Hl].
    + destruct (IH (S i) (<[x:=i]> vi) Hl) as (k & Hk & Hrange).
      exists k. split; [done | lia].
    + apply elem_of_cons in Hv as [->|?]; [|done].
      exists i. rewrite m_assign_indices_other by done.
      rewrite lookup_insert_eq. split; [done | lia].
Qed.

Lemma m_constructor_well_shaped d (vs : list Vertex) :
  well_shaped (constructor (EdgeWeight:=EdgeWeight) d vs).
Proof.
  split_and!; simpl.
  - by rewrite length_replicate.
  - intros row [-> _]%elem_of_replicate. by rewrite length_replicate.
  - intros v Hv. destruct (m_assign_indices_range 0 vs ∅ v Hv) as (k & Hk & Hrange).
    exists k. split; [done | lia].
Qed.

Lemma m_get_vertex_int_unknown v g :
  v ∉ vertices g → get_vertex_int v g = Throw Vertex_not_in_graph g.
Proof. intros Hv. unfold get_vertex_int. by rewrite bool_decide_eq_false_2. Qed.

Lemma m_get_vertex_int_known v g :
  well_shaped g → v ∈ vertices g →
  ∃ i, get_vertex_int v g = Ret i g ∧ vertex_indices g !! v = Some i
       ∧ i < length (vertices g).
Proof.
  intros (_ & _ & Hidx) Hv. destruct (Hidx v Hv) as (i & Hi & Hlt).
  exists i. unfold get_vertex_int. rewrite bool_decide_eq_true_2 by done.
  by rewrite Hi.
Qed.

Lemma m_row_in_range i g :
  well_shaped g → i < length (vertices g) →
  ∃ row, adjacency_matrix g !! i = Some row ∧ length row = length (vertices g).
Proof.
  intros (Hrows & Hcols & _) Hi.
  destruct (lookup_lt_is_Some_2 (adjacency_matrix g) i) as [row Hrow]; [lia|].
  exists row. split; [done|]. eapply Hcols, list_elem_of_lookup_2. done.
Qed.

Lemma m_read_cell_in_range i j g :
  well_shaped g → i < length (vertices g) → j < length (vertices g) →
  ∃ c, read_cell i j g = Ret c g.
Proof.
  intros Hws Hi Hj. destruct (m_row_in_range i g Hws Hi) as (row & Hrow & Hlen).
  destruct (lookup_lt_is_Some_2 row j) as [c Hc]; [lia|].
  exists c. unfold read_cell, cell_at. by rewrite Hrow, Hc.
Qed.

Lemma m_well_shaped_weights g (ew : gmap (nat * nat) EdgeWeight) :
  well_shaped g → well_shaped (set_edge_weights ew g).
Proof. done. Qed.

Lemma m_write_cell_in_range i j c g :
  well_shaped g → i < length (vertices g) → j < length (vertices g) →
  ∃ g', write_cell i j c g = Ret tt g' ∧ well_shaped g'
    ∧ (∀ i' j', cell_at g' i' j'
                = if decide ((i', j') = (i, j)) then Some c else cell_at g i' j')
    ∧ directed g' = directed g ∧ vertices g' = vertices g
    ∧ vertex_indices g' = vertex_indices g ∧ edge_weights g' = edge_weights g.
Proof.
  intros Hws Hi Hj. destruct (m_row_in_range i g Hws Hi) as (row & Hrow & Hlen).
  unfold write_cell. rewrite Hrow, decide_True by lia.
  eexists. split; [reflexivity|]. destruct Hws as (Hrows & Hcols & Hidx).
  split_and!; try done.
  - split_and!; simpl.
    + by rewrite length_insert.
    + intros row' (k & Hk)%list_elem_of_lookup_1.
      apply list_lookup_insert_Some in Hk as [(-> & <- & _)|[_ Hk]].
      * by rewrite length_insert.
      * eapply Hcols, list_elem_of_lookup_2. done.
    + done.
  - intros i' j'. unfold cell_at. simpl. case_decide as Hij.
    + simplify_eq. rewrite list_lookup_insert_eq by lia.
      by rewrite list_lookup_insert_eq by lia.
    + destruct (decide (i' = i)) as [->|Hne].
      * rewrite list_lookup_insert_eq by lia. rewrite Hrow.
        rewrite list_lookup_insert_ne; [done | congruence].
      * by rewrite list_lookup_insert_ne.
Qed.

Lemma m_well_shaped_same g g' :
  well_shaped g → adjacency_matrix g' = adjacency_matrix g →
  vertices g' = vertices g → vertex_indices g' = vertex_indices g →
  well_shaped g'.
Proof. unfold well_shaped. by intros ? -> -> ->. Qed.

Lemma m_get_vertex_int_index v g i :
  v ∈ vertices g → vertex_indices g !! v = Some i → get_vertex_int v g = Ret i g.
Proof.
  intros Hv Hi. unfold get_vertex_int. by rewrite bool_decide_eq_true_2, Hi.
Qed.

Lemma m_has_edge_cell u v g i j c :
  u ∈ vertices g → v ∈ vertices g →
  vertex_indices g !! u = Some i → vertex_indices g !! v = Some j →
  cell_at g i j = Some c →
  has_edge u v g = Ret (bool_decide (is_Some c)) g.
Proof.
  intros Hu Hv Hi Hj Hc. unfold has_edge, bind.
  rewrite (m_get_vertex_int_index u g i), (m_get_vertex_int_index v g j) by done.
  unfold read_cell. by rewrite Hc.
Qed.

Lemma m_get_edge_weight_cell u v g i j edge w :
  u ∈ vertices g → v ∈ vertices g →
  vertex_indices g !! u = Some i → vertex_indices g !! v = Some j →
  cell_at g i j = Some (Some edge) → edge_weights g !! edge = Some w →
  get_edge_weight u v g = Ret w g.
Proof.
  intros Hu Hv Hi Hj Hc Hw. unfold get_edge_weight, bind.
  rewrite (m_get_vertex_int_index u g i), (m_get_vertex_int_index v g j) by done.
  unfold read_cell. by rewrite Hc, Hw.
Qed.

Lemma m_set_edge_weight_spec u v w g :
  well_shaped g → u ∈ vertices g → v ∈ vertices g →
  ∃ g', set_edge_weight u v w g = Ret tt g' ∧ well_shaped g'
    ∧ vertices g' = vertices g
    ∧ has_edge u v g' = Ret true g'
    ∧ get_edge_weight u v g' = Ret w g'.
Proof.
  intros Hws Hu Hv.
  destruct (m_get_vertex_int_known u g Hws Hu) as (i & Hgi & Hi & Hilt).
  destruct (m_get_vertex_int_known v g Hws Hv) as (j & Hgj & Hj & Hjlt).
  unfold set_edge_weight, bind. rewrite Hgi, Hgj.
  unfold store_weight at 1. unfold modify.
  set (g1 := set_edge_weights (<[(i, j):=w]> (edge_weights g)) g).
  assert (Hws1 : well_shaped g1) by done.
  destruct (m_write_cell_in_range i j (Some (i, j)) g1 Hws1 Hilt Hjlt)
    as (g2 & -> & Hws2 & Hcell2 & Hd2 & Hvs2 & Hvi2 & Hew2).
  unfold gets. destruct (directed g2) eqn:Hdir; simpl.
  - assert (Hcell : cell_at g2 i j = Some (Some (i, j)))
      by (by rewrite Hcell2, decide_True).
    assert (Hweight : edge_weights g2 !! (i, j) = Some w)
      by (rewrite Hew2; apply lookup_insert_eq).
    assert (Hvs : vertices g2 = vertices g) by (by rewrite Hvs2).
    assert (Hvi : vertex_indices g2 = vertex_indices g) by (by rewrite Hvi2).
    exists g2. split_and!; [done..| |].
    + by rewrite (m_has_edge_cell u v g2 i j (Some (i, j)))
        by first [done | congruence].
    + apply (m_get_edge_weight_cell u v g2 i j (i, j)); first [done | congruence].
  - unfold store_weight, modify.
    set (g3 := set_edge_weights (<[(j, i):=w]> (edge_weights g2)) g2).
    assert (Hws3 : well_shaped g3) by done.
    assert (Hilt3 : i < length (vertices g3)) by (simpl; by rewrite Hvs2).
    assert (Hjlt3 : j < length (vertices g3)) by (simpl; by rewrite Hvs2).
    destruct (m_write_cell_in_range j i (Some (j, i)) g3 Hws3 Hjlt3 Hilt3)
      as (g4 & -> & Hws4 & Hcell4 & Hd4 & Hvs4 & Hvi4 & Hew4).
    assert (Hcell : cell_at g4 i j = Some (Some (i, j))).
    { rewrite Hcell4. case_decide; [by simplify_eq|].
      change (cell_at g3 i j) with (cell_at g2 i j). by rewrite Hcell2, decide_True. }
    assert (Hweight : edge_weights g4 !! (i, j) = Some w).
    { rewrite Hew4. simpl. rewrite lookup_insert. case_decide; [done|].
      rewrite Hew2. apply lookup_insert_eq. }
    assert (Hvs : vertices g4 = vertices g) by (rewrite Hvs4; simpl; by rewrite Hvs2).
    assert (Hvi : vertex_indices g4 = vertex_indices g)
      by (rewrite Hvi4; simpl; by rewrite Hvi2).
    exists g4. split_and!; [done..| |].
    + by rewrite (m_has_edge_cell u v g4 i j (Some (i, j)))
        by first [done | congruence].
    + apply (m_get_edge_weight_cell u v g4 i j (i, j)); first [done | congruence].
Qed.

Lemma m_has_edge_unknown u v g :
  u ∉ vertices g → has_edge u v g = Throw Vertex_not_in_graph g.
Proof.
  intros Hu. unfold has_edge, bind. by rewrite m_get_vertex_int_unknown.
Qed.








Lemma m_add_vertices_duplicate (new_vertices : list Vertex) g :
  (∃ v, v ∈ new_vertices ∧ v ∈ vertices g) →
  add_vertices new_vertices g = Throw Vertex_is_already_in_graph g.
Proof.
  intros (v & Hnew & Hv). unfold add_vertices.
  destruct (existsb _ _) eqn:Hex; [done|].
  assert (existsb (λ v, bool_decide (v ∈ vertices g)) new_vertices = true) as Htrue.
  { apply existsb_exists. exists v. split; [by apply list_elem_of_In|].
    by apply bool_decide_eq_true_2. }
  congruence.
Qed.

Lemma m_add_vertices_no_duplicate (new_vertices : list Vertex) g :
  (∀ v, v ∈ new_vertices → v ∉ vertices g) →
  existsb (λ v, bool_decide (v ∈ vertices g)) new_vertices = false.
Proof.
  intros Hfresh. destruct (existsb _ _) eqn:Hex; [|done].
  apply existsb_exists in Hex as (v & Hnew%list_elem_of_In & Hv%bool_decide_eq_true_1).
  by destruct (Hfresh v).
Qed.

Lemma m_add_vertices_fresh (new_vertices : list Vertex) g :
  (∀ v, v ∈ new_vertices → v ∉ vertices g) →
  vertices g ≠ [] ∨ new_vertices ≠ [] →
  ∃ g', add_vertices new_vertices g = Ret tt g'
        ∧ vertices g' = vertices g ++ new_vertices.
Proof.
  intros Hfresh Hsome. unfold add_vertices.
  rewrite m_add_vertices_no_duplicate by done.
  destruct (length (vertices g ++ new_vertices) + length new_vertices) as [|n] eqn:Hn.
  - rewrite length_app in Hn.
    destruct Hsome as [Hne|Hne]; [destruct (vertices g) | destruct new_vertices];
      first [done | simpl in Hn; lia].
  - simpl. by eexists.
Qed.

Lemma m_add_vertices_nothing g :
  vertices g = [] → add_vertices [] g = Undef.
Proof. intros Hvs. unfold add_vertices. by rewrite Hvs. Qed.

Lemma m_add_vertices_returned (new_vertices : list Vertex) g g' :
  add_vertices new_vertices g = Ret tt g' →
  vertices g' = vertices g ++ new_vertices
  ∧ (∀ v, v ∈ new_vertices → v ∉ vertices g).
Proof.
  unfold add_vertices. intros Hret.
  destruct (existsb _ _) eqn:Hex; [done|].
  split.
  - destruct (length (vertices g ++ new_vertices) + length new_vertices);
      simpl in Hret; by simplify_eq.
  - intros v Hv Hin.
    assert (existsb (λ v, bool_decide (v ∈ vertices g)) new_vertices = true) as Htrue.
    { apply existsb_exists. exists v. split; [by apply list_elem_of_In|].
      by apply bool_decide_eq_true_2. }
    congruence.
Qed.

Lemma m_add_vertex_fresh v g :
  v ∉ vertices g →
  add_vertex v g
  = Ret tt (mk (directed g)
               (((λ row, row ++ [None]) <$> adjacency_matrix g)
                  ++ [replicate (length (vertices g)) None])
               (edge_weights g)
               (<[v := length (vertices g)]> (vertex_indices g))
               (vertices g ++ [v])).
Proof. intros Hv. unfold add_vertex. by rewrite bool_decide_eq_false_2. Qed.
End matrix.

(** * The properties of the specification *)

Section add_vertices.
Context `{Countable Vertex} {EdgeWeight : Type}.

Lemma w_set_vertices_id (g : AdjacencyListGraph.t Vertex EdgeWeight) :
  AdjacencyListGraph.set_vertices (AdjacencyListGraph.vertices g) g = g.
Proof. by destruct g. Qed.

Lemma w_add_vertices_spec (new_vertices : gset Vertex)
    (g : AdjacencyListGraph.t Vertex EdgeWeight) :
  ((∃ v, v ∈ new_vertices ∧ v ∈ AdjacencyListGraph.vertices g) ∧
   AdjacencyListGraph.add_vertices new_vertices g = Throw Vertex_is_already_in_graph g)
  ∨
  (new_vertices ## AdjacencyListGraph.vertices g ∧
   ∃ g', AdjacencyListGraph.add_vertices new_vertices g = Ret tt g' ∧
         AdjacencyListGraph.vertices g' = new_vertices ∪ AdjacencyListGraph.vertices g).
Proof.
  unfold AdjacencyListGraph.add_vertices, bind, AdjacencyListGraph.common.
  destruct (common_add_vertices_spec new_vertices (AdjacencyListGraph.vertices g))
    as [[-> Hdisj]|[-> Hdup]]; simpl.
  - right. split; [done|]. by eexists.
  - left. split; [done|]. by rewrite w_set_vertices_id.
Qed.

Lemma u_add_vertices_spec (new_vertices : gset Vertex)
    (g : AdjacencyListGraphBool.t Vertex) :
  ((∃ v, v ∈ new_vertices ∧ v ∈ AdjacencyListGraphBool.vertices g) ∧
   AdjacencyListGraphBool.add_vertices new_vertices g
   = Throw Vertex_is_already_in_graph g)
  ∨
  (new_vertices ## AdjacencyListGraphBool.vertices g ∧
   ∃ g', AdjacencyListGraphBool.add_vertices new_vertices g = Ret tt g' ∧
         AdjacencyListGraphBool.vertices g'
         = new_vertices ∪ AdjacencyListGraphBool.vertices g).
Proof.
  unfold AdjacencyListGraphBool.add_vertices, bind, AdjacencyListGraphBool.common.
  destruct (common_add_vertices_spec new_vertices (AdjacencyListGraphBool.vertices g))
    as [[-> Hdisj]|[-> Hdup]]; simpl.
  - right. split; [done|]. by eexists.
  - left. split; [done|]. by rewrite u_set_vertices_id.
Qed.
End add_vertices.

Section what_holds_where.
Context `{Countable Vertex} {EdgeWeight : Type}.

(** [remove_vertex] of the weighted backend drops the vertex and its own
    neighbour vector, and leaves every other vector as it was. *)
Lemma w_remove_vertex_eq (g : AdjacencyListGraph.t Vertex EdgeWeight) v :
  v ∈ AdjacencyListGraph.vertices g →
  AdjacencyListGraph.remove_vertex v g
  = Ret tt (AdjacencyListGraph.mk (AdjacencyListGraph.directed g)
              (AdjacencyListGraph.vertices g ∖ {[v]})
              (delete v (AdjacencyListGraph.adjacency_list g))).
Proof.
  intros Hv. unfold AdjacencyListGraph.remove_vertex, bind, AdjacencyListGraph.common,
    AdjacencyListGraphCommon.remove_vertex, bind, AdjacencyListGraphCommon.has_vertex,
    gets, modify.
  rewrite bool_decide_eq_true_2 by done. simpl.
  unfold AdjacencyListGraph.set_adjacency_list. simpl. f_equal. f_equal.
  apply map_eq. intros k. rewrite lookup_fmap.
  by destruct (delete v (AdjacencyListGraph.adjacency_list g) !! k).
Qed.

(** [has_edge] of the weighted backend always returns. *)
Lemma w_has_edge_returns (g : AdjacencyListGraph.t Vertex EdgeWeight) u v :
  ∃ b g', AdjacencyListGraph.has_edge u v g = Ret b g'.
Proof.
  unfold AdjacencyListGraph.has_edge, bind. rewrite !w_has_vertex_eq.
  destruct (negb _ || negb _); [by eexists _, _|].
  destruct (w_subscript_total u g) as (l & g' & ->). by eexists _, _.
Qed.

(** [has_edge] of the unweighted backend always returns, and returns false
    when an end is not a vertex. *)
Lemma u_has_edge_returns (g : AdjacencyListGraphBool.t Vertex) u v :
  AdjacencyListGraphBool.reachable g →
  ∃ b g', AdjacencyListGraphBool.has_edge u v g = Ret b g' ∧
          (u ∉ AdjacencyListGraphBool.vertices g ∨ v ∉ AdjacencyListGraphBool.vertices g
           → b = false).
Proof.
  intros Hinv%u_reachable_invariant. rewrite u_has_edge_eq. eexists _, _.
  split; [done|]. intros Huv.
  destruct (u_has_edge_unknown u v g Hinv Huv) as (g' & Heq).
  rewrite u_has_edge_eq in Heq. by injection Heq.
Qed.

(** [remove_vertex] of the unweighted backend removes the vertex from every
    neighbour set. *)
Lemma u_remove_vertex_cascades (g : AdjacencyListGraphBool.t Vertex) v :
  v ∈ AdjacencyListGraphBool.vertices g →
  ∃ g', AdjacencyListGraphBool.remove_vertex v g = Ret tt g'
    ∧ AdjacencyListGraphBool.has_vertex v g' = Ret false g'
    ∧ ∀ x, ¬ AdjacencyListGraphBool.edge g' x v ∧ ¬ AdjacencyListGraphBool.edge g' v x.
Proof.
  intros Hv. destruct (u_remove_vertex_spec v g)
    as [(_ & g' & Heq & _ & Hvs & _ & _ & Hedge)|[? _]]; [|done].
  exists g'. split_and!; [done| |].
  - rewrite u_has_vertex_eq, bool_decide_eq_false_2; [done|]. rewrite Hvs. set_solver.
  - intros x. rewrite !Hedge. naive_solver.
Qed.

(** In an undirected graph of the unweighted backend [get_children] and
    [get_parents] agree, loops included. *)
Lemma u_undirected_children_parents (g : AdjacencyListGraphBool.t Vertex) v :
  AdjacencyListGraphBool.reachable g →
  AdjacencyListGraphBool.directed g = false →
  v ∈ AdjacencyListGraphBool.vertices g →
  ∃ s, AdjacencyListGraphBool.get_children v g = Ret s g
       ∧ AdjacencyListGraphBool.get_parents v g = Ret s g.
Proof. intros Hinv%u_reachable_invariant. by apply u_children_are_parents. Qed.
End what_holds_where.

Section claims.
Context `{Countable Vertex} {EdgeWeight : Type}.

(** C1 (as amended). After [set_edge_weight(u, v, w)] on vertices of the
    graph: in the weighted list backend and in a matrix of the shape the
    constructor builds, [has_edge(u, v)] is true and [get_edge_weight(u, v)]
    is [w]; in the unweighted list backend both [has_edge(u, v)] and
    [get_edge_weight(u, v)] are [w], so [false] removes the edge. *)
Theorem C1_set_edge_weight_then_query :
  (∀ (g : AdjacencyListGraph.t Vertex EdgeWeight) u v w,
     AdjacencyListGraph.reachable g →
     u ∈ AdjacencyListGraph.vertices g → v ∈ AdjacencyListGraph.vertices g →
     ∃ g', AdjacencyListGraph.set_edge_weight u v w g = Ret tt g'
           ∧ AdjacencyListGraph.has_edge u v g' = Ret true g'
           ∧ AdjacencyListGraph.get_edge_weight u v g' = Ret w g') ∧
  (∀ (g : AdjacencyListGraphBool.t Vertex) u v (w : bool),
     AdjacencyListGraphBool.reachable g →
     u ∈ AdjacencyListGraphBool.vertices g → v ∈ AdjacencyListGraphBool.vertices g →
     ∃ g', AdjacencyListGraphBool.set_edge_weight u v w g = Ret tt g'
           ∧ AdjacencyListGraphBool.has_edge u v g' = Ret w g'
           ∧ AdjacencyListGraphBool.get_edge_weight u v g' = Ret w g') ∧
  (∀ (g : AdjacencyMatrixGraph.t Vertex EdgeWeight) u v w,
     AdjacencyMatrixGraph.well_shaped g →
     u ∈ AdjacencyMatrixGraph.vertices g → v ∈ AdjacencyMatrixGraph.vertices g →
     ∃ g', AdjacencyMatrixGraph.set_edge_weight u v w g = Ret tt g'
           ∧ AdjacencyMatrixGraph.well_shaped g'
           ∧ AdjacencyMatrixGraph.has_edge u v g' = Ret true g'
           ∧ AdjacencyMatrixGraph.get_edge_weight u v g' = Ret w g').
Proof.
  split_and!.
  - intros g u v w Hinv%w_reachable_invariant Hu Hv.
    destruct (w_set_edge_weight_spec u v w g Hinv Hu Hv)
      as (g' & Hset & Hinv' & Hvs & _ & l & Hl & Hfirst).
    exists g'. split_and!; [done| |].
    + rewrite (w_has_edge_after u v g' l) by congruence.
      by rewrite Hfirst.
    + by rewrite (w_get_edge_weight_after u v g' l (v, w)).
  - intros g u v w Hinv%u_reachable_invariant Hu Hv.
    destruct (u_set_edge_weight_spec u v w g Hu Hv)
      as (g' & Hset & _ & Hvs & Hedge & Hinv').
    assert (bool_decide (v ∈ AdjacencyListGraphBool.stored g' u) = w) as Hw.
    { destruct w.
      - apply bool_decide_eq_true_2, Hedge. done.
      - apply bool_decide_eq_false_2. intros ?%Hedge. done. }
    exists g'. split_and!; [done| |].
    + rewrite u_has_edge_known by (auto; congruence). by rewrite Hw.
    + rewrite u_get_edge_weight_known by (auto; congruence). by rewrite Hw.
  - intros g u v w Hws Hu Hv.
    destruct (m_set_edge_weight_spec u v w g Hws Hu Hv) as (g' & ? & ? & _ & ? & ?).
    by exists g'.
Qed.

(** C3. [has_edge] of the matrix backend does not answer false for an
    unknown vertex: [get_vertex_int] throws "Vertex not in graph.". *)
Theorem C3_matrix_has_edge_throws (g : AdjacencyMatrixGraph.t Vertex EdgeWeight) u v :
  u ∉ AdjacencyMatrixGraph.vertices g →
  AdjacencyMatrixGraph.has_edge u v g = Throw Vertex_not_in_graph g.
Proof. apply m_has_edge_unknown. Qed.


(** C6. [add_vertex] of the matrix backend gives every old row one more
    empty cell, but the row it appends has as many cells as there were
    vertices before the call, one fewer than there are now: the matrix has
    no cell (n, n), and a query on it has undefined behaviour. *)
Theorem C6_add_vertex_new_row_short (g : AdjacencyMatrixGraph.t Vertex EdgeWeight) v :
  AdjacencyMatrixGraph.well_shaped g →
  v ∉ AdjacencyMatrixGraph.vertices g →
  let n := length (AdjacencyMatrixGraph.vertices g) in
  ∃ g', AdjacencyMatrixGraph.add_vertex v g = Ret tt g'
    ∧ length (AdjacencyMatrixGraph.vertices g') = S n
    ∧ length (AdjacencyMatrixGraph.adjacency_matrix g') = S n
    ∧ (∀ i row, i < n → AdjacencyMatrixGraph.adjacency_matrix g' !! i = Some row →
                length row = S n)
    ∧ AdjacencyMatrixGraph.adjacency_matrix g' !! n = Some (replicate n None)
    ∧ AdjacencyMatrixGraph.cell_at g' n n = None
    ∧ ¬ AdjacencyMatrixGraph.well_shaped g'
    ∧ AdjacencyMatrixGraph.has_edge v v g' = Undef.
Proof.
  intros (Hrows & Hcols & Hidx) Hv. cbv zeta. rewrite m_add_vertex_fresh by done.
  eexists. split; [reflexivity|]. simpl.
  unfold AdjacencyMatrixGraph.cell_at, AdjacencyMatrixGraph.cell in *.
  set (n := length (AdjacencyMatrixGraph.vertices g)) in *.
  assert (Hlast : (((λ row : list (option (nat * nat)), row ++ [None])
                     <$> AdjacencyMatrixGraph.adjacency_matrix g)
                   ++ [replicate n None]) !! n
                  = Some (replicate n (None : option (nat * nat)))).
  { rewrite lookup_app_r by (rewrite length_fmap; lia).
    by rewrite length_fmap, Hrows, Nat.sub_diag. }
  split_and!.
  - rewrite length_app. simpl. lia.
  - rewrite length_app, length_fmap. simpl. lia.
  - intros i row Hi. rewrite lookup_app_l by (rewrite length_fmap; lia).
    rewrite list_lookup_fmap. intros Hrow.
    apply fmap_Some in Hrow as (row0 & Hrow0 & ->).
    rewrite length_app. simpl. rewrite (Hcols row0); [lia|].
    by eapply list_elem_of_lookup_2.
  - done.
  - unfold AdjacencyMatrixGraph.cell_at. simpl. rewrite Hlast.
    apply lookup_replicate_None. lia.
  - intros (_ & Hcols' & _). simpl in Hcols'.
    specialize (Hcols' (replicate n None)). rewrite length_replicate in Hcols'.
    rewrite length_app in Hcols'. simpl in Hcols'.
    assert (n = n + 1); [|lia]. apply Hcols'.
    apply elem_of_app. right. by apply list_elem_of_singleton.
  - unfold AdjacencyMatrixGraph.has_edge, bind, AdjacencyMatrixGraph.get_vertex_int.
    simpl. rewrite bool_decide_eq_true_2 by (apply elem_of_app; right; left).
    rewrite lookup_insert_eq. simpl.
    rewrite bool_decide_eq_true_2 by (apply elem_of_app; right; left).
    rewrite lookup_insert_eq. unfold AdjacencyMatrixGraph.read_cell,
      AdjacencyMatrixGraph.cell_at, AdjacencyMatrixGraph.cell. simpl. rewrite Hlast.
    assert (replicate n (None : option (nat * nat)) !! n = None) as ->
      by (apply lookup_replicate_None; lia).
    done.
Qed.

(** C8. [add_vertices(S)] in each backend: when some vertex of [S] is in
    the graph the call throws "Vertex is already in graph." and the graph
    is as before the call; whenever it returns, every vertex of [S] is in
    the graph. It does return when no vertex of [S] is in the graph, but
    for one case in the matrix backend: with no vertex in the graph and
    none in [S], the two arrays of [add_vertices] have length 0 and their
    initialisers write past them. *)
Theorem C8_add_vertices_all_or_nothing :
  (∀ (g : AdjacencyListGraph.t Vertex EdgeWeight) (new_vertices : gset Vertex),
     ((∃ v, v ∈ new_vertices ∧ v ∈ AdjacencyListGraph.vertices g) →
      AdjacencyListGraph.add_vertices new_vertices g
      = Throw Vertex_is_already_in_graph g) ∧
     ((∀ v, v ∈ new_vertices → v ∉ AdjacencyListGraph.vertices g) →
      ∃ g', AdjacencyListGraph.add_vertices new_vertices g = Ret tt g' ∧
            ∀ v, v ∈ new_vertices → AdjacencyListGraph.has_vertex v g' = Ret true g')) ∧
  (∀ (g : AdjacencyListGraphBool.t Vertex) (new_vertices : gset Vertex),
     ((∃ v, v ∈ new_vertices ∧ v ∈ AdjacencyListGraphBool.vertices g) →
      AdjacencyListGraphBool.add_vertices new_vertices g
      = Throw Vertex_is_already_in_graph g) ∧
     ((∀ v, v ∈ new_vertices → v ∉ AdjacencyListGraphBool.vertices g) →
      ∃ g', AdjacencyListGraphBool.add_vertices new_vertices g = Ret tt g' ∧
            ∀ v, v ∈ new_vertices → AdjacencyListGraphBool.has_vertex v g' = Ret true g')) ∧
  (∀ (g : AdjacencyMatrixGraph.t Vertex EdgeWeight) (new_vertices : list Vertex),
     ((∃ v, v ∈ new_vertices ∧ v ∈ AdjacencyMatrixGraph.vertices g) →
      AdjacencyMatrixGraph.add_vertices new_vertices g
      = Throw Vertex_is_already_in_graph g) ∧
     (∀ g', AdjacencyMatrixGraph.add_vertices new_vertices g = Ret tt g' →
            ∀ v, v ∈ new_vertices → AdjacencyMatrixGraph.has_vertex v g' = Ret true g') ∧
     ((∀ v, v ∈ new_vertices → v ∉ AdjacencyMatrixGraph.vertices g) →
      AdjacencyMatrixGraph.vertices g ≠ [] ∨ new_vertices ≠ [] →
      ∃ g', AdjacencyMatrixGraph.add_vertices new_vertices g = Ret tt g') ∧
     (AdjacencyMatrixGraph.vertices g = [] → new_vertices = [] →
      AdjacencyMatrixGraph.add_vertices new_vertices g = Undef)).
Proof.
  split_and!.
  - intros g new_vertices.
    destruct (w_add_vertices_spec new_vertices g)
      as [[(x & Hx & Hin) Heq]|[Hdisj (g' & Heq & Hvs)]]; split.
    + done.
    + intros Hfresh. by destruct (Hfresh x).
    + intros (x & Hx & Hin). by destruct (Hdisj x).
    + intros _. exists g'. split; [done|]. intros v Hv.
      rewrite w_has_vertex_eq, bool_decide_eq_true_2; [done|].
      rewrite Hvs. by apply elem_of_union_l.
  - intros g new_vertices.
    destruct (u_add_vertices_spec new_vertices g)
      as [[(x & Hx & Hin) Heq]|[Hdisj (g' & Heq & Hvs)]]; split.
    + done.
    + intros Hfresh. by destruct (Hfresh x).
    + intros (x & Hx & Hin). by destruct (Hdisj x).
    + intros _. exists g'. split; [done|]. intros v Hv.
      rewrite u_has_vertex_eq, bool_decide_eq_true_2; [done|].
      rewrite Hvs. by apply elem_of_union_l.
  - intros g new_vertices. split_and!.
    + apply m_add_vertices_duplicate.
    + intros g' Hret v Hv.
      destruct (m_add_vertices_returned new_vertices g g' Hret) as [Hvs _].
      unfold AdjacencyMatrixGraph.has_vertex, gets.
      rewrite bool_decide_eq_true_2; [done|]. rewrite Hvs. apply elem_of_app. by right.
    + intros Hfresh Hsome.
      destruct (m_add_vertices_fresh new_vertices g Hfresh Hsome) as (g' & Heq & _).
      by exists g'.
    + intros Hvs ->. by apply m_add_vertices_nothing.
Qed.


(** C10 (as amended). In the unweighted list backend [get_edge_weight(u, v)]
    with an endpoint that is not in the graph throws "Vertex not in graph."
    and leaves the graph as it was. *)
Theorem C10_unweighted_get_edge_weight_throws (g : AdjacencyListGraphBool.t Vertex) u v :
  u ∉ AdjacencyListGraphBool.vertices g ∨ v ∉ AdjacencyListGraphBool.vertices g →
  AdjacencyListGraphBool.get_edge_weight u v g = Throw Vertex_not_in_graph g.
Proof. apply u_get_edge_weight_unknown. Qed.
End claims.

(** ** The library at work on small graphs *)

Section examples.
Local Open Scope Z_scope.

(** C2. After [remove_vertex(2)] in the weighted list backend, vertex 2 is
    still among the children of vertex 1: the loop of [remove_vertex]
    erases from a copy of each neighbour vector. In the matrix backend
    [remove_vertex] on a freshly constructed graph runs past the end of the
    matrix, which has lost a row by the time its columns are erased. *)
Theorem C2_remove_vertex_leaves_edges :
  result_of
    ((let* _ := AdjacencyListGraph.set_edge_weight 1 2 5 in
      let* _ := AdjacencyListGraph.remove_vertex 2 in
      let* gone := AdjacencyListGraph.has_vertex 2 in
      let* children := AdjacencyListGraph.get_children 1 in
      ret (gone, children))
       (AdjacencyListGraph.constructor (EdgeWeight:=Z) true {[1; 2]}))
  = Returned (false, {[2]}) ∧
  result_of
    (AdjacencyMatrixGraph.remove_vertex 1
       (AdjacencyMatrixGraph.constructor (EdgeWeight:=Z) true [1; 2]))
  = Undefined.
Proof. split; vm_compute; reflexivity. Qed.

(** C7. In an undirected weighted list graph with the loop (1, 1),
    [get_children(1)] has 1 in it and [get_parents(1)] has not:
    [get_parents] skips the entry of the vertex itself. *)
Theorem C7_weighted_self_loop_children_not_parents :
  result_of
    ((let* _ := AdjacencyListGraph.set_edge_weight 1 1 5 in
      let* children := AdjacencyListGraph.get_children 1 in
      let* parents := AdjacencyListGraph.get_parents 1 in
      ret (children, parents))
       (AdjacencyListGraph.constructor (EdgeWeight:=Z) false {[1]}))
  = Returned ({[1]}, ∅).
Proof. vm_compute. reflexivity. Qed.

(** C5. A matrix graph on 1, 2, 3 with the edge (2, 3); after
    [add_vertices({})] and [remove_vertex(1)] the pointer of the edge sits
    in cell (0, 1) while [edge_weights] still holds the weight under
    (1, 2) and has nothing under (0, 1), and [vertex_indices] still maps 2
    to 1 and 3 to 2, so [has_edge(2, 3)] has turned false. Without the
    [add_vertices] call [remove_vertex(1)] runs past the end of the matrix. *)
Theorem C5_remove_vertex_leaves_store_keys :
  (∃ g, state_of
          ((let* _ := AdjacencyMatrixGraph.set_edge_weight 2 3 7 in
            let* _ := AdjacencyMatrixGraph.add_vertices [] in
            AdjacencyMatrixGraph.remove_vertex 1)
             (AdjacencyMatrixGraph.constructor true [1; 2; 3])) = Some g
        ∧ AdjacencyMatrixGraph.vertices g = [2; 3]
        ∧ AdjacencyMatrixGraph.cell_at g 0 1 = Some (Some (1, 2)%nat)
        ∧ AdjacencyMatrixGraph.edge_weights g !! (0, 1)%nat = None
        ∧ AdjacencyMatrixGraph.edge_weights g !! (1, 2)%nat = Some 7
        ∧ AdjacencyMatrixGraph.vertex_indices g !! 2 = Some 1%nat
        ∧ AdjacencyMatrixGraph.vertex_indices g !! 3 = Some 2%nat
        ∧ ¬ AdjacencyMatrixGraph.cells_match_store g
        ∧ result_of (AdjacencyMatrixGraph.has_edge 2 3 g) = Returned false) ∧
  result_of
    ((let* _ := AdjacencyMatrixGraph.set_edge_weight 2 3 7 in
      AdjacencyMatrixGraph.remove_vertex 1)
       (AdjacencyMatrixGraph.constructor true [1; 2; 3]))
  = Undefined.
Proof.
  split; [|vm_compute; reflexivity].
  eexists. split; [vm_compute; reflexivity|].
  split_and!; try (vm_compute; reflexivity).
  intros Hmatch.
  destruct (Hmatch 0%nat 1%nat (Some (1, 2)%nat)) as [Hstore _];
    [vm_compute; reflexivity|].
  destruct Hstore as [w Hw]; [by eexists|]. vm_compute in Hw. discriminate Hw.
Qed.

(** C1, as stated, fails in the unweighted list backend: after
    [set_edge_weight(1, 2, false)] on two vertices of the graph,
    [has_edge(1, 2)] is false. *)
Lemma C1_unweighted_false_removes_edge :
  result_of
    ((let* _ := AdjacencyListGraphBool.add_edge 1 2 in
      let* _ := AdjacencyListGraphBool.set_edge_weight 1 2 false in
      let* h1 := AdjacencyListGraphBool.has_vertex 1 in
      let* h2 := AdjacencyListGraphBool.has_vertex 2 in
      let* e := AdjacencyListGraphBool.has_edge 1 2 in
      ret (h1, h2, e))
       (AdjacencyListGraphBool.constructor false {[1; 2]}))
  = Returned (true, true, false).
Proof. vm_compute. reflexivity. Qed.



(** C10, as stated, fails: [get_edge_weight(420, 69)] on an unweighted list
    graph without these vertices throws. *)
Lemma C10_unweighted_get_edge_weight_unknown_throws :
  result_of
    (AdjacencyListGraphBool.get_edge_weight 420 69
       (AdjacencyListGraphBool.constructor true {[1; 2]}))
  = Thrown Vertex_not_in_graph.
Proof. vm_compute. reflexivity. Qed.

Lemma C1_set_edge_weight_then_query_witness :
  (∃ g', AdjacencyListGraph.set_edge_weight 1 2 5
           (AdjacencyListGraph.constructor false {[1; 2]}) = Ret tt g'
         ∧ AdjacencyListGraph.has_edge 1 2 g' = Ret true g'
         ∧ AdjacencyListGraph.get_edge_weight 1 2 g' = Ret 5 g') ∧
  (∃ g', AdjacencyListGraphBool.set_edge_weight 1 2 false
           (AdjacencyListGraphBool.constructor false {[1; 2]}) = Ret tt g'
         ∧ AdjacencyListGraphBool.has_edge 1 2 g' = Ret false g'
         ∧ AdjacencyListGraphBool.get_edge_weight 1 2 g' = Ret false g') ∧
  (∃ g', AdjacencyMatrixGraph.set_edge_weight 1 2 5
           (AdjacencyMatrixGraph.constructor false [1; 2]) = Ret tt g'
         ∧ AdjacencyMatrixGraph.well_shaped g'
         ∧ AdjacencyMatrixGraph.has_edge 1 2 g' = Ret true g'
         ∧ AdjacencyMatrixGraph.get_edge_weight 1 2 g' = Ret 5 g').
Proof.
  destruct (C1_set_edge_weight_then_query (Vertex:=Z) (EdgeWeight:=Z))
    as (Hweighted & Hunweighted & Hmatrix).
  split_and!.
  - apply Hweighted; [apply AdjacencyListGraph.reachable_constructor | |];
      simpl; set_solver.
  - apply Hunweighted; [apply AdjacencyListGraphBool.reachable_constructor | |];
      simpl; set_solver.
  - apply Hmatrix; [apply m_constructor_well_shaped | |]; simpl; set_solver.
Defined.

Lemma C3_matrix_has_edge_throws_witness :
  AdjacencyMatrixGraph.has_edge 420 69
    (AdjacencyMatrixGraph.constructor (EdgeWeight:=Z) true [1; 2])
  = Throw Vertex_not_in_graph (AdjacencyMatrixGraph.constructor true [1; 2]).
Proof. apply C3_matrix_has_edge_throws. simpl. set_solver. Defined.


Lemma C6_add_vertex_new_row_short_witness :
  ∃ g', AdjacencyMatrixGraph.add_vertex 4
          (AdjacencyMatrixGraph.constructor (EdgeWeight:=Z) true [1]) = Ret tt g'
    ∧ AdjacencyMatrixGraph.adjacency_matrix g' = [[None; None]; [None]]
    ∧ AdjacencyMatrixGraph.has_edge 4 4 g' = Undef.
Proof.
  destruct (C6_add_vertex_new_row_short
              (AdjacencyMatrixGraph.constructor (EdgeWeight:=Z) true [1]) 4)
    as (g' & Hadd & _ & _ & _ & _ & _ & _ & Hedge).
  - apply m_constructor_well_shaped.
  - simpl. set_solver.
  - exists g'. split; [done|]. split; [|done].
    vm_compute in Hadd. by injection Hadd as <-.
Defined.

Lemma C8_add_vertices_all_or_nothing_witness :
  (AdjacencyListGraph.add_vertices {[2; 3]}
     (AdjacencyListGraph.constructor (EdgeWeight:=Z) true {[1; 2]})
   = Throw Vertex_is_already_in_graph (AdjacencyListGraph.constructor true {[1; 2]}) ∧
   ∃ g', AdjacencyListGraph.add_vertices {[3; 4]}
           (AdjacencyListGraph.constructor (EdgeWeight:=Z) true {[1; 2]}) = Ret tt g'
         ∧ AdjacencyListGraph.has_vertex 3 g' = Ret true g') ∧
  (AdjacencyListGraphBool.add_vertices {[2; 3]}
     (AdjacencyListGraphBool.constructor true {[1; 2]})
   = Throw Vertex_is_already_in_graph (AdjacencyListGraphBool.constructor true {[1; 2]}) ∧
   ∃ g', AdjacencyListGraphBool.add_vertices {[3; 4]}
           (AdjacencyListGraphBool.constructor true {[1; 2]}) = Ret tt g'
         ∧ AdjacencyListGraphBool.has_vertex 3 g' = Ret true g') ∧
  (AdjacencyMatrixGraph.add_vertices [2; 3]
     (AdjacencyMatrixGraph.constructor (EdgeWeight:=Z) true [1; 2])
   = Throw Vertex_is_already_in_graph (AdjacencyMatrixGraph.constructor true [1; 2]) ∧
   (∃ g', AdjacencyMatrixGraph.add_vertices [3; 4]
            (AdjacencyMatrixGraph.constructor (EdgeWeight:=Z) true [1; 2]) = Ret tt g'
          ∧ AdjacencyMatrixGraph.has_vertex 3 g' = Ret true g') ∧
   AdjacencyMatrixGraph.add_vertices (Vertex:=Z) []
     (AdjacencyMatrixGraph.constructor (EdgeWeight:=Z) true []) = Undef).
Proof.
  destruct (C8_add_vertices_all_or_nothing (Vertex:=Z) (EdgeWeight:=Z))
    as (Hweighted & Hunweighted & Hmatrix).
  split_and!.
  - apply Hweighted. exists 2. simpl. set_solver.
  - destruct (Hweighted (AdjacencyListGraph.constructor true {[1; 2]}) {[3; 4]})
      as [_ Hfresh].
    destruct Hfresh as (g' & Hadd & Hall); [simpl; set_solver|].
    exists g'. split; [done|]. apply Hall. set_solver.
  - apply Hunweighted. exists 2. simpl. set_solver.
  - destruct (Hunweighted (AdjacencyListGraphBool.constructor true {[1; 2]}) {[3; 4]})
      as [_ Hfresh].
    destruct Hfresh as (g' & Hadd & Hall); [simpl; set_solver|].
    exists g'. split; [done|]. apply Hall. set_solver.
  - apply Hmatrix. exists 2. simpl. set_solver.
  - destruct (Hmatrix (AdjacencyMatrixGraph.constructor true [1; 2]) [3; 4])
      as (_ & Hreturned & Hfresh & _).
    destruct Hfresh as [g' Hadd]; [simpl; set_solver | by right |].
    exists g'. split; [done|]. apply (Hreturned g' Hadd). set_solver.
  - by apply Hmatrix.
Defined.


Lemma C10_unweighted_get_edge_weight_throws_witness :
  AdjacencyListGraphBool.get_edge_weight 420 69
    (AdjacencyListGraphBool.constructor true {[1; 2]})
  = Throw Vertex_not_in_graph (AdjacencyListGraphBool.constructor true {[1; 2]}).
Proof. apply C10_unweighted_get_edge_weight_throws. left. simpl. set_solver. Defined.
End examples.

(** * The weighted list backend, entry by entry *)

Section weighted_entries.
Context `{Countable Vertex} {EdgeWeight : Type}.
Import AdjacencyListGraph.
Implicit Types (g : t Vertex EdgeWeight) (u v k x : Vertex) (w : EdgeWeight)
  (l : list (Vertex * EdgeWeight)).

Lemma first_child_app_other x l (c : Vertex * EdgeWeight) :
  c.1 ≠ x → first_child x (l ++ [c]) = first_child x l.
Proof.
  intros Hc. induction l as [|c' l IH]; simpl.
  - by rewrite decide_False.
  - by case_decide.
Qed.

Lemma first_child_erase_entry x v l :
  NoDup l.*1 →
  first_child x (erase_entry v l) = if decide (x = v) then None else first_child x l.
Proof.
  intros Hnd. case_decide as Hx.
  - subst. apply first_child_None. by apply erase_entry_spec.
  - clear Hnd. unfold erase_entry. cbv zeta. induction l as [|c l IH]; [done|].
    cbn [to_remove length]. destruct (decide (c.1 = v)) as [Hc|Hc].
    + rewrite decide_True by lia. unfold erase_at. simpl. rewrite drop_0.
      rewrite decide_False; [done | congruence].
    + destruct (decide (to_remove v l < length l)) as [Hlt|Hlt].
      * rewrite decide_True by lia.
        unfold erase_at in *. simpl. case_decide; [done | apply IH].
      * by rewrite decide_False by lia.
Qed.

Lemma first_child_replaced x v w l :
  NoDup l.*1 →
  first_child x (erase_entry v l ++ [(v, w)])
  = if decide (x = v) then Some (v, w) else first_child x l.
Proof.
  intros Hnd. case_decide as Hx.
  - subst. by apply replaced_spec.
  - rewrite first_child_app_other by (simpl; congruence).
    by rewrite first_child_erase_entry, decide_False.
Qed.

Lemma w_entry_insert u l g k x :
  w_entry (set_adjacency_list (<[u := l]> (adjacency_list g)) g) k x
  = if decide (k = u) then first_child x l else w_entry g k x.
Proof.
  unfold w_entry. simpl. case_decide as Hk.
  - subst. by rewrite lookup_insert_eq.
  - by rewrite lookup_insert_ne.
Qed.

Lemma w_subscript_eq u g :
  subscript u g
  = Ret (default [] (adjacency_list g !! u))
        (set_adjacency_list (<[u := default [] (adjacency_list g !! u)]> (adjacency_list g)) g).
Proof.
  unfold subscript. destruct (adjacency_list g !! u) as [l|] eqn:Hu; simpl; [|done].
  rewrite insert_id by done. by destruct g.
Qed.

Lemma w_stored_NoDup g k :
  invariant g → NoDup (default [] (adjacency_list g !! k)).*1.
Proof.
  intros [_ Hnd]. destruct (adjacency_list g !! k) as [l|] eqn:Hk; simpl.
  - by eapply Hnd.
  - apply NoDup_nil_2.
Qed.

(** The effect of the replace block of [set_edge_weight] on the entries. *)
Lemma w_replace_entry_entries u v w g :
  invariant g →
  ∃ g', replace_entry u v w g = Ret tt g' ∧ invariant g'
    ∧ vertices g' = vertices g ∧ directed g' = directed g
    ∧ (∀ k, is_Some (adjacency_list g !! k) → is_Some (adjacency_list g' !! k))
    ∧ (∀ k x, w_entry g' k x
              = if decide (k = u ∧ x = v) then Some (v, w) else w_entry g k x).
Proof.
  intros Hinv. unfold replace_entry, bind. rewrite w_subscript_eq.
  unfold assign, modify. eexists. split; [reflexivity|].
  pose proof (w_stored_NoDup g u Hinv) as Hnd.
  split_and!; simpl; try done.
  - destruct Hinv as [Hdom Hnds]. split; simpl.
    + intros y Hy. rewrite insert_insert_eq, lookup_insert. case_decide; [eauto | auto].
    + intros k l. rewrite insert_insert_eq, lookup_insert. case_decide; [|eauto].
      intros ?; simplify_eq. by apply replaced_spec.
  - intros k Hk. rewrite insert_insert_eq, lookup_insert. case_decide; [eauto | done].
  - intros k x. unfold w_entry. simpl. rewrite insert_insert_eq, lookup_insert.
    destruct (decide (u = k)) as [->|Hk]; simpl.
    + rewrite first_child_replaced by done.
      destruct (decide (x = v)) as [->|Hx].
      * by rewrite decide_True.
      * rewrite decide_False; [done | naive_solver].
    + rewrite decide_False; [done | naive_solver].
Qed.

(** The entries after [set_edge_weight]. *)
Lemma w_set_edge_weight_entries u v w g :
  invariant g → u ∈ vertices g → v ∈ vertices g →
  ∃ g', set_edge_weight u v w g = Ret tt g' ∧ invariant g'
    ∧ vertices g' = vertices g ∧ directed g' = directed g
    ∧ (∀ k x, w_entry g' k x
              = if decide ((k = u ∧ x = v) ∨ (directed g = false ∧ k = v ∧ x = u))
                then Some (x, w) else w_entry g k x).
Proof.
  intros Hinv Hu Hv. unfold set_edge_weight, bind. rewrite !w_has_vertex_eq.
  rewrite !bool_decide_eq_true_2 by done. simpl.
  destruct (w_replace_entry_entries u v w g Hinv)
    as (g1 & -> & Hinv1 & Hvs1 & Hd1 & _ & He1).
  unfold gets. rewrite Hd1. destruct (directed g) eqn:Hd; simpl.
  - exists g1. split_and!; [done..| congruence |].
    intros k x. rewrite He1. repeat case_decide; naive_solver.
  - destruct (w_replace_entry_entries v u w g1 Hinv1)
      as (g2 & -> & Hinv2 & Hvs2 & Hd2 & _ & He2).
    exists g2. split_and!; [done | done | congruence | congruence |].
    intros k x. rewrite He2, He1. repeat case_decide; naive_solver.
Qed.

Lemma w_has_edge_entry u v g :
  invariant g → u ∈ vertices g → v ∈ vertices g →
  has_edge u v g = Ret (bool_decide (is_Some (w_entry g u v))) g.
Proof.
  intros [Hdom _] Hu Hv. destruct (Hdom u Hu) as [l Hl].
  rewrite (w_has_edge_after u v g l) by done. unfold w_entry. by rewrite Hl.
Qed.

Lemma w_get_edge_weight_entry u v g :
  is_Some (adjacency_list g !! u) →
  get_edge_weight u v g
  = match w_entry g u v with
    | Some child => Ret child.2 g
    | None => Throw Edge_does_not_exist g
    end.
Proof.
  intros [l Hl]. unfold get_edge_weight, bind, w_entry.
  rewrite (w_subscript_known _ _ _ Hl), Hl. simpl. by destruct (first_child v l).
Qed.

Lemma w_entry_fst g k x c : w_entry g k x = Some c → c.1 = x.
Proof. unfold w_entry. by intros [? _]%first_child_Some. Qed.
End weighted_entries.

Section weighted_more.
Context `{Countable Vertex} {EdgeWeight : Type}.
Import AdjacencyListGraph.
Implicit Types (g : t Vertex EdgeWeight) (u v k x : Vertex) (w : EdgeWeight)
  (l : list (Vertex * EdgeWeight)).

Lemma w_entry_known g k l x :
  adjacency_list g !! k = Some l → w_entry g k x = first_child x l.
Proof. unfold w_entry. by intros ->. Qed.

Lemma w_erase_at_entry v l :
  to_remove v l < length l → erase_at (to_remove v l) l = erase_entry v l.
Proof. intros Hlt. unfold erase_entry. by rewrite decide_True. Qed.

(** The erase block of [remove_edge] at [u], when [u] has a vector. *)
Lemma w_erase_block u v g l :
  invariant g → adjacency_list g !! u = Some l →
  is_Some (first_child v l) →
  let g' := set_adjacency_list (<[u := erase_at (to_remove v l) l]> (adjacency_list g)) g in
  invariant g' ∧
  (∀ k x, w_entry g' k x = if decide (k = u ∧ x = v) then None else w_entry g k x).
Proof.
  intros Hinv Hl Hsome. simpl.
  assert (Hlt : to_remove v l < length l)
    by (by apply to_remove_lt, first_child_is_Some).
  assert (Hnd : NoDup l.*1) by (destruct Hinv as [_ Hnd]; by eapply Hnd).
  split.
  - apply w_assign_invariant; [done|]. by apply w_erase_at_NoDup.
  - intros k x. rewrite w_entry_insert. destruct (decide (k = u)) as [->|Hk].
    + rewrite w_erase_at_entry, first_child_erase_entry by done.
      rewrite (w_entry_known g u l) by done.
      destruct (decide (x = v)) as [->|Hx].
      * by rewrite decide_True.
      * rewrite decide_False; [done | naive_solver].
    + rewrite decide_False; [done | naive_solver].
Qed.

Lemma w_remove_edge_entries u v g :
  invariant g → u ∈ vertices g → v ∈ vertices g →
  is_Some (w_entry g u v) →
  (directed g = false → u ≠ v ∧ is_Some (w_entry g v u)) →
  ∃ g', remove_edge u v g = Ret tt g' ∧ invariant g'
    ∧ vertices g' = vertices g ∧ directed g' = directed g
    ∧ (∀ k x, w_entry g' k x
              = if decide ((k = u ∧ x = v) ∨ (directed g = false ∧ k = v ∧ x = u))
                then None else w_entry g k x).
Proof.
  intros Hinv Hu Hv Huv Hmirror. pose proof Hinv as [Hdom _].
  destruct (Hdom u Hu) as [l Hl]. rewrite (w_entry_known g u l) in Huv by done.
  unfold remove_edge, bind. rewrite !w_has_vertex_eq.
  rewrite !bool_decide_eq_true_2 by done. simpl.
  rewrite (w_subscript_known _ _ _ Hl).
  rewrite decide_True by (by apply to_remove_lt, first_child_is_Some).
  unfold assign at 1. unfold modify, gets.
  destruct (w_erase_block u v g l Hinv Hl Huv) as [Hinv1 He1].
  set (g1 := set_adjacency_list (<[u:=erase_at (to_remove v l) l]> (adjacency_list g)) g) in *.
  change (directed g1) with (directed g).
  destruct (directed g) eqn:Hd; simpl.
  - exists g1. split_and!; [done..|].
    intros k x. rewrite He1. repeat case_decide; naive_solver.
  - destruct Hmirror as [Hne Hvu]; [done|].
    destruct (proj1 Hinv1 v Hv) as [l' Hl'].
    assert (Hvu1 : is_Some (first_child u l')).
    { rewrite <-(w_entry_known g1 v l') by done. rewrite He1.
      rewrite decide_False; [done | naive_solver]. }
    rewrite (w_subscript_known _ _ _ Hl').
    rewrite decide_True by (by apply to_remove_lt, first_child_is_Some).
    unfold assign, modify.
    destruct (w_erase_block v u g1 l' Hinv1 Hl' Hvu1) as [Hinv2 He2].
    eexists. split; [reflexivity|]. split_and!; [done..|].
    intros k x. rewrite He2, He1. repeat case_decide; naive_solver.
Qed.

(** In an undirected graph the second erase of [remove_edge] is not guarded:
    when [v] has no entry for [u] by then, it erases at [end()]. *)
Lemma w_remove_edge_undefined u v g :
  invariant g → u ∈ vertices g → v ∈ vertices g →
  directed g = false →
  is_Some (w_entry g u v) →
  u = v ∨ w_entry g v u = None →
  remove_edge u v g = Undef.
Proof.
  intros Hinv Hu Hv Hd Huv Hmirror. pose proof Hinv as [Hdom _].
  destruct (Hdom u Hu) as [l Hl]. rewrite (w_entry_known g u l) in Huv by done.
  unfold remove_edge, bind. rewrite !w_has_vertex_eq.
  rewrite !bool_decide_eq_true_2 by done. simpl.
  rewrite (w_subscript_known _ _ _ Hl).
  rewrite decide_True by (by apply to_remove_lt, first_child_is_Some).
  unfold assign at 1. unfold modify, gets.
  destruct (w_erase_block u v g l Hinv Hl Huv) as [Hinv1 He1].
  set (g1 := set_adjacency_list (<[u:=erase_at (to_remove v l) l]> (adjacency_list g)) g) in *.
  change (directed g1) with (directed g). rewrite Hd. simpl.
  destruct (proj1 Hinv1 v Hv) as [l' Hl'].
  rewrite (w_subscript_known _ _ _ Hl').
  rewrite decide_False; [done|].
  rewrite to_remove_lt, <-first_child_is_Some, <-(w_entry_known g1 v l') by done.
  rewrite He1. case_decide as Hc.
  - by intros [? ?].
  - destruct Hmirror as [->|Hnone]; [naive_solver|]. rewrite Hnone. by intros [? ?].
Qed.

Lemma w_remove_vertex_entries v g :
  v ∈ vertices g →
  ∃ g', remove_vertex v g = Ret tt g'
    ∧ vertices g' = vertices g ∖ {[v]} ∧ directed g' = directed g
    ∧ adjacency_list g' = delete v (adjacency_list g).
Proof.
  intros Hv. unfold remove_vertex, bind, common, AdjacencyListGraphCommon.remove_vertex,
    bind, AdjacencyListGraphCommon.has_vertex, gets, modify.
  rewrite bool_decide_eq_true_2 by done. simpl.
  eexists. split; [reflexivity|]. simpl. split_and!; [done..|].
  apply map_eq. intros k. rewrite lookup_fmap.
  by destruct (delete v (adjacency_list g) !! k).
Qed.

Lemma w_remove_vertex_unknown v g :
  v ∉ vertices g → remove_vertex v g = Throw Vertex_not_in_graph g.
Proof.
  intros Hv. unfold remove_vertex, bind, common, AdjacencyListGraphCommon.remove_vertex,
    bind, AdjacencyListGraphCommon.has_vertex, gets, throw.
  rewrite bool_decide_eq_false_2 by done. simpl. by destruct g.
Qed.

Lemma w_add_vertex_fresh v g :
  v ∉ vertices g →
  add_vertex v g = Ret tt (mk (directed g) ({[v]} ∪ vertices g) (<[v := []]> (adjacency_list g))).
Proof.
  intros Hv. unfold add_vertex, bind, common, AdjacencyListGraphCommon.add_vertex,
    bind, AdjacencyListGraphCommon.has_vertex, gets, modify, assign, modify.
  by rewrite bool_decide_eq_false_2.
Qed.

Lemma w_add_vertex_duplicate v g :
  v ∈ vertices g → add_vertex v g = Throw Vertex_is_already_in_graph g.
Proof.
  intros Hv. unfold add_vertex, bind, common, AdjacencyListGraphCommon.add_vertex,
    bind, AdjacencyListGraphCommon.has_vertex, gets, throw.
  rewrite bool_decide_eq_true_2 by done. simpl. by destruct g.
Qed.

(** *** Keys that are not vertices hold no entries *)

Lemma w_entry_touch u g k x :
  w_entry (set_adjacency_list
             (<[u := default [] (adjacency_list g !! u)]> (adjacency_list g)) g) k x
  = w_entry g k x.
Proof. rewrite w_entry_insert. case_decide; by subst. Qed.

(** What [remove_edge] can do to a graph. *)
Lemma w_remove_edge_cases u v g :
  invariant g →
  (∃ e, remove_edge u v g = Throw e g) ∨
  remove_edge u v g = Undef ∨
  (u ∈ vertices g ∧ v ∈ vertices g ∧
   ∃ g', remove_edge u v g = Ret tt g' ∧ invariant g'
     ∧ vertices g' = vertices g ∧ directed g' = directed g
     ∧ (∀ k x, w_entry g' k x
               = if decide ((k = u ∧ x = v) ∨ (directed g = false ∧ k = v ∧ x = u))
                 then None else w_entry g k x)).
Proof.
  intros Hinv. destruct (decide (u ∈ vertices g ∧ v ∈ vertices g)) as [[Hu Hv]|Hn].
  2: { left. exists Vertex_not_in_graph. apply not_and_l in Hn.
       unfold remove_edge, bind. rewrite !w_has_vertex_eq.
       destruct Hn; [rewrite (bool_decide_eq_false_2 (u ∈ _)) by done
                    |rewrite (bool_decide_eq_false_2 (v ∈ _)) by done];
         simpl; [done | by rewrite orb_true_r]. }
  destruct (w_entry g u v) as [c|] eqn:Huv.
  2: { left. exists Remove_edge_that_doesnt_exist. apply w_remove_edge_absent; try done.
       by rewrite w_has_edge_entry, Huv by done. }
  destruct (directed g) eqn:Hd.
  - right. right. split_and!; [done..|].
    destruct (w_remove_edge_entries u v g Hinv Hu Hv) as (g' & ? & ? & ? & ? & He);
      [by rewrite Huv | by rewrite Hd |].
    exists g'. rewrite Hd in He. split_and!; try done. congruence.
  - destruct (decide (u = v)) as [Heq|Hne].
    { right. left.
      apply (w_remove_edge_undefined u v g Hinv Hu Hv Hd); [by rewrite Huv | by left]. }
    destruct (w_entry g v u) as [c'|] eqn:Hvu.
    + right. right. split_and!; [done..|].
      destruct (w_remove_edge_entries u v g Hinv Hu Hv) as (g' & ? & ? & ? & ? & He);
        [by rewrite Huv | intros _; split; [done | by rewrite Hvu] |].
      exists g'. rewrite Hd in He. split_and!; try done. congruence.
    + right. left.
      apply (w_remove_edge_undefined u v g Hinv Hu Hv Hd); [by rewrite Huv | by right].
Qed.

Lemma w_exec_keys c g g' :
  invariant g → w_keys_are_vertices g → exec c g = Some g' → w_keys_are_vertices g'.
Proof.
  intros Hinv Hkeys. destruct c as [u v|v|vs|v|u v w|u v|u v|v|v|v]; cbn [exec].
  - unfold get_edge_weight, bind. rewrite w_subscript_eq.
    unfold ret, throw. case_match; simpl; intros ?; simplify_eq;
      intros k x Hk; rewrite w_entry_touch; by apply Hkeys.
  - destruct (decide (v ∈ vertices g)) as [Hv|Hv].
    + rewrite w_add_vertex_duplicate by done. simpl. by intros ?; simplify_eq.
    + rewrite w_add_vertex_fresh by done. simpl. intros ?; simplify_eq.
      intros k x. simpl. intros Hk. unfold w_entry. simpl.
      rewrite lookup_insert_ne by set_solver. apply Hkeys. set_solver.
  - unfold add_vertices, bind, common.
    destruct (common_add_vertices_spec vs (vertices g)) as [[-> _]|[-> _]]; simpl.
    + unfold modify. intros ?; simplify_eq. intros k x. simpl. intros Hk.
      unfold w_entry. simpl. rewrite lookup_set_fold_insert.
      rewrite decide_False by set_solver. apply Hkeys. set_solver.
    + intros ?; simplify_eq. by rewrite w_set_vertices_id.
  - destruct (decide (v ∈ vertices g)) as [Hv|Hv].
    + destruct (w_remove_vertex_entries v g Hv) as (g1 & -> & Hvs & _ & Hal).
      simpl. intros ?; simplify_eq. intros k x. rewrite Hvs. intros Hk.
      unfold w_entry. rewrite Hal. destruct (decide (k = v)) as [->|Hne].
      * by rewrite lookup_delete_eq.
      * rewrite lookup_delete_ne by done. apply Hkeys. set_solver.
    + rewrite w_remove_vertex_unknown by done. simpl. by intros ?; simplify_eq.
  - destruct (decide (u ∈ vertices g ∧ v ∈ vertices g)) as [[Hu Hv]|Hn].
    + destruct (w_set_edge_weight_entries u v w g Hinv Hu Hv)
        as (g1 & -> & _ & Hvs & _ & He).
      simpl. intros ?; simplify_eq. intros k x. rewrite Hvs. intros Hk.
      rewrite He. rewrite decide_False; [by apply Hkeys | naive_solver].
    + rewrite w_set_edge_weight_unknown by (by apply not_and_l in Hn).
      simpl. by intros ?; simplify_eq.
  - destruct (w_remove_edge_cases u v g Hinv)
      as [[e ->]|[->|(Hu & Hv & g1 & -> & _ & Hvs & _ & He)]]; simpl; [|done|].
    + by intros ?; simplify_eq.
    + intros ?; simplify_eq. intros k x. rewrite Hvs. intros Hk.
      rewrite He. destruct (decide _); [done | by apply Hkeys].
  - destruct (w_has_edge_pure u v g Hinv) as [b ->]. simpl. by intros ?; simplify_eq.
  - rewrite w_has_vertex_eq. simpl. by intros ?; simplify_eq.
  - destruct (w_get_children_spec v g Hinv) as [(_ & l & _ & ->)|[_ ->]];
      simpl; by intros ?; simplify_eq.
  - destruct (w_get_parents_spec v g) as [(_ & ps & -> & _)|[_ ->]];
      simpl; by intros ?; simplify_eq.
Qed.

Lemma w_reachable_keys g : reachable g → invariant g ∧ w_keys_are_vertices g.
Proof.
  induction 1 as [d vs|c g g' Hreach [IHinv IHkeys] Hexec].
  - split; [apply w_constructor_invariant|]. intros k x _. unfold w_entry. simpl.
    rewrite lookup_set_fold_insert. case_decide; [done | by rewrite lookup_empty].
  - split; [by eapply w_exec_invariant | by eapply w_exec_keys].
Qed.
End weighted_more.

Section weighted_extras.
Context `{Countable Vertex} {EdgeWeight : Type}.
Import AdjacencyListGraph.
Implicit Types (g : t Vertex EdgeWeight) (u v k x y : Vertex) (w : EdgeWeight).

Lemma w_has_edge_true_iff u v g :
  invariant g → u ∈ vertices g → v ∈ vertices g →
  has_edge u v g = Ret true g ↔ is_Some (w_entry g u v).
Proof.
  intros Hinv Hu Hv. rewrite w_has_edge_entry by done. split.
  - intros Heq. apply (bool_decide_eq_true_1 _). congruence.
  - intros Hs. by rewrite bool_decide_eq_true_2.
Qed.

Lemma w_has_edge_result x y g g' :
  invariant g → invariant g' → vertices g' = vertices g →
  w_entry g' x y = w_entry g x y →
  result_of (has_edge x y g') = result_of (has_edge x y g).
Proof.
  intros Hinv Hinv' Hvs He.
  destruct (decide (x ∈ vertices g ∧ y ∈ vertices g)) as [[Hx Hy]|Hn].
  - rewrite !w_has_edge_entry by congruence. by rewrite He.
  - apply not_and_l in Hn. rewrite !w_has_edge_unknown; [done | done |].
    by rewrite Hvs.
Qed.

Lemma w_get_edge_weight_result x y g :
  result_of (get_edge_weight x y g)
  = match w_entry g x y with
    | Some child => Returned child.2
    | None => Thrown Edge_does_not_exist
    end.
Proof.
  unfold get_edge_weight, bind, w_entry. rewrite w_subscript_eq.
  by destruct (first_child y _).
Qed.

(** X1. Weighted list: [set_edge_weight(u, v, w)] changes the answers of
    [has_edge] and [get_edge_weight] for the pair (u, v) only, and in an
    undirected graph for (v, u) as well; for every other pair both answer as
    before the call. *)
Theorem X1_weighted_set_edge_weight_frame g u v w x y :
  reachable g → u ∈ vertices g → v ∈ vertices g →
  ¬ (x = u ∧ y = v) → (directed g = true ∨ ¬ (x = v ∧ y = u)) →
  ∃ g', set_edge_weight u v w g = Ret tt g'
    ∧ result_of (has_edge x y g') = result_of (has_edge x y g)
    ∧ result_of (get_edge_weight x y g') = result_of (get_edge_weight x y g).
Proof.
  intros Hinv%w_reachable_invariant Hu Hv Hxy Hyx.
  destruct (w_set_edge_weight_entries u v w g Hinv Hu Hv)
    as (g' & Hset & Hinv' & Hvs & _ & He).
  assert (Hsame : w_entry g' x y = w_entry g x y).
  { rewrite He. rewrite decide_False; [done|].
    intros [?|(Hd & ? & ?)]; [done|]. destruct Hyx as [Hd'|?]; [congruence | auto]. }
  exists g'. split_and!; [done | |].
  - by apply w_has_edge_result.
  - by rewrite !w_get_edge_weight_result, Hsame.
Qed.

(** X2. Weighted list, undirected graph: after [set_edge_weight(u, v, w)] the
    mirrored edge is there too: [has_edge(v, u)] is true and
    [get_edge_weight(v, u)] is [w]. *)
Theorem X2_weighted_undirected_mirror g u v w :
  reachable g → directed g = false → u ∈ vertices g → v ∈ vertices g →
  ∃ g', set_edge_weight u v w g = Ret tt g'
    ∧ has_edge v u g' = Ret true g'
    ∧ get_edge_weight v u g' = Ret w g'.
Proof.
  intros Hinv%w_reachable_invariant Hd Hu Hv.
  destruct (w_set_edge_weight_entries u v w g Hinv Hu Hv)
    as (g' & Hset & Hinv' & Hvs & _ & He).
  assert (Hvu : w_entry g' v u = Some (u, w)).
  { rewrite He. rewrite decide_True; [done | by right]. }
  exists g'. split_and!; [done | |].
  - rewrite w_has_edge_entry, Hvu by congruence. done.
  - rewrite w_get_edge_weight_entry, Hvu; [done|]. apply Hinv'. congruence.
Qed.

(** X3. Weighted list: [remove_edge(u, v)] right after
    [set_edge_weight(u, v, w)] returns (for a directed graph, or u ≠ v);
    afterwards [has_edge(u, v)] is false, [get_edge_weight(u, v)] throws
    "Edge does not exist.", in an undirected graph the same holds for (v, u),
    and every pair other than these answers as before the two calls. *)
Theorem X3_weighted_set_then_remove g u v w :
  reachable g → u ∈ vertices g → v ∈ vertices g →
  directed g = true ∨ u ≠ v →
  ∃ g1 g2, set_edge_weight u v w g = Ret tt g1
    ∧ remove_edge u v g1 = Ret tt g2
    ∧ has_edge u v g2 = Ret false g2
    ∧ get_edge_weight u v g2 = Throw Edge_does_not_exist g2
    ∧ (directed g = false →
       has_edge v u g2 = Ret false g2
       ∧ get_edge_weight v u g2 = Throw Edge_does_not_exist g2)
    ∧ (∀ x y, ¬ (x = u ∧ y = v) → (directed g = true ∨ ¬ (x = v ∧ y = u)) →
         result_of (has_edge x y g2) = result_of (has_edge x y g)
         ∧ result_of (get_edge_weight x y g2) = result_of (get_edge_weight x y g)).
Proof.
  intros Hinv%w_reachable_invariant Hu Hv Hshape.
  destruct (w_set_edge_weight_entries u v w g Hinv Hu Hv)
    as (g1 & Hset & Hinv1 & Hvs1 & Hd1 & He1).
  destruct (w_remove_edge_entries u v g1) as (g2 & Hrm & Hinv2 & Hvs2 & Hd2 & He2);
    try done; try congruence.
  { rewrite He1, decide_True; [done | by left]. }
  { intros Hd. rewrite Hd1 in Hd. split; [destruct Hshape; congruence|].
    rewrite He1, decide_True; [done | by right]. }
  rewrite Hd1 in He2.
  assert (Hknown : ∀ k, k ∈ vertices g → is_Some (adjacency_list g2 !! k)).
  { intros k Hk. apply Hinv2. congruence. }
  exists g1, g2. split_and!; [done | done | | | |].
  - rewrite w_has_edge_entry, He2 by congruence. rewrite decide_True; [done | by left].
  - rewrite w_get_edge_weight_entry, He2 by auto. rewrite decide_True; [done | by left].
  - intros Hd. split.
    + rewrite w_has_edge_entry, He2 by congruence. rewrite decide_True; [done | by right].
    + rewrite w_get_edge_weight_entry, He2 by auto. rewrite decide_True; [done | by right].
  - intros x y Hxy Hyx.
    assert (Hsame : w_entry g2 x y = w_entry g x y).
    { assert (¬ (x = u ∧ y = v ∨ directed g = false ∧ x = v ∧ y = u)) as Hn.
      { intros [?|(Hd & ? & ?)]; [done|]. destruct Hyx as [Hd'|?]; [congruence | auto]. }
      rewrite He2, decide_False, He1, decide_False by done. done. }
    split.
    + apply w_has_edge_result; [done | done | congruence | done].
    + by rewrite !w_get_edge_weight_result, Hsame.
Qed.

(** X4. Weighted list, undirected graph: removing a loop has undefined
    behaviour. [remove_edge(v, v)] erases the entry and then, for the mirror,
    scans the same vector again, finds nothing and erases at [end()]. *)
Theorem X4_weighted_undirected_remove_loop_undefined g v :
  reachable g → directed g = false → v ∈ vertices g →
  has_edge v v g = Ret true g →
  remove_edge v v g = Undef.
Proof.
  intros Hinv%w_reachable_invariant Hd Hv Hedge.
  apply w_remove_edge_undefined; try done; [|by left].
  by apply w_has_edge_true_iff.
Qed.

(** X5. Weighted list: on two vertices [has_edge] and [get_edge_weight]
    agree: either [has_edge(u, v)] is true and [get_edge_weight(u, v)]
    returns a weight, or [has_edge(u, v)] is false and [get_edge_weight(u, v)]
    throws "Edge does not exist."; neither changes the graph. *)
Theorem X5_weighted_has_edge_get_edge_weight_agree g u v :
  reachable g → u ∈ vertices g → v ∈ vertices g →
  (has_edge u v g = Ret true g ∧ ∃ w, get_edge_weight u v g = Ret w g) ∨
  (has_edge u v g = Ret false g ∧ get_edge_weight u v g = Throw Edge_does_not_exist g).
Proof.
  intros Hinv%w_reachable_invariant Hu Hv.
  rewrite w_has_edge_entry, w_get_edge_weight_entry by (done || by apply Hinv).
  destruct (w_entry g u v) as [c|]; [left | right].
  - split; [done | by eexists].
  - done.
Qed.

(** X6. Weighted list: [get_edge_weight(u, v)] with [u] not in the graph
    throws "Edge does not exist." (there is no test for the vertices). *)
Theorem X6_weighted_get_edge_weight_unknown_source g u v :
  reachable g → u ∉ vertices g →
  result_of (get_edge_weight u v g) = Thrown Edge_does_not_exist.
Proof.
  intros [_ Hkeys]%w_reachable_keys Hu.
  by rewrite w_get_edge_weight_result, Hkeys.
Qed.

(** X7. Weighted list: [remove_vertex(v)] leaves the entries for [v] in the
    vectors of the other vertices. For an edge (x, v) with weight [w]: after
    [remove_vertex(v)], [has_edge(x, v)] is false but [get_edge_weight(x, v)]
    still returns [w]. *)
Theorem X7_weighted_remove_vertex_keeps_weight g x v w :
  reachable g → x ∈ vertices g → v ∈ vertices g → x ≠ v →
  get_edge_weight x v g = Ret w g →
  ∃ g', remove_vertex v g = Ret tt g'
    ∧ has_vertex v g' = Ret false g'
    ∧ has_edge x v g' = Ret false g'
    ∧ get_edge_weight x v g' = Ret w g'.
Proof.
  intros Hinv%w_reachable_invariant Hx Hv Hne Hw.
  destruct (w_remove_vertex_entries v g Hv) as (g' & Hrm & Hvs & Hd & Hal).
  assert (Hv' : v ∉ vertices g') by (rewrite Hvs; set_solver).
  exists g'. split_and!; [done | | |].
  - by rewrite w_has_vertex_eq, bool_decide_eq_false_2.
  - apply w_has_edge_unknown. by right.
  - destruct (proj1 Hinv x Hx) as [l Hl].
    assert (Hl' : adjacency_list g' !! x = Some l) by (by rewrite Hal, lookup_delete_ne).
    rewrite w_get_edge_weight_entry in Hw by eauto.
    rewrite w_get_edge_weight_entry by eauto.
    rewrite (w_entry_known g' x l) by done. rewrite (w_entry_known g x l) in Hw by done.
    destruct (first_child v l); by simplify_eq.
Qed.

(** X8. Weighted list: [add_vertex(v)] after [remove_vertex(v)] brings the
    edges into [v] back. For an edge (x, v) with weight [w]: after the two
    calls [has_edge(x, v)] is true with weight [w] again, [has_edge(v, x)] is
    false, and in an undirected graph [remove_edge(x, v)] then has undefined
    behaviour (the mirror entry it erases is not there). *)
Theorem X8_weighted_readded_vertex_regains_edges g x v w :
  reachable g → x ∈ vertices g → v ∈ vertices g → x ≠ v →
  get_edge_weight x v g = Ret w g →
  ∃ g1 g2, remove_vertex v g = Ret tt g1
    ∧ add_vertex v g1 = Ret tt g2
    ∧ has_edge x v g2 = Ret true g2
    ∧ get_edge_weight x v g2 = Ret w g2
    ∧ has_edge v x g2 = Ret false g2
    ∧ (directed g = false → remove_edge x v g2 = Undef).
Proof.
  intros Hreach Hx Hv Hne Hw. pose proof (w_reachable_invariant g Hreach) as Hinv.
  destruct (w_remove_vertex_entries v g Hv) as (g1 & Hrm & Hvs1 & Hd1 & Hal1).
  assert (Hv1 : v ∉ vertices g1) by (rewrite Hvs1; set_solver).
  pose proof (w_add_vertex_fresh v g1 Hv1) as Hadd.
  set (g2 := mk (directed g1) ({[v]} ∪ vertices g1) (<[v:=[]]> (adjacency_list g1))) in *.
  assert (Hreach2 : reachable g2).
  { apply (reachable_call (Add_vertex v) g1); [|by cbn [exec]; rewrite Hadd].
    apply (reachable_call (Remove_vertex v) g); [done|]. cbn [exec]. by rewrite Hrm. }
  pose proof (w_reachable_invariant g2 Hreach2) as Hinv2.
  assert (Hx2 : x ∈ vertices g2) by (simpl; rewrite Hvs1; set_solver).
  assert (Hv2 : v ∈ vertices g2) by (simpl; set_solver).
  destruct (proj1 Hinv x Hx) as [l Hl].
  rewrite w_get_edge_weight_entry, (w_entry_known g x l) in Hw by eauto.
  assert (Hxv : w_entry g2 x v = first_child v l).
  { unfold w_entry. simpl. by rewrite lookup_insert_ne, Hal1, lookup_delete_ne, Hl. }
  assert (Hvx : w_entry g2 v x = None).
  { unfold w_entry. simpl. by rewrite lookup_insert_eq. }
  exists g1, g2. split_and!; [done | done | | | |].
  - rewrite w_has_edge_entry, Hxv by done. by destruct (first_child v l).
  - rewrite w_get_edge_weight_entry, Hxv by (by apply Hinv2).
    destruct (first_child v l); by simplify_eq.
  - by rewrite w_has_edge_entry, Hvx by done.
  - intros Hd. apply w_remove_edge_undefined; try done.
    + simpl. congruence.
    + rewrite Hxv. by destruct (first_child v l).
    + by right.
Qed.

(** X9. Weighted list: for a vertex [v], [get_parents(v)] is the set of the
    [x] other than [v] with [has_edge(x, v)], and a vertex [x] is in
    [get_children(v)] exactly when [has_edge(v, x)]. *)
Theorem X9_weighted_family_agrees_with_has_edge g v :
  reachable g → v ∈ vertices g →
  ∃ children parents : gset Vertex,
    get_children v g = Ret children g
    ∧ get_parents v g = Ret parents g
    ∧ (∀ x, x ∈ vertices g → x ∈ children ↔ has_edge v x g = Ret true g)
    ∧ (∀ x, x ∈ parents ↔ x ≠ v ∧ has_edge x v g = Ret true g).
Proof.
  intros [Hinv Hkeys]%w_reachable_keys Hv.
  destruct (w_get_children_spec v g Hinv) as [(_ & l & Hl & Hc)|[? _]]; [|done].
  destruct (w_get_parents_spec v g) as [(_ & ps & Hp & Hps)|[? _]]; [|done].
  exists (list_to_set l.*1), ps. split_and!; [done | done | |].
  - intros x Hx. rewrite w_has_edge_true_iff by done.
    rewrite (w_entry_known g v l) by done.
    by rewrite elem_of_list_to_set, first_child_is_Some.
  - intros x. rewrite Hps. split.
    + intros (Hne & l' & Hl' & Hin). split; [done|].
      assert (Hsome : is_Some (w_entry g x v)).
      { rewrite (w_entry_known g x l') by done. by apply first_child_is_Some. }
      assert (Hx : x ∈ vertices g).
      { destruct (decide (x ∈ vertices g)) as [|Hn]; [done|].
        rewrite (Hkeys x v Hn) in Hsome. by destruct Hsome. }
      by apply w_has_edge_true_iff.
    + intros (Hne & Hedge). split; [done|].
      assert (Hx : x ∈ vertices g).
      { destruct (decide (x ∈ vertices g)) as [|Hn]; [done|].
        rewrite w_has_edge_unknown in Hedge by (by left). by simplify_eq. }
      apply w_has_edge_true_iff in Hedge; [|done..].
      destruct (proj1 Hinv x Hx) as [l' Hl']. exists l'. split; [done|].
      rewrite (w_entry_known g x l') in Hedge by done. by apply first_child_is_Some.
Qed.
End weighted_extras.

(** * The unweighted list backend: batches of edges *)

Section unweighted_batches.
Context `{Countable Vertex}.
Import AdjacencyListGraphBool.
Implicit Types (g : t Vertex) (u v k x y a b : Vertex) (s : gset Vertex)
  (added edges : list (Vertex * Vertex)).

Lemma u_equivalent_refl g : equivalent g g.
Proof. by split_and!. Qed.

Lemma u_equivalent_trans g1 g2 g3 :
  equivalent g1 g2 → equivalent g2 g3 → equivalent g1 g3.
Proof.
  intros (Hd1 & Hv1 & He1) (Hd2 & Hv2 & He2). split_and!; [congruence..|].
  intros k x. by rewrite He2, He1.
Qed.

Lemma u_batch_state_touch g0 added g u :
  u_batch_state g0 added g →
  u_batch_state g0 added
    (set_adjacency_list (<[u := stored g u]> (adjacency_list g)) g).
Proof.
  intros (Hd & Hvs & Hinv & He & Hnd & Hnew).
  destruct (u_touch_equivalent u g) as (Hd' & Hvs' & He').
  split_and!; [done | done | by apply u_touch_invariant | | done | done].
  intros k x. by rewrite He', He.
Qed.

(** The [catch] block of [add_edges] undoes the edges added so far. *)
Lemma u_roll_back_restores g0 added g :
  invariant g0 → u_batch_state g0 added g →
  ∃ g', roll_back added g = Ret tt g' ∧ equivalent g0 g' ∧ invariant g'.
Proof.
  intros Hinv0. revert g. induction added as [|[a b] rest IH];
    intros g (Hd & Hvs & Hinv & He & Hnd & Hnew); simpl.
  - exists g. split; [done|]. split; [|done]. split_and!; [done..|].
    intros k x. rewrite He. set_solver.
  - apply NoDup_cons in Hnd as [Hab Hnd].
    assert (Hsym0 : directed g0 = false → ∀ k x, edge g0 k x → edge g0 x k)
      by apply Hinv0.
    destruct (Hnew a b) as [Hfresh Hself]; [left|].
    unfold bind. destruct (u_remove_edge_spec a b g)
      as [(_ & g1 & -> & Hd1 & Hvs1 & Hmono1 & He1)|[Hn _]].
    2: { destruct Hn. apply He. right. left. left. }
    apply IH. split_and!; [congruence | congruence | | | done |].
    + by apply (u_unlink_invariant a b g g1).
    + intros k x. rewrite He1, He, Hd. rewrite !elem_of_cons. split.
      * intros ([?|[[?|?]|[? [?|?]]]] & Hn1 & Hn2); simplify_eq; naive_solver.
      * intros [H0|[Hin|[Hund Hin]]].
        -- split_and!; [by left | |].
           ++ intros [-> ->]. done.
           ++ intros (Hund & -> & ->). apply Hfresh. by apply Hsym0.
        -- split_and!; [right; left; by right | |].
           ++ intros [-> ->]. done.
           ++ intros (Hund & -> & ->).
              assert (a = b) as -> by (apply Hself; [done | by right]). done.
        -- split_and!; [right; right; split; [done | by right] | |].
           ++ intros [-> ->].
              assert (a = b) as -> by (apply Hself; [done | by right]). done.
           ++ intros (_ & -> & ->). done.
    + intros c d Hcd. destruct (Hnew c d) as [Hf Hs]; [by right|].
      split; [done|]. intros Hund Hdc. apply Hs; [done | by right].
Qed.

(** What [add_edge] can do to a graph. *)
Lemma u_add_edge_cases a b g :
  (edge g a b ∧
   add_edge a b g
   = Throw Edge_already_exists
       (set_adjacency_list (<[a := stored g a]> (adjacency_list g)) g)) ∨
  (¬ edge g a b ∧ (a ∉ vertices g ∨ b ∉ vertices g) ∧
   add_edge a b g
   = Throw Vertex_not_in_graph
       (set_adjacency_list (<[a := stored g a]> (adjacency_list g)) g)) ∨
  (¬ edge g a b ∧ a ∈ vertices g ∧ b ∈ vertices g ∧
   ∃ g1, add_edge a b g = Ret tt g1
     ∧ directed g1 = directed g ∧ vertices g1 = vertices g
     ∧ (∀ k, is_Some (adjacency_list g !! k) → is_Some (adjacency_list g1 !! k))
     ∧ (∀ k x, edge g1 k x ↔
          edge g k x ∨ (k = a ∧ x = b) ∨ (directed g = false ∧ k = b ∧ x = a))).
Proof.
  destruct (decide (b ∈ stored g a)) as [Hedge|Hedge].
  { left. split; [done|]. unfold add_edge, bind. rewrite u_has_edge_eq.
    by rewrite bool_decide_eq_true_2. }
  right. destruct (decide (a ∈ vertices g ∧ b ∈ vertices g)) as [[Ha Hb]|Hn].
  - right. split_and!; [done..|].
    unfold add_edge. unfold bind at 1. rewrite u_has_edge_eq.
    rewrite bool_decide_eq_false_2 by done.
    unfold bind at 1 2. rewrite !u_has_vertex_eq.
    rewrite !bool_decide_eq_true_2 by done. simpl.
    match goal with |- context [bind _ _ ?g_t] =>
      destruct (u_link_spec a b g_t) as (g1 & Heq & Hd1 & Hvs1 & Hmono1 & He1) end.
    exists g1. split_and!; [done..| |].
    + intros k Hk. apply Hmono1. simpl. rewrite lookup_insert. by case_decide.
    + intros k x. rewrite He1. simpl.
      pose proof (u_touch_equivalent a g) as (_ & _ & Ht). by rewrite Ht.
  - left. apply not_and_l in Hn. split_and!; [done..|].
    unfold add_edge. unfold bind at 1. rewrite u_has_edge_eq.
    rewrite bool_decide_eq_false_2 by done.
    unfold bind at 1 2. rewrite !u_has_vertex_eq.
    destruct Hn; [rewrite (bool_decide_eq_false_2 (a ∈ _)) by done
                 |rewrite (bool_decide_eq_false_2 (b ∈ _)) by done];
      simpl; [done | by rewrite orb_true_r].
Qed.

(** What [add_edges] does from a point of its loop. *)
Lemma u_add_edges_from_spec g0 edges added g :
  invariant g0 → u_batch_state g0 added g →
  (∃ e g', add_edges_from edges added g = Throw e g' ∧ equivalent g0 g'
           ∧ invariant g'
           ∧ (e = Edge_already_exists ∨ e = Vertex_not_in_graph)) ∨
  (∃ g', add_edges_from edges added g = Ret tt g' ∧ invariant g'
         ∧ vertices g' = vertices g0
         ∧ (∀ k x, edge g k x → edge g' k x)
         ∧ (∀ a b, (a, b) ∈ edges → edge g' a b)).
Proof.
  intros Hinv0. revert added g. induction edges as [|[a b] edges IH];
    intros added g Hstate; simpl.
  - right. exists g. destruct Hstate as (Hd & Hvs & Hinv & He & _).
    split_and!; [done..|]. by intros a b ?%elem_of_nil.
  - pose proof (u_batch_state_touch g0 added g a Hstate) as Hstate_t.
    destruct (u_add_edge_cases a b g)
      as [[_ ->]|[(_ & _ & ->)|(Hedge & Ha & Hb & g1 & -> & Hd1 & Hvs1 & Hmono1 & He1)]].
    { left. unfold bind, throw.
      destruct (u_roll_back_restores g0 added _ Hinv0 Hstate_t) as (g' & -> & ? & ?).
      exists Edge_already_exists, g'. split_and!; [done..|by left]. }
    { left. unfold bind, throw.
      destruct (u_roll_back_restores g0 added _ Hinv0 Hstate_t) as (g' & -> & ? & ?).
      exists Vertex_not_in_graph, g'. split_and!; [done..|by right]. }
    clear Hstate_t. destruct Hstate as (Hd & Hvs & Hinv & He & Hnd & Hnew).
    assert (Hstate1 : u_batch_state g0 (added ++ [(a, b)]) g1).
    { split_and!; [congruence | congruence | | | |].
      - by apply (u_link_invariant a b g g1).
      - intros k x. rewrite He1, He, Hd. rewrite !elem_of_app, !list_elem_of_singleton.
        naive_solver.
      - apply NoDup_app. split_and!; [done | | apply NoDup_singleton].
        intros [c d] Hcd [= -> ->]%list_elem_of_singleton. apply Hedge, He. auto.
      - intros c d [Hcd|[= -> ->]%list_elem_of_singleton]%elem_of_app.
        + destruct (Hnew c d Hcd) as [Hf Hs]. split; [done|].
          intros Hund [Hdc|[= -> ->]%list_elem_of_singleton]%elem_of_app; [auto|].
          destruct Hedge. apply He. right. right. done.
        + split.
          * intros H0. apply Hedge, He. by left.
          * intros Hund [Hba|[= -> ]%list_elem_of_singleton]%elem_of_app; [|done].
            destruct Hedge. apply He. right. right. done. }
    destruct (IH (added ++ [(a, b)]) g1 Hstate1) as
      [(e & g' & -> & ? & ? & ?)|(g' & -> & Hinv' & Hvs' & Hmono & Hall)].
    + left. by exists e, g'.
    + right. exists g'. split_and!; [done..| |].
      * intros k x Hkx. apply Hmono, He1. by left.
      * intros c d [[= -> ->]|Hcd]%elem_of_cons; [|auto].
        apply Hmono, He1. auto.
Qed.
End unweighted_batches.

Section unweighted_extras.
Context `{Countable Vertex}.
Import AdjacencyListGraphBool.
Implicit Types (g : t Vertex) (u v k x y a b : Vertex) (s : gset Vertex)
  (edges : list (Vertex * Vertex)).

Lemma u_has_edge_result x y g :
  result_of (has_edge x y g) = Returned (bool_decide (y ∈ stored g x)).
Proof. by rewrite u_has_edge_eq. Qed.

Lemma u_has_edge_result_ext x y x' y' g g' :
  (edge g' x' y' ↔ edge g x y) →
  result_of (has_edge x' y' g') = result_of (has_edge x y g).
Proof. intros He. rewrite !u_has_edge_result. f_equal. by apply bool_decide_ext. Qed.

Lemma u_has_edge_true_iff x y g :
  invariant g → has_edge x y g = Ret true g ↔ edge g x y.
Proof.
  intros Hinv. split.
  - intros Heq. apply (f_equal result_of) in Heq. rewrite u_has_edge_result in Heq.
    simpl in Heq. apply (bool_decide_eq_true_1 (y ∈ stored g x)). congruence.
  - intros Hedge. destruct Hinv as (Hdom & Hends & _).
    destruct (Hends x y Hedge) as [Hx _]. destruct (Hdom x Hx) as [s Hs].
    rewrite u_has_edge_eq, (u_touch_known x g s) by done.
    by rewrite bool_decide_eq_true_2.
Qed.

(** The edges after [set_edge_weight]. *)
Lemma u_set_edge_weight_edges u v (w : bool) g :
  invariant g → u ∈ vertices g → v ∈ vertices g →
  ∃ g', set_edge_weight u v w g = Ret tt g' ∧ invariant g'
    ∧ directed g' = directed g ∧ vertices g' = vertices g
    ∧ (∀ k x, edge g' k x ↔
         if w then edge g k x ∨ (k = u ∧ x = v) ∨ (directed g = false ∧ k = v ∧ x = u)
         else edge g k x ∧ ¬ (k = u ∧ x = v) ∧ ¬ (directed g = false ∧ k = v ∧ x = u)).
Proof.
  intros Hinv Hu Hv. unfold set_edge_weight. unfold bind at 1 2.
  rewrite !u_has_vertex_eq. rewrite !bool_decide_eq_true_2 by done. simpl.
  destruct w.
  - destruct (u_link_spec u v g) as (g' & -> & Hd & Hvs & Hmono & Hedge).
    exists g'. split_and!; [done | | done..]. by apply (u_link_invariant u v g g').
  - unfold try_catch.
    destruct (u_remove_edge_spec u v g)
      as [(_ & g1 & -> & Hd & Hvs & Hmono & Hedge)|[Hn ->]].
    + exists g1. split_and!; [done | | done..]. by apply (u_unlink_invariant u v g g1).
    + eexists. split; [reflexivity|].
      split_and!; [by apply u_touch_invariant | done | done |].
      intros k x. destruct (u_touch_equivalent u g) as (_ & _ & ->).
      destruct Hinv as (_ & _ & Hsym). split; [|naive_solver].
      intros Hkx. split_and!; [done | naive_solver |].
      intros (Hd & -> & ->). apply Hn. by apply Hsym.
Qed.

(** X10. Unweighted list: an undirected graph holds every edge in both
    directions at all times: [has_edge(u, v)] and [has_edge(v, u)] give the
    same answer. *)
Theorem X10_unweighted_undirected_mirror g u v :
  reachable g → directed g = false →
  result_of (has_edge u v g) = result_of (has_edge v u g).
Proof.
  intros (_ & _ & Hsym)%u_reachable_invariant Hd.
  apply u_has_edge_result_ext. split; by apply Hsym.
Qed.

(** X11. Unweighted list: for a vertex [v], [get_children(v)] is the set of
    the [x] with [has_edge(v, x)] and [get_parents(v)] the set of the [x] with
    [has_edge(x, v)]; both hold vertices only. *)
Theorem X11_unweighted_family_agrees_with_has_edge g v :
  reachable g → v ∈ vertices g →
  ∃ children parents : gset Vertex,
    get_children v g = Ret children g
    ∧ get_parents v g = Ret parents g
    ∧ (∀ x, x ∈ children ↔ has_edge v x g = Ret true g)
    ∧ (∀ x, x ∈ parents ↔ has_edge x v g = Ret true g)
    ∧ children ⊆ vertices g ∧ parents ⊆ vertices g.
Proof.
  intros Hinv%u_reachable_invariant Hv.
  destruct (u_get_parents_known v g Hv) as (ps & Hp & Hps).
  exists (stored g v), ps. split_and!.
  - by apply u_get_children_known.
  - done.
  - intros x. by rewrite u_has_edge_true_iff.
  - intros x. by rewrite u_has_edge_true_iff, Hps.
  - intros x Hx. by apply (proj1 (proj2 Hinv) v x).
  - intros x Hx%Hps. by apply (proj1 (proj2 Hinv) x v).
Qed.

(** X12. Unweighted list: [add_edge(u, v)] on two vertices without the edge
    returns and makes [has_edge(u, v)] true, and [has_edge(v, u)] too when
    undirected; [remove_edge(u, v)] then returns and gives back a graph with
    the vertices and edges of before the two calls. *)
Theorem X12_unweighted_add_then_remove_edge g u v :
  reachable g → u ∈ vertices g → v ∈ vertices g →
  has_edge u v g = Ret false g →
  ∃ g1 g2, add_edge u v g = Ret tt g1
    ∧ has_edge u v g1 = Ret true g1
    ∧ (directed g = false → has_edge v u g1 = Ret true g1)
    ∧ remove_edge u v g1 = Ret tt g2
    ∧ equivalent g g2.
Proof.
  intros Hinv%u_reachable_invariant Hu Hv Hfalse.
  assert (Hedge : ¬ edge g u v).
  { intros ?%(u_has_edge_true_iff u v g Hinv). congruence. }
  destruct (u_add_edge_cases u v g)
    as [[? _]|[(_ & [?|?] & _)|(_ & _ & _ & g1 & Hadd & Hd1 & Hvs1 & Hmono1 & He1)]];
    try done.
  assert (Hinv1 : invariant g1) by (by apply (u_link_invariant u v g g1)).
  destruct (u_remove_edge_spec u v g1)
    as [(_ & g2 & Hrm & Hd2 & Hvs2 & _ & He2)|[Hn _]].
  2: { destruct Hn. apply He1. auto. }
  exists g1, g2. split_and!; [done | | | done |].
  - apply u_has_edge_true_iff; [done|]. apply He1. auto.
  - intros Hd. apply u_has_edge_true_iff; [done|]. apply He1. auto.
  - split_and!; [congruence | congruence |].
    intros k x. rewrite He2, He1, Hd1. destruct Hinv as (_ & _ & Hsym). split.
    + naive_solver.
    + intros Hkx. split_and!; [by left | |].
      * intros [-> ->]. done.
      * intros (Hd & -> & ->). apply Hedge. by apply Hsym.
Qed.

(** X13. Unweighted list: [add_edges] is all or nothing. Either it throws
    ("Edge already exists." or "Vertex not in graph."), and the graph then
    has the vertices and edges of before the call, the edges added before
    the failing one having been removed again; or it returns, and then every
    edge of the batch is in the graph and no edge of before the call is
    lost. *)
Theorem X13_unweighted_add_edges_all_or_nothing g edges :
  reachable g →
  (∃ e g', add_edges edges g = Throw e g'
           ∧ (e = Edge_already_exists ∨ e = Vertex_not_in_graph)
           ∧ equivalent g g') ∨
  (∃ g', add_edges edges g = Ret tt g'
         ∧ vertices g' = vertices g
         ∧ (∀ a b, (a, b) ∈ edges → has_edge a b g' = Ret true g')
         ∧ (∀ x y, has_edge x y g = Ret true g → has_edge x y g' = Ret true g')).
Proof.
  intros Hinv%u_reachable_invariant.
  assert (Hstart : u_batch_state g [] g).
  { split_and!; [done | done | done | | apply NoDup_nil_2 |].
    - intros k x. rewrite !elem_of_nil. naive_solver.
    - by intros a b ?%elem_of_nil. }
  destruct (u_add_edges_from_spec g edges [] g Hinv Hstart)
    as [(e & g' & Heq & Hequiv & _ & He)|(g' & Heq & Hinv' & Hvs & Hmono & Hall)].
  - left. by exists e, g'.
  - right. exists g'. split_and!; [done | done | |].
    + intros a b Hab. apply u_has_edge_true_iff; auto.
    + intros x y Hxy%u_has_edge_true_iff; [|done].
      apply u_has_edge_true_iff; auto.
Qed.

(** X14. Unweighted list: [add_vertex(v)] for a new [v] returns; afterwards
    [v] is a vertex without children or parents, and [has_edge] answers on
    every pair as before the call. *)
Theorem X14_unweighted_add_vertex_isolated g v :
  reachable g → v ∉ vertices g →
  ∃ g', add_vertex v g = Ret tt g'
    ∧ has_vertex v g' = Ret true g'
    ∧ get_children v g' = Ret ∅ g'
    ∧ get_parents v g' = Ret ∅ g'
    ∧ (∀ x y, result_of (has_edge x y g') = result_of (has_edge x y g)).
Proof.
  intros Hreach Hv. pose proof (u_reachable_invariant g Hreach) as Hinv.
  assert (Hadd : add_vertex v g
                 = Ret tt (mk (directed g) ({[v]} ∪ vertices g) (<[v:=∅]> (adjacency_list g)))).
  { unfold add_vertex, bind, common, AdjacencyListGraphCommon.add_vertex, bind,
      AdjacencyListGraphCommon.has_vertex, gets, modify, assign, modify.
    by rewrite bool_decide_eq_false_2. }
  set (g' := mk (directed g) ({[v]} ∪ vertices g) (<[v:=∅]> (adjacency_list g))) in *.
  assert (Hinv' : invariant g').
  { apply u_reachable_invariant, (reachable_call (Add_vertex v) g); [done|].
    cbn [exec]. by rewrite Hadd. }
  assert (Hedges : ∀ k x, edge g' k x ↔ edge g k x).
  { intros k x. unfold edge, stored. simpl. rewrite lookup_insert.
    destruct (decide (v = k)) as [<-|Hk]; [|done]. simpl. split; [set_solver|].
    intros Hedge. destruct Hinv as (_ & Hends & _).
    destruct (Hends v x Hedge). done. }
  assert (Hv' : v ∈ vertices g') by (simpl; set_solver).
  exists g'. split_and!; [done | | | |].
  - by rewrite u_has_vertex_eq, bool_decide_eq_true_2.
  - rewrite u_get_children_known by done. f_equal. unfold stored. simpl.
    by rewrite lookup_insert_eq.
  - destruct (u_get_parents_known v g' Hv') as (ps & -> & Hps). f_equal.
    apply set_eq. intros x. rewrite Hps, Hedges. split; [|set_solver].
    intros Hedge. destruct Hinv as (_ & Hends & _). destruct (Hends x v Hedge). done.
  - intros x y. by apply u_has_edge_result_ext.
Qed.

(** X15. Unweighted list: [remove_vertex(v)] keeps every edge between other
    vertices: for x and y other than [v], [has_edge(x, y)] answers as before
    the call. *)
Theorem X15_unweighted_remove_vertex_frame g v x y :
  v ∈ vertices g → x ≠ v → y ≠ v →
  ∃ g', remove_vertex v g = Ret tt g'
    ∧ vertices g' = vertices g ∖ {[v]}
    ∧ result_of (has_edge x y g') = result_of (has_edge x y g).
Proof.
  intros Hv Hx Hy. destruct (u_remove_vertex_spec v g)
    as [(_ & g' & Heq & _ & Hvs & _ & _ & Hedge)|[? _]]; [|done].
  exists g'. split_and!; [done..|].
  apply u_has_edge_result_ext. rewrite Hedge. naive_solver.
Qed.

(** X16. Unweighted list: [set_edge_weight(u, v, w)] changes [has_edge] for
    the pair (u, v) only, and in an undirected graph for (v, u) as well,
    where it becomes [w] too; for every other pair [has_edge] answers as
    before the call. *)
Theorem X16_unweighted_set_edge_weight_frame g u v (w : bool) :
  reachable g → u ∈ vertices g → v ∈ vertices g →
  ∃ g', set_edge_weight u v w g = Ret tt g'
    ∧ (directed g = false → has_edge v u g' = Ret w g')
    ∧ (∀ x y, ¬ (x = u ∧ y = v) → (directed g = true ∨ ¬ (x = v ∧ y = u)) →
         result_of (has_edge x y g') = result_of (has_edge x y g)).
Proof.
  intros Hinv%u_reachable_invariant Hu Hv.
  destruct (u_set_edge_weight_edges u v w g Hinv Hu Hv)
    as (g' & Hset & Hinv' & Hd & Hvs & He).
  exists g'. split_and!; [done | |].
  - intros Hund. rewrite u_has_edge_known by (done || congruence).
    f_equal. destruct w.
    + apply bool_decide_eq_true_2. apply He. auto.
    + apply bool_decide_eq_false_2. intros Hedge. apply He in Hedge. naive_solver.
  - intros x y Hxy Hyx. apply u_has_edge_result_ext. rewrite He.
    assert (Hnot : ¬ (directed g = false ∧ x = v ∧ y = u)).
    { intros (Hund & ? & ?). destruct Hyx as [Hdir|Hn]; [congruence | by apply Hn]. }
    destruct w.
    + split; [|auto]. intros [?|[?|?]]; done.
    + split; [by intros [? _] | by intros ?].
Qed.
End unweighted_extras.

(** * The matrix backend between vertex changes *)

Section matrix_tidy.
Context `{Countable Vertex} {EdgeWeight : Type}.
Import AdjacencyMatrixGraph.
Implicit Types (g : t Vertex EdgeWeight) (u v x y : Vertex) (w : EdgeWeight)
  (i j : nat).

Lemma m_assign_indices_position (l : list Vertex) i (vi : gmap Vertex nat) m x :
  NoDup l → l !! m = Some x → assign_indices i l vi !! x = Some (i + m).
Proof.
  revert i vi m. induction l as [|y l IH]; intros i vi m Hnd Hm; [done|].
  apply NoDup_cons in Hnd as [Hy Hnd]. destruct m as [|m]; simpl in *.
  - simplify_eq. rewrite m_assign_indices_other by done.
    rewrite lookup_insert_eq. f_equal. lia.
  - rewrite (IH (S i) _ m) by done. f_equal. lia.
Qed.

Lemma m_cell_at_in_range g i j :
  well_shaped g → i < length (vertices g) → j < length (vertices g) →
  is_Some (cell_at g i j).
Proof.
  intros Hws Hi Hj. destruct (m_read_cell_in_range i j g Hws Hi Hj) as [c Hc].
  unfold read_cell in Hc. destruct (cell_at g i j); [eauto | done].
Qed.

Lemma m_cell_at_bounds g i j c :
  well_shaped g → cell_at g i j = Some c →
  i < length (vertices g) ∧ j < length (vertices g).
Proof.
  intros (Hrows & Hcols & _). unfold cell_at.
  destruct (adjacency_matrix g !! i) as [row|] eqn:Hrow; [|done]. intros Hc.
  split.
  - rewrite <-Hrows. by eapply lookup_lt_Some.
  - rewrite <-(Hcols row) by (by eapply list_elem_of_lookup_2). by eapply lookup_lt_Some.
Qed.

Lemma m_constructor_tidy d (vs : list Vertex) :
  NoDup vs → tidy (constructor (EdgeWeight:=EdgeWeight) d vs).
Proof.
  intros Hnd. split_and!.
  - apply m_constructor_well_shaped.
  - done.
  - intros x i Hi. simpl in *. by rewrite (m_assign_indices_position vs 0 ∅ i x).
  - intros i j c. unfold cell_at. simpl.
    destruct (_ !! i) as [row|] eqn:Hrow; [|done].
    apply lookup_replicate in Hrow as [-> _]. intros [-> _]%lookup_replicate.
    by rewrite lookup_empty.
  - intros _ i j. simpl. by rewrite !lookup_empty.
Qed.

Lemma m_tidy_position g u :
  tidy g → u ∈ vertices g →
  ∃ i, vertices g !! i = Some u ∧ vertex_indices g !! u = Some i
       ∧ i < length (vertices g) ∧ get_vertex_int u g = Ret i g.
Proof.
  intros (Hws & Hnd & Hpos & _) Hu.
  apply list_elem_of_lookup_1 in Hu as [i Hi].
  exists i. split_and!; [done | auto | by eapply lookup_lt_Some |].
  apply m_get_vertex_int_index; [by eapply list_elem_of_lookup_2 | auto].
Qed.

Lemma m_tidy_cell g i j :
  tidy g → i < length (vertices g) → j < length (vertices g) →
  cell_at g i j = Some (match edge_weights g !! (i, j) with
                        | Some _ => Some (i, j)
                        | None => None
                        end).
Proof.
  intros (Hws & _ & _ & Hcells & _) Hi Hj.
  destruct (m_cell_at_in_range g i j Hws Hi Hj) as [c Hc].
  rewrite Hc. f_equal. by apply Hcells.
Qed.

Lemma m_tidy_cells_match_store g : tidy g → cells_match_store g.
Proof.
  intros (Hws & _ & _ & Hcells & _) i j c Hc. rewrite (Hcells i j c Hc).
  destruct (edge_weights g !! (i, j)); split; intros [? ?]; by eauto.
Qed.

(** [has_edge] and [get_edge_weight] of a tidy graph, read off
    [edge_weights]. *)
Lemma m_tidy_has_edge g u v i j :
  tidy g → vertices g !! i = Some u → vertices g !! j = Some v →
  has_edge u v g = Ret (bool_decide (is_Some (edge_weights g !! (i, j)))) g.
Proof.
  intros Htidy Hi Hj. pose proof Htidy as (Hws & _ & Hpos & _).
  assert (Hcell := m_tidy_cell g i j Htidy (lookup_lt_Some _ _ _ Hi) (lookup_lt_Some _ _ _ Hj)).
  rewrite (m_has_edge_cell u v g i j _ (list_elem_of_lookup_2 _ _ _ Hi)
             (list_elem_of_lookup_2 _ _ _ Hj) (Hpos _ _ Hi) (Hpos _ _ Hj) Hcell).
  f_equal. by destruct (edge_weights g !! (i, j)).
Qed.

Lemma m_tidy_get_edge_weight g u v i j :
  tidy g → vertices g !! i = Some u → vertices g !! j = Some v →
  get_edge_weight u v g
  = match edge_weights g !! (i, j) with
    | Some w => Ret w g
    | None => Throw Edge_does_not_exist g
    end.
Proof.
  intros Htidy Hi Hj. pose proof Htidy as (Hws & _ & Hpos & _).
  unfold get_edge_weight, bind.
  rewrite (m_get_vertex_int_index u g i), (m_get_vertex_int_index v g j);
    [|by eapply list_elem_of_lookup_2 | auto | by eapply list_elem_of_lookup_2 | auto].
  unfold read_cell. rewrite m_tidy_cell; [|done | by eapply lookup_lt_Some..].
  destruct (edge_weights g !! (i, j)) as [w|] eqn:Hw; [|done]. by rewrite Hw.
Qed.

(** [edge_weights[edge] = weight] followed by pointing the cell at it. *)
Lemma m_store_and_point g i j w :
  well_shaped g → i < length (vertices g) → j < length (vertices g) →
  ∃ g', write_cell i j (Some (i, j))
          (set_edge_weights (<[(i, j) := w]> (edge_weights g)) g) = Ret tt g'
    ∧ well_shaped g'
    ∧ directed g' = directed g ∧ vertices g' = vertices g
    ∧ vertex_indices g' = vertex_indices g
    ∧ edge_weights g' = <[(i, j) := w]> (edge_weights g)
    ∧ (∀ i' j', cell_at g' i' j'
                = if decide ((i', j') = (i, j)) then Some (Some (i, j)) else cell_at g i' j').
Proof.
  intros Hws Hi Hj.
  set (g1 := set_edge_weights (<[(i, j):=w]> (edge_weights g)) g).
  destruct (m_write_cell_in_range i j (Some (i, j)) g1) as
    (g' & -> & Hws' & Hcell & Hd & Hvs & Hvi & Hew); [done..|].
  exists g'. split_and!; done.
Qed.

(** [edge_weights.erase(edge)] followed by nulling the cell. *)
Lemma m_erase_and_null g i j :
  well_shaped g → i < length (vertices g) → j < length (vertices g) →
  ∃ g', write_cell i j None
          (set_edge_weights (delete (i, j) (edge_weights g)) g) = Ret tt g'
    ∧ well_shaped g'
    ∧ directed g' = directed g ∧ vertices g' = vertices g
    ∧ vertex_indices g' = vertex_indices g
    ∧ edge_weights g' = delete (i, j) (edge_weights g)
    ∧ (∀ i' j', cell_at g' i' j'
                = if decide ((i', j') = (i, j)) then Some None else cell_at g i' j').
Proof.
  intros Hws Hi Hj.
  set (g1 := set_edge_weights (delete (i, j) (edge_weights g)) g).
  destruct (m_write_cell_in_range i j None g1) as
    (g' & -> & Hws' & Hcell & Hd & Hvs & Hvi & Hew); [done..|].
  exists g'. split_and!; done.
Qed.

(** A graph that differs from a tidy one by updates of [edge_weights] at
    keys whose cells were updated to match is tidy. *)
Lemma m_tidy_update g g' :
  tidy g → well_shaped g' →
  directed g' = directed g → vertices g' = vertices g →
  vertex_indices g' = vertex_indices g →
  (∀ i j c, cell_at g' i j = Some c →
            c = match edge_weights g' !! (i, j) with
                | Some _ => Some (i, j)
                | None => None
                end) →
  (directed g = false →
   ∀ i j, edge_weights g' !! (i, j) = edge_weights g' !! (j, i)) →
  tidy g'.
Proof.
  intros (_ & Hnd & Hpos & _ & _) Hws Hd Hvs Hvi Hcells Hsym.
  split_and!; [done | by rewrite Hvs | | done | by rewrite Hd].
  intros x i. rewrite Hvs, Hvi. apply Hpos.
Qed.

Lemma m_tidy_set_edge_weight g u v w i j :
  tidy g → vertices g !! i = Some u → vertices g !! j = Some v →
  ∃ g', set_edge_weight u v w g = Ret tt g' ∧ tidy g'
    ∧ directed g' = directed g ∧ vertices g' = vertices g
    ∧ edge_weights g'
      = if directed g then <[(i, j) := w]> (edge_weights g)
        else <[(j, i) := w]> (<[(i, j) := w]> (edge_weights g)).
Proof.
  intros Htidy Hi Hj. pose proof Htidy as (Hws & _ & Hpos & Hcells & Hsym).
  assert (Hilt : i < length (vertices g)) by (by eapply lookup_lt_Some).
  assert (Hjlt : j < length (vertices g)) by (by eapply lookup_lt_Some).
  unfold set_edge_weight, bind, store_weight, modify, gets.
  rewrite (m_get_vertex_int_index u g i), (m_get_vertex_int_index v g j);
    [|by eapply list_elem_of_lookup_2 | auto | by eapply list_elem_of_lookup_2 | auto].
  destruct (m_store_and_point g i j w Hws Hilt Hjlt)
    as (g1 & Heq1 & Hws1 & Hd1 & Hvs1 & Hvi1 & Hew1 & Hc1).
  rewrite Heq1, Hd1. destruct (directed g) eqn:Hd; simpl.
  - exists g1. split_and!; [done | | congruence | done..].
    apply (m_tidy_update g g1 Htidy Hws1); [congruence | done | done | | congruence].
    intros i' j' c. rewrite Hc1, Hew1, lookup_insert.
    destruct (decide ((i', j') = (i, j))) as [[= -> ->]|Hne].
    + rewrite decide_True by done. by intros ?; simplify_eq.
    + rewrite decide_False by congruence. apply Hcells.
  - assert (Hilt1 : i < length (vertices g1)) by (by rewrite Hvs1).
    assert (Hjlt1 : j < length (vertices g1)) by (by rewrite Hvs1).
    destruct (m_store_and_point g1 j i w Hws1 Hjlt1 Hilt1)
      as (g2 & Heq2 & Hws2 & Hd2 & Hvs2 & Hvi2 & Hew2 & Hc2).
    rewrite Heq2. exists g2. split_and!; [done | | congruence | congruence |].
    + apply (m_tidy_update g g2 Htidy Hws2); [congruence.. | |].
      * intros i' j' c. rewrite Hc2, Hew2, Hc1, Hew1, !lookup_insert.
        destruct (decide ((i', j') = (j, i))) as [[= -> ->]|Hne2].
        { rewrite decide_True by done. by intros ?; simplify_eq. }
        rewrite (decide_False (P:=((j, i) = (i', j')))) by congruence.
        destruct (decide ((i', j') = (i, j))) as [[= -> ->]|Hne1].
        { rewrite decide_True by done. by intros ?; simplify_eq. }
        rewrite decide_False by congruence. apply Hcells.
      * intros _ a b. rewrite Hew2, Hew1, !lookup_insert.
        specialize (Hsym eq_refl a b).
        repeat case_decide; simplify_eq; done.
    + by rewrite Hew2, Hew1.
Qed.

Lemma m_tidy_remove_edge g u v i j :
  tidy g → vertices g !! i = Some u → vertices g !! j = Some v →
  ∃ g', remove_edge u v g = Ret tt g' ∧ tidy g'
    ∧ directed g' = directed g ∧ vertices g' = vertices g
    ∧ edge_weights g'
      = if directed g then delete (i, j) (edge_weights g)
        else delete (j, i) (delete (i, j) (edge_weights g)).
Proof.
  intros Htidy Hi Hj. pose proof Htidy as (Hws & _ & Hpos & Hcells & Hsym).
  assert (Hilt : i < length (vertices g)) by (by eapply lookup_lt_Some).
  assert (Hjlt : j < length (vertices g)) by (by eapply lookup_lt_Some).
  unfold remove_edge, bind, erase_weight, modify, gets.
  rewrite (m_get_vertex_int_index u g i), (m_get_vertex_int_index v g j);
    [|by eapply list_elem_of_lookup_2 | auto | by eapply list_elem_of_lookup_2 | auto].
  unfold read_cell. rewrite m_tidy_cell by done.
  destruct (edge_weights g !! (i, j)) as [w0|] eqn:Hw0.
  2: { exists g. split_and!; [done..|].
       destruct (directed g) eqn:Hd.
       - by rewrite delete_id.
       - rewrite (delete_id _ (i, j)) by done.
         rewrite delete_id; [done|]. by rewrite <-(Hsym eq_refl i j). }
  destruct (m_erase_and_null g i j Hws Hilt Hjlt)
    as (g1 & Heq1 & Hws1 & Hd1 & Hvs1 & Hvi1 & Hew1 & Hc1).
  rewrite Heq1, Hd1. destruct (directed g) eqn:Hd; simpl.
  - exists g1. split_and!; [done | | congruence | done..].
    apply (m_tidy_update g g1 Htidy Hws1); [congruence | done | done | | congruence].
    intros i' j' c. rewrite Hc1, Hew1, lookup_delete.
    destruct (decide ((i', j') = (i, j))) as [[= -> ->]|Hne].
    + rewrite decide_True by done. by intros ?; simplify_eq.
    + rewrite decide_False by congruence. apply Hcells.
  - assert (Hilt1 : i < length (vertices g1)) by (by rewrite Hvs1).
    assert (Hjlt1 : j < length (vertices g1)) by (by rewrite Hvs1).
    destruct (m_erase_and_null g1 j i Hws1 Hjlt1 Hilt1)
      as (g2 & Heq2 & Hws2 & Hd2 & Hvs2 & Hvi2 & Hew2 & Hc2).
    rewrite Heq2. exists g2. split_and!; [done | | congruence | congruence |].
    + apply (m_tidy_update g g2 Htidy Hws2); [congruence.. | |].
      * intros i' j' c. rewrite Hc2, Hew2, Hc1, Hew1, !lookup_delete.
        destruct (decide ((i', j') = (j, i))) as [[= -> ->]|Hne2].
        { rewrite decide_True by done. by intros ?; simplify_eq. }
        rewrite (decide_False (P:=((j, i) = (i', j')))) by congruence.
        destruct (decide ((i', j') = (i, j))) as [[= -> ->]|Hne1].
        { rewrite decide_True by done. by intros ?; simplify_eq. }
        rewrite decide_False by congruence. apply Hcells.
      * intros _ a b. rewrite Hew2, Hew1, !lookup_delete.
        specialize (Hsym eq_refl a b).
        repeat case_decide; simplify_eq; done.
    + by rewrite Hew2, Hew1.
Qed.
End matrix_tidy.

Section matrix_extras.
Context `{Countable Vertex} {EdgeWeight : Type}.
Import AdjacencyMatrixGraph.
Implicit Types (g : t Vertex EdgeWeight) (u v x y : Vertex) (w : EdgeWeight)
  (i j : nat).

Lemma m_set_edge_weight_unknown u v w g :
  tidy g → u ∉ vertices g ∨ v ∉ vertices g →
  set_edge_weight u v w g = Throw Vertex_not_in_graph g.
Proof.
  intros Htidy Huv. unfold set_edge_weight, bind.
  destruct (decide (u ∈ vertices g)) as [Hu|Hu].
  - destruct (m_tidy_position g u Htidy Hu) as (i & _ & _ & _ & ->).
    destruct Huv as [?|Hv]; [done|]. by rewrite m_get_vertex_int_unknown.
  - by rewrite m_get_vertex_int_unknown.
Qed.

Lemma m_remove_edge_unknown u v g :
  tidy g → u ∉ vertices g ∨ v ∉ vertices g →
  remove_edge u v g = Throw Vertex_not_in_graph g.
Proof.
  intros Htidy Huv. unfold remove_edge, bind.
  destruct (decide (u ∈ vertices g)) as [Hu|Hu].
  - destruct (m_tidy_position g u Htidy Hu) as (i & _ & _ & _ & ->).
    destruct Huv as [?|Hv]; [done|]. by rewrite m_get_vertex_int_unknown.
  - by rewrite m_get_vertex_int_unknown.
Qed.

(** X17. Matrix: on a graph built by the constructor (from a duplicate-free
    iteration of the vertex set), [set_edge_weight] and [remove_edge] never
    run out of range and keep the representation consistent: the matrix is
    square of dimension |V|, every vertex is indexed by its position, a cell
    (i, j) is non-null exactly when [edge_weights] has the key (i, j), which
    is then what it points at, and in an undirected graph the weights under
    (i, j) and (j, i) are equal. *)
Theorem X17_matrix_edge_operations_keep_consistency :
  (∀ d (vs : list Vertex), NoDup vs → tidy (constructor (EdgeWeight:=EdgeWeight) d vs)) ∧
  (∀ g u v w, tidy g → ∃ g', state_of (set_edge_weight u v w g) = Some g' ∧ tidy g') ∧
  (∀ g u v, tidy g → ∃ g', state_of (remove_edge u v g) = Some g' ∧ tidy g') ∧
  (∀ g, tidy g → well_shaped g ∧ cells_match_store g).
Proof.
  split_and!.
  - apply m_constructor_tidy.
  - intros g u v w Htidy.
    destruct (decide (u ∈ vertices g ∧ v ∈ vertices g)) as [[Hu Hv]|Hn].
    + destruct (m_tidy_position g u Htidy Hu) as (i & Hi & _).
      destruct (m_tidy_position g v Htidy Hv) as (j & Hj & _).
      destruct (m_tidy_set_edge_weight g u v w i j Htidy Hi Hj) as (g' & -> & ? & _).
      by exists g'.
    + rewrite m_set_edge_weight_unknown by (done || by apply not_and_l in Hn).
      by exists g.
  - intros g u v Htidy.
    destruct (decide (u ∈ vertices g ∧ v ∈ vertices g)) as [[Hu Hv]|Hn].
    + destruct (m_tidy_position g u Htidy Hu) as (i & Hi & _).
      destruct (m_tidy_position g v Htidy Hv) as (j & Hj & _).
      destruct (m_tidy_remove_edge g u v i j Htidy Hi Hj) as (g' & -> & ? & _).
      by exists g'.
    + rewrite m_remove_edge_unknown by (done || by apply not_and_l in Hn).
      by exists g.
  - intros g Htidy. split; [apply Htidy | by apply m_tidy_cells_match_store].
Qed.

(** X18. Matrix: on two vertices of a consistent graph [has_edge] and
    [get_edge_weight] agree: either [has_edge(u, v)] is true and
    [get_edge_weight(u, v)] returns a weight, or [has_edge(u, v)] is false
    and [get_edge_weight(u, v)] throws "Edge does not exist."; no pointer
    read is dangling. *)
Theorem X18_matrix_has_edge_get_edge_weight_agree g u v :
  tidy g → u ∈ vertices g → v ∈ vertices g →
  (has_edge u v g = Ret true g ∧ ∃ w, get_edge_weight u v g = Ret w g) ∨
  (has_edge u v g = Ret false g ∧ get_edge_weight u v g = Throw Edge_does_not_exist g).
Proof.
  intros Htidy Hu Hv.
  destruct (m_tidy_position g u Htidy Hu) as (i & Hi & _).
  destruct (m_tidy_position g v Htidy Hv) as (j & Hj & _).
  rewrite (m_tidy_has_edge g u v i j), (m_tidy_get_edge_weight g u v i j) by done.
  destruct (edge_weights g !! (i, j)) as [w|]; [left | right].
  - split; [done | by eexists].
  - done.
Qed.

Lemma m_tidy_results_same g g' x y i j :
  tidy g → tidy g' → vertices g' = vertices g →
  vertices g !! i = Some x → vertices g !! j = Some y →
  edge_weights g' !! (i, j) = edge_weights g !! (i, j) →
  result_of (has_edge x y g') = result_of (has_edge x y g)
  ∧ result_of (get_edge_weight x y g') = result_of (get_edge_weight x y g).
Proof.
  intros Htidy Htidy' Hvs Hi Hj Hew.
  rewrite (m_tidy_has_edge g x y i j), (m_tidy_has_edge g' x y i j) by congruence.
  rewrite (m_tidy_get_edge_weight g x y i j), (m_tidy_get_edge_weight g' x y i j)
    by congruence.
  rewrite Hew. by destruct (edge_weights g !! (i, j)).
Qed.

(** X19. Matrix: on a consistent graph [set_edge_weight(u, v, w)] also sets
    the mirrored edge when undirected, and changes nothing else: for every
    other pair of vertices [has_edge] and [get_edge_weight] answer as before
    the call. *)
Theorem X19_matrix_set_edge_weight_mirror_and_frame g u v w :
  tidy g → u ∈ vertices g → v ∈ vertices g →
  ∃ g', set_edge_weight u v w g = Ret tt g'
    ∧ (directed g = false →
       has_edge v u g' = Ret true g' ∧ get_edge_weight v u g' = Ret w g')
    ∧ (∀ x y, x ∈ vertices g → y ∈ vertices g →
         ¬ (x = u ∧ y = v) → (directed g = true ∨ ¬ (x = v ∧ y = u)) →
         result_of (has_edge x y g') = result_of (has_edge x y g)
         ∧ result_of (get_edge_weight x y g') = result_of (get_edge_weight x y g)).
Proof.
  intros Htidy Hu Hv.
  destruct (m_tidy_position g u Htidy Hu) as (i & Hi & _).
  destruct (m_tidy_position g v Htidy Hv) as (j & Hj & _).
  destruct (m_tidy_set_edge_weight g u v w i j Htidy Hi Hj)
    as (g' & Hset & Htidy' & Hd & Hvs & Hew).
  exists g'. split_and!; [done | |].
  - intros Hund. rewrite Hund in Hew.
    rewrite (m_tidy_has_edge g' v u j i), (m_tidy_get_edge_weight g' v u j i)
      by congruence.
    by rewrite Hew, lookup_insert_eq.
  - intros x y Hx Hy Hxy Hyx.
    destruct (m_tidy_position g x Htidy Hx) as (a & Ha & _).
    destruct (m_tidy_position g y Htidy Hy) as (b & Hb & _).
    apply (m_tidy_results_same g g' x y a b); try done.
    assert (Hne1 : (i, j) ≠ (a, b)).
    { intros [= -> ->]. apply Hxy. split; congruence. }
    rewrite Hew. destruct (directed g) eqn:Hdir.
    + by rewrite lookup_insert_ne.
    + assert (Hne2 : (j, i) ≠ (a, b)).
      { intros [= -> ->]. destruct Hyx as [?|Hn]; [done|]. apply Hn. split; congruence. }
      by rewrite !lookup_insert_ne.
Qed.

(** X20. Matrix: on a consistent graph [remove_edge(u, v)] right after
    [set_edge_weight(u, v, w)] returns, loops included; afterwards
    [has_edge(u, v)] is false and [get_edge_weight(u, v)] throws "Edge does
    not exist.", and in an undirected graph [has_edge(v, u)] is false too. *)
Theorem X20_matrix_set_then_remove g u v w :
  tidy g → u ∈ vertices g → v ∈ vertices g →
  ∃ g1 g2, set_edge_weight u v w g = Ret tt g1
    ∧ remove_edge u v g1 = Ret tt g2
    ∧ has_edge u v g2 = Ret false g2
    ∧ get_edge_weight u v g2 = Throw Edge_does_not_exist g2
    ∧ (directed g = false → has_edge v u g2 = Ret false g2).
Proof.
  intros Htidy Hu Hv.
  destruct (m_tidy_position g u Htidy Hu) as (i & Hi & _).
  destruct (m_tidy_position g v Htidy Hv) as (j & Hj & _).
  destruct (m_tidy_set_edge_weight g u v w i j Htidy Hi Hj)
    as (g1 & Hset & Htidy1 & Hd1 & Hvs1 & Hew1).
  destruct (m_tidy_remove_edge g1 u v i j Htidy1) as (g2 & Hrm & Htidy2 & Hd2 & Hvs2 & Hew2);
    [congruence..|].
  assert (Hnone : edge_weights g2 !! (i, j) = None).
  { rewrite Hew2. destruct (directed g1).
    - apply lookup_delete_eq.
    - rewrite lookup_delete. case_decide; [done | apply lookup_delete_eq]. }
  exists g1, g2. split_and!; [done | done | | |].
  - rewrite (m_tidy_has_edge g2 u v i j) by congruence. by rewrite Hnone.
  - rewrite (m_tidy_get_edge_weight g2 u v i j) by congruence. by rewrite Hnone.
  - intros Hund. rewrite (m_tidy_has_edge g2 v u j i) by congruence.
    rewrite Hew2, Hd1, Hund. by rewrite lookup_delete_eq.
Qed.

Lemma m_scan_cells_spec (read : nat → M (t Vertex EdgeWeight) cell)
    (f : nat → cell) g N :
  (∀ k, k < N → read k g = Ret (f k) g) →
  ∀ (vs : list Vertex) k, k + length vs ≤ N →
    ∃ s : gset Vertex, scan_cells read k vs g = Ret s g
      ∧ ∀ x, x ∈ s ↔ ∃ m, vs !! m = Some x ∧ is_Some (f (k + m)).
Proof.
  intros Hread vs. induction vs as [|y vs IH]; intros k Hk; simpl.
  - exists ∅. split; [done|]. intros x. split; [set_solver | by intros (m & ? & _)].
  - simpl in Hk. unfold bind. rewrite Hread by lia.
    destruct (IH (S k)) as (s & -> & Hs); [lia|]. unfold ret.
    eexists. split; [reflexivity|]. intros x.
    assert (Htail : x ∈ s ↔ ∃ m, (y :: vs) !! S m = Some x ∧ is_Some (f (k + S m))).
    { rewrite Hs. by setoid_rewrite Nat.add_succ_r. }
    destruct (f k) as [e|] eqn:Hfk.
    + rewrite elem_of_union, elem_of_singleton, Htail. split.
      * intros [->|(m & ? & ?)]; [|by exists (S m)].
        exists 0. rewrite Nat.add_0_r, Hfk. by eauto.
      * intros ([|m] & Hm & Hsome); [left; by simplify_eq/= | right; by exists m].
    + rewrite Htail. split.
      * intros (m & ? & ?). by exists (S m).
      * intros ([|m] & Hm & Hsome); [|by exists m].
        rewrite Nat.add_0_r, Hfk in Hsome. by destruct Hsome.
Qed.

(** X21. Matrix: on a consistent graph, for a vertex [v], [get_children(v)]
    is the set of the vertices [x] with [has_edge(v, x)] and [get_parents(v)]
    the set of the vertices [x] with [has_edge(x, v)]; in an undirected
    graph the two sets are equal. *)
Theorem X21_matrix_family_agrees_with_has_edge g v :
  tidy g → v ∈ vertices g →
  ∃ children parents : gset Vertex,
    get_children v g = Ret children g
    ∧ get_parents v g = Ret parents g
    ∧ (∀ x, x ∈ children ↔ x ∈ vertices g ∧ has_edge v x g = Ret true g)
    ∧ (∀ x, x ∈ parents ↔ x ∈ vertices g ∧ has_edge x v g = Ret true g)
    ∧ (directed g = false → children = parents).
Proof.
  intros Htidy Hv. pose proof Htidy as (Hws & Hnd & Hpos & Hcells & Hsym).
  destruct (m_tidy_position g v Htidy Hv) as (i & Hi & _ & Hilt & Hgi).
  set (stored a b := match edge_weights g !! (a, b) with
                     | Some _ => Some (a, b)
                     | None => None
                     end : cell).
  destruct (m_scan_cells_spec (λ u_index, read_cell i u_index) (stored i) g
              (length (vertices g))) with (vs := vertices g) (k := 0)
    as (cs & Hcs & Hcs_spec).
  { intros k Hk. unfold read_cell. by rewrite m_tidy_cell. }
  { simpl. lia. }
  destruct (m_scan_cells_spec (λ u_index, read_cell u_index i) (λ a, stored a i) g
              (length (vertices g))) with (vs := vertices g) (k := 0)
    as (ps & Hps & Hps_spec).
  { intros k Hk. unfold read_cell. by rewrite m_tidy_cell. }
  { simpl. lia. }
  assert (Hstored : ∀ a b, is_Some (stored a b) ↔ is_Some (edge_weights g !! (a, b))).
  { intros a b. unfold stored. destruct (edge_weights g !! (a, b)); split; by eauto. }
  assert (Hedge : ∀ x y a b, vertices g !! a = Some x → vertices g !! b = Some y →
            has_edge x y g = Ret true g ↔ is_Some (edge_weights g !! (a, b))).
  { intros x y a b Ha Hb. rewrite (m_tidy_has_edge g x y a b) by done. split.
    - intros Heq. apply (bool_decide_eq_true_1 _). congruence.
    - intros Hs. by rewrite bool_decide_eq_true_2. }
  assert (Hcs_iff : ∀ x, x ∈ cs ↔ x ∈ vertices g ∧ has_edge v x g = Ret true g).
  { intros x. rewrite Hcs_spec. split.
    - intros (m & Hm & Hs). split; [by eapply list_elem_of_lookup_2|].
      apply (Hedge v x i m); [done..|]. by apply Hstored.
    - intros (Hx & He). apply list_elem_of_lookup_1 in Hx as [m Hm].
      exists m. split; [done|]. apply Hstored. by apply (Hedge v x i m). }
  assert (Hps_iff : ∀ x, x ∈ ps ↔ x ∈ vertices g ∧ has_edge x v g = Ret true g).
  { intros x. rewrite Hps_spec. split.
    - intros (m & Hm & Hs). split; [by eapply list_elem_of_lookup_2|].
      apply (Hedge x v m i); [done..|]. by apply Hstored.
    - intros (Hx & He). apply list_elem_of_lookup_1 in Hx as [m Hm].
      exists m. split; [done|]. apply Hstored. by apply (Hedge x v m i). }
  exists cs, ps. split_and!.
  - unfold get_children, bind. by rewrite Hgi.
  - unfold get_parents, bind. by rewrite Hgi.
  - done.
  - done.
  - intros Hund. apply set_eq. intros x. rewrite Hcs_iff, Hps_iff.
    split; intros (Hx & He); (split; [done|]);
      apply list_elem_of_lookup_1 in Hx as [m Hm].
    + apply (Hedge x v m i); [done..|]. rewrite (Hsym Hund).
      by apply (Hedge v x i m).
    + apply (Hedge v x i m); [done..|]. rewrite (Hsym Hund).
      by apply (Hedge x v m i).
Qed.
End matrix_extras.

(** * The matrix backend when vertices are added or removed *)

Section matrix_growth.
Context `{Countable Vertex} {EdgeWeight : Type}.
Import AdjacencyMatrixGraph.
Implicit Types (g : t Vertex EdgeWeight) (u v x y : Vertex) (w : EdgeWeight)
  (i j : nat).

Lemma m_scan_cells_undef (read : nat → M (t Vertex EdgeWeight) cell) g :
  ∀ (vs : list Vertex) k m,
    m < length vs → read (k + m) g = Undef →
    (∀ a, a < m → ∃ c, read (k + a) g = Ret c g) →
    scan_cells read k vs g = Undef.
Proof.
  intros vs. induction vs as [|y vs IH]; intros k m Hm Hundef Hbefore; simpl in *.
  - lia.
  - unfold bind. destruct m as [|m].
    + rewrite Nat.add_0_r in Hundef. by rewrite Hundef.
    + destruct (Hbefore 0) as [c Hc]; [lia|]. rewrite Nat.add_0_r in Hc. rewrite Hc.
      rewrite (IH (S k) m); [done | lia | |].
      * by rewrite Nat.add_succ_comm.
      * intros a Ha. destruct (Hbefore (S a)) as [c' Hc']; [lia|].
        exists c'. by rewrite Nat.add_succ_comm.
Qed.

Lemma m_add_vertex_cells v g :
  well_shaped g →
  let n := length (vertices g) in
  let g' := mk (directed g)
               (((λ row, row ++ [None]) <$> adjacency_matrix g)
                  ++ [replicate (length (vertices g)) None])
               (edge_weights g)
               (<[v := length (vertices g)]> (vertex_indices g))
               (vertices g ++ [v]) in
  (∀ i j, i < n → j < n → cell_at g' i j = cell_at g i j) ∧
  (∀ i, i < n → cell_at g' i n = Some None) ∧
  (∀ j, j < n → cell_at g' n j = Some None) ∧
  cell_at g' n n = None.
Proof.
  intros Hws n g'. pose proof Hws as (Hrows & Hlen & _).
  unfold cell, cell_at in *.
  assert (Hn : length (adjacency_matrix g) = n) by done.
  assert (Hold : ∀ i, i < n → ∃ row, adjacency_matrix g !! i = Some row
            ∧ length row = n
            ∧ adjacency_matrix g' !! i = Some (row ++ [None])).
  { intros i Hi. destruct (m_row_in_range i g Hws Hi) as (row & Hrow & Hl).
    exists row. split_and!; [done..|]. simpl.
    rewrite lookup_app_l by (rewrite length_fmap; lia).
    rewrite list_lookup_fmap. unfold cell in *. by rewrite Hrow. }
  assert (Hnew : adjacency_matrix g' !! n = Some (replicate n None)).
  { simpl. rewrite lookup_app_r by (rewrite length_fmap; lia).
    rewrite length_fmap. unfold cell in *. rewrite Hn. by rewrite Nat.sub_diag. }
  unfold cell in *. split_and!.
  - intros i j Hi Hj. destruct (Hold i Hi) as (row & Hr & Hl & Hr').
    rewrite Hr, Hr'. by rewrite lookup_app_l by lia.
  - intros i Hi. destruct (Hold i Hi) as (row & _ & Hl & Hr').
    rewrite Hr', lookup_app_r by lia. by replace (n - length row) with 0 by lia.
  - intros j Hj. rewrite Hnew. by rewrite lookup_replicate_2.
  - rewrite Hnew. apply lookup_replicate_None. lia.
Qed.

(** X22. Matrix: [add_vertex(v)] with a new vertex on a square matrix keeps
    every answer of [has_edge] and [get_edge_weight] between the old
    vertices, and the new vertex has no edge to or from an old one. *)
Theorem X22_matrix_add_vertex_keeps_old_edges g v :
  well_shaped g → v ∉ vertices g →
  ∃ g', add_vertex v g = Ret tt g'
    ∧ has_vertex v g' = Ret true g'
    ∧ (∀ x y, x ∈ vertices g → y ∈ vertices g →
         result_of (has_edge x y g') = result_of (has_edge x y g)
         ∧ result_of (get_edge_weight x y g') = result_of (get_edge_weight x y g))
    ∧ (∀ x, x ∈ vertices g →
         has_edge x v g' = Ret false g' ∧ has_edge v x g' = Ret false g').
Proof.
  intros Hws Hv. eexists. split; [by apply m_add_vertex_fresh|].
  destruct (m_add_vertex_cells v g Hws) as (Hold & Hcol & Hrow & _).
  set (g' := mk _ _ _ _ _) in *. set (n := length (vertices g)) in *.
  assert (Hin : ∀ x, x ∈ vertices g → x ∈ vertices g').
  { intros x Hx. simpl. apply elem_of_app. by left. }
  assert (Hvin : v ∈ vertices g').
  { simpl. apply elem_of_app. right. by apply list_elem_of_singleton. }
  assert (Hidx : ∀ x, x ∈ vertices g → ∃ i, i < n
            ∧ get_vertex_int x g = Ret i g ∧ get_vertex_int x g' = Ret i g').
  { intros x Hx. destruct (m_get_vertex_int_known x g Hws Hx) as (i & Hg & Hi & Hlt).
    exists i. split_and!; [done..|]. apply m_get_vertex_int_index; [by apply Hin|].
    simpl. rewrite lookup_insert_ne; [done|]. by intros ->. }
  assert (Hvidx : get_vertex_int v g' = Ret n g').
  { apply m_get_vertex_int_index; [done|]. simpl. by rewrite lookup_insert_eq. }
  split_and!.
  - unfold has_vertex, gets. by rewrite bool_decide_eq_true_2.
  - intros x y Hx Hy.
    destruct (Hidx x Hx) as (i & Hi & Hxi & Hxi').
    destruct (Hidx y Hy) as (j & Hj & Hyj & Hyj').
    unfold has_edge, get_edge_weight, bind. rewrite Hxi, Hxi', Hyj, Hyj'.
    unfold read_cell. rewrite (Hold i j Hi Hj).
    destruct (cell_at g i j) as [[e|]|]; simpl; try done.
    by destruct (edge_weights g !! e).
  - intros x Hx. destruct (Hidx x Hx) as (i & Hi & _ & Hxi').
    split; unfold has_edge, bind, read_cell.
    + by rewrite Hxi', Hvidx, (Hcol i Hi).
    + by rewrite Hvidx, Hxi', (Hrow i Hi).
Qed.

(** X23. Matrix: after [add_vertex(v)] with a new vertex on a square
    matrix, [get_children(v)] and [get_parents(v)] both read the cell
    (n, n) that the short new row does not have: undefined behaviour. *)
Theorem X23_matrix_family_of_added_vertex_undefined g v :
  well_shaped g → v ∉ vertices g →
  ∃ g', add_vertex v g = Ret tt g'
    ∧ get_children v g' = Undef
    ∧ get_parents v g' = Undef.
Proof.
  intros Hws Hv. eexists. split; [by apply m_add_vertex_fresh|].
  destruct (m_add_vertex_cells v g Hws) as (Hold & Hcol & Hrow & Hnn).
  set (g' := mk _ _ _ _ _) in *. set (n := length (vertices g)) in *.
  assert (Hvidx : get_vertex_int v g' = Ret n g').
  { apply m_get_vertex_int_index; [|by simpl; rewrite lookup_insert_eq].
    simpl. apply elem_of_app. right. by apply list_elem_of_singleton. }
  assert (Hlen : n < length (vertices g')).
  { simpl. rewrite length_app. simpl. fold n. lia. }
  split.
  - unfold get_children, bind, gets. rewrite Hvidx.
    apply (m_scan_cells_undef _ g' (vertices g') 0 n); [done | |].
    + simpl. unfold read_cell. by rewrite Hnn.
    + intros a Ha. simpl. unfold read_cell. rewrite (Hrow a Ha). by eexists.
  - unfold get_parents, bind, gets. rewrite Hvidx.
    apply (m_scan_cells_undef _ g' (vertices g') 0 n); [done | |].
    + simpl. unfold read_cell. by rewrite Hnn.
    + intros a Ha. simpl. unfold read_cell. rewrite (Hcol a Ha). by eexists.
Qed.
End matrix_growth.

Section matrix_batches.
Context `{Countable Vertex} {EdgeWeight : Type}.
Import AdjacencyMatrixGraph.
Implicit Types (g : t Vertex EdgeWeight) (u v x y : Vertex) (w : EdgeWeight)
  (i j : nat).

Lemma m_array_init_later {A} n (x dflt : A) l k :
  array_init n x dflt = Some l → 0 < k → k < n → l !! k = Some dflt.
Proof.
  intros Hl Hk Hn. destruct n as [|n]; [lia|]. destruct k as [|k]; [lia|].
  simplify_eq/=. apply lookup_replicate_2. lia.
Qed.

(** X24. Matrix: [add_vertices] with a batch of new vertices on a square
    matrix numbers the new vertices from the vertex count AFTER the
    insertion, so a new vertex gets an index that is not below |V|, and its
    row is one of the empty rows appended: [has_edge(v, x)],
    [get_edge_weight(v, x)] and [set_edge_weight(v, x, w)] are undefined
    behaviour for a new vertex [v] and any vertex [x]. *)
Theorem X24_matrix_add_vertices_new_vertex_unusable (new_vertices : list Vertex) g v :
  well_shaped g → (∀ y, y ∈ new_vertices → y ∉ vertices g) → v ∈ new_vertices →
  ∃ g' k, add_vertices new_vertices g = Ret tt g'
    ∧ vertices g' = vertices g ++ new_vertices
    ∧ vertex_indices g' !! v = Some k ∧ length (vertices g') ≤ k
    ∧ adjacency_matrix g' !! k = Some []
    ∧ (∀ x, x ∈ vertices g' →
         has_edge v x g' = Undef ∧ get_edge_weight v x g' = Undef
         ∧ ∀ w, set_edge_weight v x w g' = Undef).
Proof.
  intros Hws Hfresh Hv. pose proof Hws as (Hrows & Hlen & Hidx).
  set (n := length (vertices g)) in *. set (b := length new_vertices).
  assert (Hb : 0 < b).
  { subst b. destruct new_vertices; [by apply elem_of_nil in Hv | simpl; lia]. }
  destruct (m_assign_indices_range (n + b) new_vertices (vertex_indices g) v Hv)
    as (k & Hk & Hrange).
  assert (Hsize : length (vertices g ++ new_vertices) + length new_vertices
                  = S (n + b + b - 1)).
  { rewrite length_app. fold n b. lia. }
  eexists _, k. split.
  { unfold add_vertices. rewrite m_add_vertices_no_duplicate by done.
    rewrite Hsize. simpl. reflexivity. }
  rewrite !length_app. fold n b.
  set (g' := mk _ _ _ _ _).
  assert (Hrowk : adjacency_matrix g' !! k = Some []).
  { simpl. unfold cell in *. rewrite lookup_app_r by (rewrite length_fmap; lia).
    rewrite length_fmap, Hrows.
    apply (m_array_init_later (S (n + b + b - 1))
             (replicate (S (n + b + b - 1)) (None : option (nat * nat))) []);
      [done | lia..]. }
  assert (Hvin : v ∈ vertices g') by (simpl; apply elem_of_app; by right).
  assert (Hvk : get_vertex_int v g' = Ret k g') by by apply m_get_vertex_int_index.
  split_and!; [done | done | simpl; rewrite length_app; fold n b; lia | done |].
  intros x Hx.
  assert (Hxj : ∃ j, get_vertex_int x g' = Ret j g') .
  { destruct (decide (x ∈ new_vertices)) as [Hnew|Hold].
    - destruct (m_assign_indices_range (n + b) new_vertices (vertex_indices g) x Hnew)
        as (j & Hj & _).
      exists j. by apply m_get_vertex_int_index.
    - simpl in Hx. apply elem_of_app in Hx as [Hx|?]; [|done].
      destruct (Hidx x Hx) as (j & Hj & _). exists j.
      apply m_get_vertex_int_index; [simpl; apply elem_of_app; by left|].
      simpl. by rewrite m_assign_indices_other. }
  destruct Hxj as [j Hxj].
  assert (Hcell : cell_at g' k j = None).
  { unfold cell_at. by rewrite Hrowk. }
  split_and!.
  - unfold has_edge, bind, read_cell. by rewrite Hvk, Hxj, Hcell.
  - unfold get_edge_weight, bind, read_cell. by rewrite Hvk, Hxj, Hcell.
  - intros w. unfold set_edge_weight, bind. rewrite Hvk, Hxj.
    unfold store_weight, modify, write_cell. simpl adjacency_matrix.
    simpl in Hrowk. unfold cell in *. rewrite Hrowk. simpl. done.
Qed.

Lemma m_for_each_same_shape {A} (body : A → M (t Vertex EdgeWeight) unit) g (l : list A) :
  (∀ a g1, a ∈ l → m_same_shape g g1 → ∃ g2, body a g1 = Ret tt g2 ∧ m_same_shape g g2) →
  ∀ g1, m_same_shape g g1 → ∃ g2, for_each l body g1 = Ret tt g2 ∧ m_same_shape g g2.
Proof.
  induction l as [|a l IH]; intros Hbody g1 Hg1; simpl.
  - by exists g1.
  - unfold bind. destruct (Hbody a g1) as (g2 & -> & Hg2); [by left | done |].
    apply IH; [|done]. intros a' g3 Ha'. apply Hbody. by right.
Qed.

Lemma m_erase_columns_undefined v_index :
  ∀ m a g, a ≤ length (adjacency_matrix g) → length (adjacency_matrix g) < a + m →
    for_each (seq a m) (erase_column v_index) g = Undef.
Proof.
  induction m as [|m IH]; intros a g Ha Hm; [lia|]. simpl. unfold bind.
  unfold erase_column at 1.
  destruct (adjacency_matrix g !! a) as [row|] eqn:Hrow; [|done].
  destruct (decide (v_index < length row)); [|done].
  apply IH; simpl; rewrite length_insert.
  - by apply lookup_lt_Some in Hrow.
  - lia.
Qed.

Lemma m_same_shape_refl g : m_same_shape g g.
Proof. done. Qed.

Lemma m_same_shape_well_shaped g g' : well_shaped g → m_same_shape g g' → well_shaped g'.
Proof. intros Hws (_ & ? & ? & ?). by apply (m_well_shaped_same g). Qed.

Lemma m_family_members v g :
  well_shaped g → v ∈ vertices g →
  ∃ children parents : gset Vertex,
    get_children v g = Ret children g ∧ get_parents v g = Ret parents g
    ∧ (∀ x, x ∈ children → x ∈ vertices g) ∧ (∀ x, x ∈ parents → x ∈ vertices g).
Proof.
  intros Hws Hv. destruct (m_get_vertex_int_known v g Hws Hv) as (i & Hgi & _ & Hi).
  destruct (m_scan_cells_spec (λ u_index, read_cell i u_index)
              (λ k, default None (cell_at g i k)) g
              (length (vertices g))) with (vs := vertices g) (k := 0)
    as (cs & Hcs & Hcs_spec).
  { intros k Hk. destruct (m_read_cell_in_range i k g Hws Hi Hk) as [c Hc].
    rewrite Hc. unfold read_cell in Hc. by destruct (cell_at g i k); simplify_eq/=. }
  { simpl. lia. }
  destruct (m_scan_cells_spec (λ u_index, read_cell u_index i)
              (λ k, default None (cell_at g k i)) g
              (length (vertices g))) with (vs := vertices g) (k := 0)
    as (ps & Hps & Hps_spec).
  { intros k Hk. destruct (m_read_cell_in_range k i g Hws Hk Hi) as [c Hc].
    rewrite Hc. unfold read_cell in Hc. by destruct (cell_at g k i); simplify_eq/=. }
  { simpl. lia. }
  exists cs, ps. split_and!.
  - unfold get_children, bind. by rewrite Hgi.
  - unfold get_parents, bind. by rewrite Hgi.
  - intros x (m & Hm & _)%Hcs_spec. by eapply list_elem_of_lookup_2.
  - intros x (m & Hm & _)%Hps_spec. by eapply list_elem_of_lookup_2.
Qed.

Lemma m_erase_neighbor_weights g (l : list Vertex)
    (erase : nat → M (t Vertex EdgeWeight) unit) :
  well_shaped g → (∀ x, x ∈ l → x ∈ vertices g) →
  (∀ n g1, m_same_shape g g1 → ∃ g2, erase n g1 = Ret tt g2 ∧ m_same_shape g g2) →
  ∀ g1, m_same_shape g g1 →
    ∃ g2, for_each l (λ x, let* neighbor_index := get_vertex_int x in
                           erase neighbor_index) g1 = Ret tt g2
          ∧ m_same_shape g g2.
Proof.
  intros Hws Hl Herase. apply m_for_each_same_shape. intros x g1 Hx Hg1.
  pose proof (m_same_shape_well_shaped g g1 Hws Hg1) as Hws1.
  destruct (m_get_vertex_int_known x g1 Hws1) as (j & Hj & _).
  { destruct Hg1 as (_ & _ & _ & ->). by apply Hl. }
  unfold bind. rewrite Hj. by apply Herase.
Qed.

Lemma m_erase_weight_same_shape g edge g1 :
  m_same_shape g g1 → ∃ g2, erase_weight edge g1 = Ret tt g2 ∧ m_same_shape g g2.
Proof. intros (? & ? & ? & ?). by eexists. Qed.

Lemma m_length_erase_at {A} n (l : list A) :
  n < length l → S (length (erase_at n l)) = length l.
Proof.
  intros Hn. unfold erase_at. rewrite length_app, length_take, length_drop. lia.
Qed.

(** X25. Matrix: [remove_vertex(v)] of a vertex of a square matrix always
    runs out of range: the row of [v] is erased first, and the column loop
    then runs over [vertices.size()] rows, one more than the matrix has
    left. *)
Theorem X25_matrix_remove_vertex_undefined g v :
  well_shaped g → v ∈ vertices g → remove_vertex v g = Undef.
Proof.
  intros Hws Hv. pose proof Hws as (Hrows & _).
  destruct (m_get_vertex_int_known v g Hws Hv) as (i & Hgi & _ & Hi).
  destruct (m_family_members v g Hws Hv) as (cs & ps & Hcs & _ & Hcs_in & _).
  assert (Hweights : ∃ g2,
    (if directed g then
       let* children := get_children v in
       let* _ := for_each (elements children) (λ child,
                   let* neighbor_index := get_vertex_int child in
                   erase_weight (i, neighbor_index)) in
       let* parents := get_parents v in
       for_each (elements parents) (λ parent,
         let* neighbor_index := get_vertex_int parent in
         erase_weight (neighbor_index, i))
     else
       let* children := get_children v in
       for_each (elements children) (λ child,
         let* neighbor_index := get_vertex_int child in
         let* _ := erase_weight (i, neighbor_index) in
         erase_weight (neighbor_index, i))) g = Ret tt g2 ∧ m_same_shape g g2).
  { destruct (directed g); unfold bind at 1; rewrite Hcs.
    - destruct (m_erase_neighbor_weights g (elements cs)
                  (λ n, erase_weight (i, n)) Hws) with (g1 := g)
        as (g1 & Hg1 & Hs1).
      { intros x Hx. apply Hcs_in. by apply elem_of_elements. }
      { intros n g1. apply m_erase_weight_same_shape. }
      { apply m_same_shape_refl. }
      unfold bind at 1. rewrite Hg1.
      pose proof (m_same_shape_well_shaped g g1 Hws Hs1) as Hws1.
      assert (Hv1 : v ∈ vertices g1) by (by destruct Hs1 as (_ & _ & _ & ->)).
      destruct (m_family_members v g1 Hws1 Hv1) as (_ & ps1 & _ & Hps & _ & Hps_in).
      unfold bind. rewrite Hps.
      apply (m_erase_neighbor_weights g (elements ps1) (λ n, erase_weight (n, i)) Hws);
        [| |done].
      + intros x Hx%elem_of_elements%Hps_in. by destruct Hs1 as (_ & _ & _ & <-).
      + intros n g2. apply m_erase_weight_same_shape.
    - apply (m_erase_neighbor_weights g (elements cs)
               (λ n, let* _ := erase_weight (i, n) in erase_weight (n, i)) Hws).
      + intros x Hx. apply Hcs_in. by apply elem_of_elements.
      + intros n g1 (? & ? & ? & ?). by eexists.
      + apply m_same_shape_refl. }
  destruct Hweights as (g2 & Hg2 & Hd2 & Hm2 & Hi2 & Hv2).
  unfold remove_vertex. unfold bind at 1. rewrite Hgi.
  unfold bind at 1, gets at 1. unfold bind at 1. rewrite Hg2.
  unfold bind at 1. rewrite Hm2.
  rewrite decide_True by (unfold cell in *; lia).
  unfold bind at 1, gets at 1. unfold bind at 1.
  rewrite m_erase_columns_undefined; [done | lia |].
  simpl. rewrite Hv2. pose proof (m_length_erase_at i (adjacency_matrix g)) as Hlen.
  unfold cell in *. lia.
Qed.
End matrix_batches.

(** * Unknown vertices *)

Section unknown_vertices.
Context `{Countable Vertex} {EdgeWeight : Type}.

Lemma w_remove_edge_unknown u v (g : AdjacencyListGraph.t Vertex EdgeWeight) :
  u ∉ AdjacencyListGraph.vertices g ∨ v ∉ AdjacencyListGraph.vertices g →
  AdjacencyListGraph.remove_edge u v g = Throw Vertex_not_in_graph g.
Proof.
  intros Huv. unfold AdjacencyListGraph.remove_edge, bind.
  rewrite !w_has_vertex_eq.
  destruct Huv as [Hu|Hv].
  - by rewrite (bool_decide_eq_false_2 _ Hu).
  - rewrite (bool_decide_eq_false_2 _ Hv). by rewrite orb_true_r.
Qed.

Lemma u_remove_edge_unknown u v (g : AdjacencyListGraphBool.t Vertex) :
  AdjacencyListGraphBool.invariant g →
  u ∉ AdjacencyListGraphBool.vertices g ∨ v ∉ AdjacencyListGraphBool.vertices g →
  ∃ g', AdjacencyListGraphBool.remove_edge u v g
        = Throw Remove_edge_that_doesnt_exist g'
        ∧ AdjacencyListGraphBool.equivalent g g'.
Proof.
  intros Hinv Huv. destruct (u_has_edge_unknown u v g Hinv Huv) as [g' Hg'].
  pose proof Hg' as Heq. rewrite u_has_edge_eq in Heq.
  unfold AdjacencyListGraphBool.remove_edge, bind. rewrite Hg'. simpl.
  exists g'. split; [done|]. simplify_eq. apply u_touch_equivalent.
Qed.

Lemma m_remove_edge_unknown_vertex u v (g : AdjacencyMatrixGraph.t Vertex EdgeWeight) :
  AdjacencyMatrixGraph.well_shaped g →
  u ∉ AdjacencyMatrixGraph.vertices g ∨ v ∉ AdjacencyMatrixGraph.vertices g →
  AdjacencyMatrixGraph.remove_edge u v g = Throw Vertex_not_in_graph g.
Proof.
  intros Hws Huv. unfold AdjacencyMatrixGraph.remove_edge, bind.
  destruct (decide (u ∈ AdjacencyMatrixGraph.vertices g)) as [Hu|Hu].
  - destruct (m_get_vertex_int_known u g Hws Hu) as (i & -> & _).
    destruct Huv as [?|Hv]; [done|]. by rewrite m_get_vertex_int_unknown.
  - by rewrite m_get_vertex_int_unknown.
Qed.

(** X26. [remove_edge(u, v)] with [u] or [v] not in the graph throws in all
    three backends, but not the same error: the weighted list and the matrix
    throw "Vertex not in graph." and leave the object unchanged, the
    unweighted list throws "Attempting to remove edge that doesn't exist."
    and leaves a graph with the same vertices and edges. *)
Theorem X26_remove_edge_unknown_vertex u v :
  (∀ g : AdjacencyListGraph.t Vertex EdgeWeight,
     u ∉ AdjacencyListGraph.vertices g ∨ v ∉ AdjacencyListGraph.vertices g →
     AdjacencyListGraph.remove_edge u v g = Throw Vertex_not_in_graph g) ∧
  (∀ g : AdjacencyListGraphBool.t Vertex,
     AdjacencyListGraphBool.reachable g →
     u ∉ AdjacencyListGraphBool.vertices g ∨ v ∉ AdjacencyListGraphBool.vertices g →
     ∃ g', AdjacencyListGraphBool.remove_edge u v g
           = Throw Remove_edge_that_doesnt_exist g'
           ∧ AdjacencyListGraphBool.equivalent g g') ∧
  (∀ g : AdjacencyMatrixGraph.t Vertex EdgeWeight,
     AdjacencyMatrixGraph.well_shaped g →
     u ∉ AdjacencyMatrixGraph.vertices g ∨ v ∉ AdjacencyMatrixGraph.vertices g →
     AdjacencyMatrixGraph.remove_edge u v g = Throw Vertex_not_in_graph g).
Proof.
  split_and!.
  - intros g. apply w_remove_edge_unknown.
  - intros g Hg. apply u_remove_edge_unknown. by apply u_reachable_invariant.
  - intros g. apply m_remove_edge_unknown_vertex.
Qed.
End unknown_vertices.

(** * The lemmas at the sample graphs *)

Ltac evaluate :=
  first [ reflexivity
        | vm_compute; reflexivity
        | apply (bool_decide_eq_true_1 _); vm_compute; reflexivity ].

Section weighted_samples.
Import AdjacencyListGraph.
Local Open Scope Z_scope.

Lemma weighted_graph_reachable d : reachable (weighted_graph d).
Proof. apply reachable_constructor. Qed.

Lemma weighted_graph_with_edge_reachable d : reachable (weighted_graph_with_edge d).
Proof.
  apply (reachable_call (Set_edge_weight 1 2 5) (weighted_graph d));
    [apply reachable_constructor | by destruct d; vm_compute].
Qed.

Lemma weighted_graph_with_loop_reachable : reachable weighted_graph_with_loop.
Proof.
  apply (reachable_call (Set_edge_weight 1 1 5) (weighted_graph false));
    [apply reachable_constructor | by vm_compute].
Qed.

Lemma X1_weighted_set_edge_weight_frame_witness :
  ∃ g', set_edge_weight 1 2 5 (weighted_graph false) = Ret tt g'
    ∧ result_of (has_edge 2 3 g') = result_of (has_edge 2 3 (weighted_graph false))
    ∧ result_of (get_edge_weight 2 3 g')
      = result_of (get_edge_weight 2 3 (weighted_graph false)).
Proof.
  apply (X1_weighted_set_edge_weight_frame (weighted_graph false) 1 2 5 2 3);
    [apply weighted_graph_reachable | evaluate..].
Defined.

Lemma X2_weighted_undirected_mirror_witness :
  ∃ g', set_edge_weight 1 2 5 (weighted_graph false) = Ret tt g'
    ∧ has_edge 2 1 g' = Ret true g'
    ∧ get_edge_weight 2 1 g' = Ret 5 g'.
Proof.
  apply (X2_weighted_undirected_mirror (weighted_graph false) 1 2 5);
    [apply weighted_graph_reachable | evaluate..].
Defined.

Lemma X3_weighted_set_then_remove_witness :
  ∃ g1 g2, set_edge_weight 1 2 5 (weighted_graph false) = Ret tt g1
    ∧ remove_edge 1 2 g1 = Ret tt g2
    ∧ has_edge 1 2 g2 = Ret false g2
    ∧ get_edge_weight 1 2 g2 = Throw Edge_does_not_exist g2
    ∧ (directed (weighted_graph false) = false →
       has_edge 2 1 g2 = Ret false g2
       ∧ get_edge_weight 2 1 g2 = Throw Edge_does_not_exist g2)
    ∧ (∀ x y, ¬ (x = 1 ∧ y = 2) →
         (directed (weighted_graph false) = true ∨ ¬ (x = 2 ∧ y = 1)) →
         result_of (has_edge x y g2) = result_of (has_edge x y (weighted_graph false))
         ∧ result_of (get_edge_weight x y g2)
           = result_of (get_edge_weight x y (weighted_graph false))).
Proof.
  apply (X3_weighted_set_then_remove (weighted_graph false) 1 2 5);
    [apply weighted_graph_reachable | evaluate..].
Defined.

Lemma X4_weighted_undirected_remove_loop_undefined_witness :
  remove_edge 1 1 weighted_graph_with_loop = Undef.
Proof.
  apply (X4_weighted_undirected_remove_loop_undefined weighted_graph_with_loop 1);
    [apply weighted_graph_with_loop_reachable | evaluate..].
Defined.

Lemma X5_weighted_has_edge_get_edge_weight_agree_witness :
  (has_edge 1 2 (weighted_graph_with_edge true) = Ret true (weighted_graph_with_edge true)
   ∧ ∃ w, get_edge_weight 1 2 (weighted_graph_with_edge true)
          = Ret w (weighted_graph_with_edge true)) ∨
  (has_edge 1 2 (weighted_graph_with_edge true) = Ret false (weighted_graph_with_edge true)
   ∧ get_edge_weight 1 2 (weighted_graph_with_edge true)
     = Throw Edge_does_not_exist (weighted_graph_with_edge true)).
Proof.
  apply (X5_weighted_has_edge_get_edge_weight_agree (weighted_graph_with_edge true) 1 2);
    [apply weighted_graph_with_edge_reachable | evaluate..].
Defined.

Lemma X6_weighted_get_edge_weight_unknown_source_witness :
  result_of (get_edge_weight 7 1 (weighted_graph true)) = Thrown Edge_does_not_exist.
Proof.
  apply (X6_weighted_get_edge_weight_unknown_source (weighted_graph true) 7 1);
    [apply weighted_graph_reachable | evaluate].
Defined.

Lemma X7_weighted_remove_vertex_keeps_weight_witness :
  ∃ g', remove_vertex 2 (weighted_graph_with_edge true) = Ret tt g'
    ∧ has_vertex 2 g' = Ret false g'
    ∧ has_edge 1 2 g' = Ret false g'
    ∧ get_edge_weight 1 2 g' = Ret 5 g'.
Proof.
  apply (X7_weighted_remove_vertex_keeps_weight (weighted_graph_with_edge true) 1 2 5);
    [apply weighted_graph_with_edge_reachable | evaluate..].
Defined.

Lemma X8_weighted_readded_vertex_regains_edges_witness :
  ∃ g1 g2, remove_vertex 2 (weighted_graph_with_edge false) = Ret tt g1
    ∧ add_vertex 2 g1 = Ret tt g2
    ∧ has_edge 1 2 g2 = Ret true g2
    ∧ get_edge_weight 1 2 g2 = Ret 5 g2
    ∧ has_edge 2 1 g2 = Ret false g2
    ∧ (directed (weighted_graph_with_edge false) = false → remove_edge 1 2 g2 = Undef).
Proof.
  apply (X8_weighted_readded_vertex_regains_edges (weighted_graph_with_edge false) 1 2 5);
    [apply weighted_graph_with_edge_reachable | evaluate..].
Defined.

Lemma X9_weighted_family_agrees_with_has_edge_witness :
  ∃ children parents : gset Z,
    get_children 2 (weighted_graph_with_edge true)
    = Ret children (weighted_graph_with_edge true)
    ∧ get_parents 2 (weighted_graph_with_edge true)
      = Ret parents (weighted_graph_with_edge true)
    ∧ (∀ x, x ∈ vertices (weighted_graph_with_edge true) →
         x ∈ children ↔ has_edge 2 x (weighted_graph_with_edge true)
                        = Ret true (weighted_graph_with_edge true))
    ∧ (∀ x, x ∈ parents ↔ x ≠ 2 ∧ has_edge x 2 (weighted_graph_with_edge true)
                                   = Ret true (weighted_graph_with_edge true)).
Proof.
  apply (X9_weighted_family_agrees_with_has_edge (weighted_graph_with_edge true) 2);
    [apply weighted_graph_with_edge_reachable | evaluate].
Defined.
End weighted_samples.

Section unweighted_samples.
Import AdjacencyListGraphBool.
Local Open Scope Z_scope.

Lemma unweighted_graph_reachable d : reachable (unweighted_graph d).
Proof. apply reachable_constructor. Qed.

Lemma unweighted_graph_with_edges_reachable d :
  reachable (unweighted_graph_with_edges d).
Proof.
  apply (reachable_call (Add_edges [(1, 2); (3, 1)]) (unweighted_graph d));
    [apply reachable_constructor | by destruct d; vm_compute].
Qed.

Lemma X10_unweighted_undirected_mirror_witness :
  result_of (has_edge 1 2 (unweighted_graph_with_edges false)) = Returned true
  ∧ result_of (has_edge 1 2 (unweighted_graph_with_edges false))
    = result_of (has_edge 2 1 (unweighted_graph_with_edges false)).
Proof.
  split; [evaluate|].
  apply (X10_unweighted_undirected_mirror (unweighted_graph_with_edges false) 1 2);
    [apply unweighted_graph_with_edges_reachable | evaluate].
Defined.

Lemma X11_unweighted_family_agrees_with_has_edge_witness :
  (get_children 1 (unweighted_graph_with_edges true)
   = Ret {[2]} (unweighted_graph_with_edges true)
   ∧ get_parents 1 (unweighted_graph_with_edges true)
     = Ret {[3]} (unweighted_graph_with_edges true)) ∧
  ∃ children parents : gset Z,
    get_children 1 (unweighted_graph_with_edges true)
    = Ret children (unweighted_graph_with_edges true)
    ∧ get_parents 1 (unweighted_graph_with_edges true)
      = Ret parents (unweighted_graph_with_edges true)
    ∧ (∀ x, x ∈ children ↔ has_edge 1 x (unweighted_graph_with_edges true)
                            = Ret true (unweighted_graph_with_edges true))
    ∧ (∀ x, x ∈ parents ↔ has_edge x 1 (unweighted_graph_with_edges true)
                           = Ret true (unweighted_graph_with_edges true))
    ∧ children ⊆ vertices (unweighted_graph_with_edges true)
    ∧ parents ⊆ vertices (unweighted_graph_with_edges true).
Proof.
  split; [split; evaluate|].
  apply (X11_unweighted_family_agrees_with_has_edge (unweighted_graph_with_edges true) 1);
    [apply unweighted_graph_with_edges_reachable | evaluate].
Defined.

Lemma X12_unweighted_add_then_remove_edge_witness :
  ∃ g1 g2, add_edge 1 2 (unweighted_graph false) = Ret tt g1
    ∧ has_edge 1 2 g1 = Ret true g1
    ∧ (directed (unweighted_graph false) = false → has_edge 2 1 g1 = Ret true g1)
    ∧ remove_edge 1 2 g1 = Ret tt g2
    ∧ equivalent (unweighted_graph false) g2.
Proof.
  apply (X12_unweighted_add_then_remove_edge (unweighted_graph false) 1 2);
    [apply unweighted_graph_reachable | evaluate..].
Defined.

Lemma X13_unweighted_add_edges_all_or_nothing_witness :
  (∃ e g', add_edges [(1, 2); (2, 3); (1, 2)] (unweighted_graph true) = Throw e g'
           ∧ (e = Edge_already_exists ∨ e = Vertex_not_in_graph)
           ∧ equivalent (unweighted_graph true) g') ∨
  (∃ g', add_edges [(1, 2); (2, 3); (1, 2)] (unweighted_graph true) = Ret tt g'
         ∧ vertices g' = vertices (unweighted_graph true)
         ∧ (∀ a b, (a, b) ∈ [(1, 2); (2, 3); (1, 2)] → has_edge a b g' = Ret true g')
         ∧ (∀ x y, has_edge x y (unweighted_graph true) = Ret true (unweighted_graph true) →
                   has_edge x y g' = Ret true g')).
Proof.
  apply (X13_unweighted_add_edges_all_or_nothing (unweighted_graph true)
           [(1, 2); (2, 3); (1, 2)]).
  apply unweighted_graph_reachable.
Defined.

Lemma X14_unweighted_add_vertex_isolated_witness :
  ∃ g', add_vertex 4 (unweighted_graph true) = Ret tt g'
    ∧ has_vertex 4 g' = Ret true g'
    ∧ get_children 4 g' = Ret ∅ g'
    ∧ get_parents 4 g' = Ret ∅ g'
    ∧ (∀ x y, result_of (has_edge x y g')
              = result_of (has_edge x y (unweighted_graph true))).
Proof.
  apply (X14_unweighted_add_vertex_isolated (unweighted_graph true) 4);
    [apply unweighted_graph_reachable | evaluate].
Defined.

Lemma X15_unweighted_remove_vertex_frame_witness :
  (result_of (has_edge 1 2 (unweighted_graph_with_edges true)) = Returned true
   ∧ result_of (has_edge 3 1 (unweighted_graph_with_edges true)) = Returned true) ∧
  ∃ g', remove_vertex 3 (unweighted_graph_with_edges true) = Ret tt g'
    ∧ vertices g' = vertices (unweighted_graph_with_edges true) ∖ {[3]}
    ∧ result_of (has_edge 1 2 g')
      = result_of (has_edge 1 2 (unweighted_graph_with_edges true)).
Proof.
  split; [split; evaluate|].
  apply (X15_unweighted_remove_vertex_frame (unweighted_graph_with_edges true) 3 1 2);
    evaluate.
Defined.

Lemma X16_unweighted_set_edge_weight_frame_witness :
  ∃ g', set_edge_weight 1 2 true (unweighted_graph false) = Ret tt g'
    ∧ (directed (unweighted_graph false) = false → has_edge 2 1 g' = Ret true g')
    ∧ (∀ x y, ¬ (x = 1 ∧ y = 2) →
         (directed (unweighted_graph false) = true ∨ ¬ (x = 2 ∧ y = 1)) →
         result_of (has_edge x y g') = result_of (has_edge x y (unweighted_graph false))).
Proof.
  apply (X16_unweighted_set_edge_weight_frame (unweighted_graph false) 1 2 true);
    [apply unweighted_graph_reachable | evaluate..].
Defined.
End unweighted_samples.

Section matrix_samples.
Import AdjacencyMatrixGraph.
Local Open Scope Z_scope.

Lemma matrix_graph_tidy d : tidy (matrix_graph d).
Proof. apply m_constructor_tidy. evaluate. Qed.

Lemma matrix_graph_well_shaped d : well_shaped (matrix_graph d).
Proof. apply m_constructor_well_shaped. Qed.

Lemma X17_matrix_edge_operations_keep_consistency_witness :
  tidy (matrix_graph false) ∧
  (∃ g', state_of (set_edge_weight 1 2 5 (matrix_graph false)) = Some g' ∧ tidy g') ∧
  (∃ g', state_of (remove_edge 1 2 (matrix_graph false)) = Some g' ∧ tidy g') ∧
  well_shaped (matrix_graph false) ∧ cells_match_store (matrix_graph false).
Proof.
  destruct (X17_matrix_edge_operations_keep_consistency (Vertex:=Z) (EdgeWeight:=Z))
    as (Hconstructor & Hset & Hremove & Hmatch).
  assert (Htidy : tidy (matrix_graph false)).
  { apply (Hconstructor false [1; 2; 3]). evaluate. }
  split_and!; [done | by apply Hset | by apply Hremove | by apply Hmatch..].
Defined.

Lemma matrix_graph_with_edge_tidy d : tidy (matrix_graph_with_edge d).
Proof.
  destruct (m_tidy_set_edge_weight (matrix_graph d) 1 2 5 0 1 (matrix_graph_tidy d))
    as (g' & Hset & Htidy & _); [done..|].
  unfold matrix_graph_with_edge, after. by rewrite Hset.
Qed.

Lemma X18_matrix_has_edge_get_edge_weight_agree_witness :
  result_of (has_edge 1 2 (matrix_graph_with_edge true)) = Returned true ∧
  ((has_edge 1 2 (matrix_graph_with_edge true) = Ret true (matrix_graph_with_edge true)
    ∧ ∃ w, get_edge_weight 1 2 (matrix_graph_with_edge true)
           = Ret w (matrix_graph_with_edge true)) ∨
   (has_edge 1 2 (matrix_graph_with_edge true) = Ret false (matrix_graph_with_edge true)
    ∧ get_edge_weight 1 2 (matrix_graph_with_edge true)
      = Throw Edge_does_not_exist (matrix_graph_with_edge true))).
Proof.
  split; [evaluate|].
  apply (X18_matrix_has_edge_get_edge_weight_agree (matrix_graph_with_edge true) 1 2);
    [apply matrix_graph_with_edge_tidy | evaluate..].
Defined.

Lemma X19_matrix_set_edge_weight_mirror_and_frame_witness :
  ∃ g', set_edge_weight 1 2 5 (matrix_graph false) = Ret tt g'
    ∧ (directed (matrix_graph false) = false →
       has_edge 2 1 g' = Ret true g' ∧ get_edge_weight 2 1 g' = Ret 5 g')
    ∧ (∀ x y, x ∈ vertices (matrix_graph false) → y ∈ vertices (matrix_graph false) →
         ¬ (x = 1 ∧ y = 2) → (directed (matrix_graph false) = true ∨ ¬ (x = 2 ∧ y = 1)) →
         result_of (has_edge x y g') = result_of (has_edge x y (matrix_graph false))
         ∧ result_of (get_edge_weight x y g')
           = result_of (get_edge_weight x y (matrix_graph false))).
Proof.
  apply (X19_matrix_set_edge_weight_mirror_and_frame (matrix_graph false) 1 2 5);
    [apply matrix_graph_tidy | evaluate..].
Defined.

Lemma X20_matrix_set_then_remove_witness :
  ∃ g1 g2, set_edge_weight 1 1 5 (matrix_graph false) = Ret tt g1
    ∧ remove_edge 1 1 g1 = Ret tt g2
    ∧ has_edge 1 1 g2 = Ret false g2
    ∧ get_edge_weight 1 1 g2 = Throw Edge_does_not_exist g2
    ∧ (directed (matrix_graph false) = false → has_edge 1 1 g2 = Ret false g2).
Proof.
  apply (X20_matrix_set_then_remove (matrix_graph false) 1 1 5);
    [apply matrix_graph_tidy | evaluate..].
Defined.

Lemma X21_matrix_family_agrees_with_has_edge_witness :
  result_of (get_children 1 (matrix_graph_with_edge false)) = Returned {[2]} ∧
  ∃ children parents : gset Z,
    get_children 1 (matrix_graph_with_edge false)
    = Ret children (matrix_graph_with_edge false)
    ∧ get_parents 1 (matrix_graph_with_edge false)
      = Ret parents (matrix_graph_with_edge false)
    ∧ (∀ x, x ∈ children ↔ x ∈ vertices (matrix_graph_with_edge false)
                            ∧ has_edge 1 x (matrix_graph_with_edge false)
                              = Ret true (matrix_graph_with_edge false))
    ∧ (∀ x, x ∈ parents ↔ x ∈ vertices (matrix_graph_with_edge false)
                           ∧ has_edge x 1 (matrix_graph_with_edge false)
                             = Ret true (matrix_graph_with_edge false))
    ∧ (directed (matrix_graph_with_edge false) = false → children = parents).
Proof.
  split; [evaluate|].
  apply (X21_matrix_family_agrees_with_has_edge (matrix_graph_with_edge false) 1);
    [apply matrix_graph_with_edge_tidy | evaluate].
Defined.

Lemma X22_matrix_add_vertex_keeps_old_edges_witness :
  ∃ g', add_vertex 4 (matrix_graph true) = Ret tt g'
    ∧ has_vertex 4 g' = Ret true g'
    ∧ (∀ x y, x ∈ vertices (matrix_graph true) → y ∈ vertices (matrix_graph true) →
         result_of (has_edge x y g') = result_of (has_edge x y (matrix_graph true))
         ∧ result_of (get_edge_weight x y g')
           = result_of (get_edge_weight x y (matrix_graph true)))
    ∧ (∀ x, x ∈ vertices (matrix_graph true) →
         has_edge x 4 g' = Ret false g' ∧ has_edge 4 x g' = Ret false g').
Proof.
  apply (X22_matrix_add_vertex_keeps_old_edges (matrix_graph true) 4);
    [apply matrix_graph_well_shaped | evaluate].
Defined.

Lemma X23_matrix_family_of_added_vertex_undefined_witness :
  ∃ g', add_vertex 4 (matrix_graph true) = Ret tt g'
    ∧ get_children 4 g' = Undef
    ∧ get_parents 4 g' = Undef.
Proof.
  apply (X23_matrix_family_of_added_vertex_undefined (matrix_graph true) 4);
    [apply matrix_graph_well_shaped | evaluate].
Defined.

Lemma X24_matrix_add_vertices_new_vertex_unusable_witness :
  ∃ g' k, add_vertices [4; 5] (matrix_graph true) = Ret tt g'
    ∧ vertices g' = vertices (matrix_graph true) ++ [4; 5]
    ∧ vertex_indices g' !! 4 = Some k ∧ (length (vertices g') ≤ k)%nat
    ∧ adjacency_matrix g' !! k = Some []
    ∧ (∀ x, x ∈ vertices g' →
         has_edge 4 x g' = Undef ∧ get_edge_weight 4 x g' = Undef
         ∧ ∀ w, set_edge_weight 4 x w g' = Undef).
Proof.
  apply (X24_matrix_add_vertices_new_vertex_unusable [4; 5] (matrix_graph true) 4);
    [apply matrix_graph_well_shaped | | evaluate].
  intros y [->|[->|[]%elem_of_nil]%elem_of_cons]%elem_of_cons; evaluate.
Defined.

Lemma X25_matrix_remove_vertex_undefined_witness :
  remove_vertex 2 (matrix_graph false) = Undef.
Proof.
  apply (X25_matrix_remove_vertex_undefined (matrix_graph false) 2);
    [apply matrix_graph_well_shaped | evaluate].
Defined.
End matrix_samples.

Section cross_samples.
Local Open Scope Z_scope.

Lemma X26_remove_edge_unknown_vertex_witness :
  AdjacencyListGraph.remove_edge 7 1 (weighted_graph true)
  = Throw Vertex_not_in_graph (weighted_graph true) ∧
  (∃ g', AdjacencyListGraphBool.remove_edge 7 1 (unweighted_graph true)
         = Throw Remove_edge_that_doesnt_exist g'
         ∧ AdjacencyListGraphBool.equivalent (unweighted_graph true) g') ∧
  AdjacencyMatrixGraph.remove_edge 7 1 (matrix_graph true)
  = Throw Vertex_not_in_graph (matrix_graph true).
Proof.
  destruct (X26_remove_edge_unknown_vertex (Vertex:=Z) (EdgeWeight:=Z) 7 1)
    as (Hweighted & Hunweighted & Hmatrix).
  split_and!.
  - apply Hweighted. evaluate.
  - apply Hunweighted; [apply unweighted_graph_reachable | evaluate].
  - apply Hmatrix; [apply matrix_graph_well_shaped | evaluate].
Defined.
End cross_samples.
